(** * Pet feeder controller: schedule store, schedule evaluator, feed actions

    A shallow embedding of [pet-feeder.py] (class [PetFeederApp]) and the
    properties of its schedule logic.

    - Python [str] values are modelled by [string]: sequences of code points
      in the range 0..255, compared lexicographically by code point as
      Python's [<] does.  Texts with other characters are outside the model,
      among them the decimal digits beyond ASCII, which [strptime] reads as
      digits.
    - Exceptions are explicit: a computation returns [Ok v] or [Raise e], and
      [try]/[except]/[finally] are combinators of the monad [M].  The
      message of an exception is indicative; its class is what the program
      reacts to.
    - [self] and the environment it talks to (the schedule file, the motor,
      stdout, message boxes, the asyncio task queue) form one record [State].
    - Inputs that come from outside (the clock, the text typed into a
      dialog, the selected row, the fate of a file write, the answers of the
      motor) are arguments of the handlers or functions held in the state.
    - The library calls the program relies on ([datetime.strftime],
      [datetime.strptime], [json.load], [json.dump], [list.sort]) are given
      by executable definitions that follow the CPython implementation.
    - Coroutines ([on_feed], [scheduled_feed], [on_connect],
      [_refresh_camera]) are modelled run-to-completion: what one execution
      does from its start to its end.  Two coroutines that overlap in time,
      each suspended at an [await] while the other goes on, are not
      modelled.
    - The camera functions work on [Window]: the state together with the
      picture the camera label shows. *)

From Stdlib Require Import ZArith Ascii String.
From stdpp Require Import base list sorting strings.

Local Open Scope Z_scope.
Local Open Scope nat_scope.

(** ** Python runtime: exceptions and results *)

Module Py.

(** The exception classes the program can meet.  [CancelledError] and
    [KeyboardInterrupt] derive from [BaseException] only, so an
    [except Exception] clause lets them through. *)
Inductive exc_class :=
  | BaseException
  | Exception
  | ValueError
  | JSONDecodeError
  | OSError
  | TypeError
  | IndexError
  | AttributeError
  | RuntimeError
  | CancelledError
  | KeyboardInterrupt.

#[global] Instance exc_class_eq_dec : EqDecision exc_class.
Proof. solve_decision. Defined.

Record exc := mk_exc { exc_cls : exc_class; exc_msg : string }.

#[global] Instance exc_eq_dec : EqDecision exc.
Proof. solve_decision. Defined.

(** [issubclass c d]: class [c] is [d] or derives from it. *)
Definition issubclass (c d : exc_class) : bool :=
  match d with
  | BaseException => true
  | Exception =>
      match c with
      | BaseException | CancelledError | KeyboardInterrupt => false
      | _ => true
      end
  | ValueError =>
      match c with ValueError | JSONDecodeError => true | _ => false end
  | _ => bool_decide (c = d)
  end.

Definition isinstance (e : exc) (d : exc_class) : bool :=
  issubclass (exc_cls e) d.
#[global] Arguments isinstance : simpl never.

(** [str(e)] *)
Definition str (e : exc) : string := exc_msg e.

Inductive res (A : Type) :=
  | Ok (a : A)
  | Raise (e : exc).
Arguments Ok {A} a.
Arguments Raise {A} e.

#[global] Instance res_eq_dec `{EqDecision A} : EqDecision (res A).
Proof. solve_decision. Defined.

Definition is_ok {A} (r : res A) : bool :=
  match r with Ok _ => true | Raise _ => false end.

End Py.
Export Py.

(** ** Characters and digits *)

Definition is_digit (c : ascii) : bool :=
  (48 <=? nat_of_ascii c) && (nat_of_ascii c <=? 57).

Definition digit_val (c : ascii) : nat := nat_of_ascii c - 48.

Definition digit_char (d : nat) : ascii := ascii_of_nat (48 + d).

Definition dquote : ascii := "034"%char.

Definition char_in (lo hi c : ascii) : bool :=
  (nat_of_ascii lo <=? nat_of_ascii c) && (nat_of_ascii c <=? nat_of_ascii hi).

(** ** Time of day *)

(** [datetime.datetime]: only the time-of-day fields are read by the
    program.  A datetime object always has [hour < 24], [minute < 60] and
    [second < 60]. *)
Record datetime := mk_datetime {
  dt_day : nat;       (* days since some epoch: the date part *)
  dt_hour : nat;
  dt_minute : nat;
  dt_second : nat
}.

Definition valid_datetime (d : datetime) : Prop :=
  dt_hour d < 24 ∧ dt_minute d < 60 ∧ dt_second d < 60.

(** A field printed by [%H] or [%M]: two decimal digits, zero padded. *)
Definition pad2 (n : nat) : list ascii :=
  [digit_char ((n / 10) `mod` 10); digit_char (n `mod` 10)].

Definition hhmm (h m : nat) : string :=
  string_of_list_ascii (pad2 h ++ ":"%char :: pad2 m).

(** [now.strftime("%H:%M")] *)
Definition strftime_HM (now : datetime) : string :=
  hhmm (dt_hour now) (dt_minute now).
#[global] Arguments strftime_HM : simpl never.

(** *** [datetime.strptime(time, "%H:%M")]

    CPython turns the format into the regular expression
    [(?P<H>2[0-3]|[0-1]\d|\d):(?P<M>[0-5]\d|\d)], matches it at the start
    of the text, and raises [ValueError] when it does not match or when
    text is left over after the match.  Each directive is a list of
    alternatives tried in order, with backtracking. *)

(** The alternatives of [%H] at the head of [s], in the order the regular
    expression tries them, each with the text that follows it. *)
Definition alt_H (s : list ascii) : list (nat * list ascii) :=
  match s with
  | c1 :: c2 :: r =>
      (if bool_decide (c1 = "2"%char) && char_in "0" "3" c2
       then [(20 + digit_val c2, r)] else []) ++
      (if char_in "0" "1" c1 && is_digit c2
       then [(10 * digit_val c1 + digit_val c2, r)] else []) ++
      (if is_digit c1 then [(digit_val c1, c2 :: r)] else [])
  | [c1] => if is_digit c1 then [(digit_val c1, [])] else []
  | [] => []
  end.

(** The alternatives of [%M]. *)
Definition alt_M (s : list ascii) : list (nat * list ascii) :=
  match s with
  | c1 :: c2 :: r =>
      (if char_in "0" "5" c1 && is_digit c2
       then [(10 * digit_val c1 + digit_val c2, r)] else []) ++
      (if is_digit c1 then [(digit_val c1, c2 :: r)] else [])
  | [c1] => if is_digit c1 then [(digit_val c1, [])] else []
  | [] => []
  end.

Definition lit_colon (s : list ascii) : list (list ascii) :=
  match s with
  | c :: r => if bool_decide (c = ":"%char) then [r] else []
  | [] => []
  end.

(** [format_regex.match(data_string)]: the first way, in backtracking
    order, to match the whole pattern at the start of the text. *)
Definition regex_match_HM (s : list ascii) : option (nat * nat * list ascii) :=
  head (h ← alt_H s; r ← lit_colon h.2; m ← alt_M r; [(h.1, m.1, m.2)]).

Definition strptime_HM (time : string) : res (nat * nat) :=
  match regex_match_HM (list_ascii_of_string time) with
  | None =>
      Raise (mk_exc ValueError "time data does not match format '%H:%M'")
  | Some (h, m, []) => Ok (h, m)
  | Some (_, _, _ :: _) =>
      Raise (mk_exc ValueError "unconverted data remains")
  end.

(** Not a function of the program: the strict format of a schedule entry
    as the specification words it, two digits of hour 00-23, a colon, two
    digits of minute 00-59. *)
Definition strict_hhmm (s : string) : bool :=
  match list_ascii_of_string s with
  | [h1; h2; c; m1; m2] =>
      is_digit h1 && is_digit h2 && bool_decide (c = ":"%char) &&
      is_digit m1 && is_digit m2 &&
      (10 * digit_val h1 + digit_val h2 <? 24) &&
      (10 * digit_val m1 + digit_val m2 <? 60)
  | _ => false
  end.

(** ** The [json] module

    The values a JSON document decodes to.  A decoded [str] may hold any
    code point (through a [\uXXXX] escape), so its payload is a list of code
    points; [codepoints] embeds the strings of the program.  Integers are
    exact; a float is kept as the literal that denotes it. *)

Definition pystr := list N.

Definition codepoints (s : string) : pystr :=
  N_of_ascii <$> list_ascii_of_string s.

#[warnings="-register-all"]
Inductive pyval :=
  | PyNone
  | PyBool (b : bool)
  | PyInt (n : Z)
  | PyFloat (lit : string)
  | PyStr (s : pystr)
  | PyList (l : list pyval)
  | PyDict (kv : list (pystr * pyval)).

(** [isinstance(data, list)] *)
Definition is_list (v : pyval) : option (list pyval) :=
  match v with PyList l => Some l | _ => None end.

Module Json.

Definition decode_error (msg : string) : exc := mk_exc JSONDecodeError msg.

(** *** Encoding: [json.dump] of a list of [str] (with the default
    [ensure_ascii=True] and separators [", "]) *)

Definition hex_digit (n : nat) : ascii :=
  if n <? 10 then ascii_of_nat (48 + n) else ascii_of_nat (87 + n).

(** One character of a string, as [encode_basestring_ascii] writes it:
    printable ASCII other than the quote and the backslash is written as it
    is, the rest as an escape. *)
Definition escape_char (c : ascii) : list ascii :=
  let n := nat_of_ascii c in
  if bool_decide (c = dquote) then ["\"%char; dquote]
  else if bool_decide (c = "\"%char) then ["\"; "\"]%char
  else if n =? 8 then ["\"; "b"]%char
  else if n =? 12 then ["\"; "f"]%char
  else if n =? 10 then ["\"; "n"]%char
  else if n =? 13 then ["\"; "r"]%char
  else if n =? 9 then ["\"; "t"]%char
  else if (32 <=? n) && (n <=? 126) then [c]
  else ["\"; "u"; "0"; "0"; hex_digit (n / 16); hex_digit (n `mod` 16)]%char.

Definition encode_str (s : string) : list ascii :=
  dquote :: (list_ascii_of_string s ≫= escape_char) ++ [dquote].

Fixpoint encode_items (l : list string) : list ascii :=
  match l with
  | [] => []
  | [s] => encode_str s
  | s :: l' => encode_str s ++ [","; " "]%char ++ encode_items l'
  end.

Definition dumps (l : list string) : string :=
  string_of_list_ascii ("["%char :: encode_items l ++ ["]"%char]).

(** *** Decoding: [json.load]

    The decoder follows CPython's scanner: [scan_once] dispatches on the
    next character, [scanstring] reads a string body, [parse_array] and
    [parse_object] read the containers.  Each function takes the text that
    is left and returns the value with the text after it.  Error messages
    carry no position.  The recursion is bounded by [fuel]; [loads] gives
    enough of it for the whole text ([loads_decoding] below).  The limits
    of the interpreter (recursion depth, length of an integer literal) are
    not modelled: where they apply, [json.load] raises and [load_schedule]
    falls back on the default schedule. *)

Definition is_ws (c : ascii) : bool :=
  bool_decide (c = " "%char) || (nat_of_ascii c =? 9) ||
  (nat_of_ascii c =? 10) || (nat_of_ascii c =? 13).

Fixpoint skip_ws (s : list ascii) : list ascii :=
  match s with
  | c :: r => if is_ws c then skip_ws r else s
  | [] => []
  end.

Definition hex_val (c : ascii) : option N :=
  let n := nat_of_ascii c in
  if (48 <=? n) && (n <=? 57) then Some (N.of_nat (n - 48))
  else if (97 <=? n) && (n <=? 102) then Some (N.of_nat (n - 87))
  else if (65 <=? n) && (n <=? 70) then Some (N.of_nat (n - 55))
  else None.

(** The four hexadecimal digits of a [\uXXXX] escape. *)
Definition hex4 (a b c d : ascii) : option N :=
  a' ← hex_val a; b' ← hex_val b; c' ← hex_val c; d' ← hex_val d;
  Some (((a' * 16 + b') * 16 + c') * 16 + d')%N.

Definition is_high_surrogate (u : N) : bool :=
  ((0xD800 <=? u) && (u <=? 0xDBFF))%N.

Definition is_low_surrogate (u : N) : bool :=
  ((0xDC00 <=? u) && (u <=? 0xDFFF))%N.

Definition join_surrogates (hi lo : N) : N :=
  (0x10000 + (N.lor (N.shiftl (hi - 0xD800) 10) (lo - 0xDC00)))%N.

(** The character a one-letter escape stands for. *)
Definition backslash (c : ascii) : option N :=
  if bool_decide (c = dquote) then Some 34%N
  else if bool_decide (c = "\"%char) then Some 92%N
  else if bool_decide (c = "/"%char) then Some 47%N
  else if bool_decide (c = "b"%char) then Some 8%N
  else if bool_decide (c = "f"%char) then Some 12%N
  else if bool_decide (c = "n"%char) then Some 10%N
  else if bool_decide (c = "r"%char) then Some 13%N
  else if bool_decide (c = "t"%char) then Some 9%N
  else None.

Definition cons_char {A} (u : N) (r : res (pystr * A)) : res (pystr * A) :=
  match r with
  | Ok (cs, rest) => Ok (u :: cs, rest)
  | Raise e => Raise e
  end.

(** [scanstring] in strict mode, entered after the opening quote. *)
Fixpoint scanstring (s : list ascii) : res (pystr * list ascii) :=
  match s with
  | [] => Raise (decode_error "Unterminated string starting at")
  | c :: r =>
      if bool_decide (c = dquote) then Ok ([], r)
      else if bool_decide (c = "\"%char) then
        match r with
        | [] => Raise (decode_error "Unterminated string starting at")
        | e :: r1 =>
            if bool_decide (e = "u"%char) then
              match r1 with
              | h1 :: h2 :: h3 :: h4 :: r2 =>
                  match hex4 h1 h2 h3 h4 with
                  | None => Raise (decode_error "Invalid \uXXXX escape")
                  | Some u =>
                      match r2 with
                      | b :: v :: g1 :: g2 :: g3 :: g4 :: r3 =>
                          if is_high_surrogate u && bool_decide (b = "\"%char)
                             && bool_decide (v = "u"%char)
                          then
                            match hex4 g1 g2 g3 g4 with
                            | None =>
                                Raise (decode_error "Invalid \uXXXX escape")
                            | Some u2 =>
                                if is_low_surrogate u2
                                then cons_char (join_surrogates u u2)
                                       (scanstring r3)
                                else cons_char u (scanstring r2)
                            end
                          else cons_char u (scanstring r2)
                      | _ => cons_char u (scanstring r2)
                      end
                  end
              | _ => Raise (decode_error "Invalid \uXXXX escape")
              end
            else
              match backslash e with
              | Some u => cons_char u (scanstring r1)
              | None => Raise (decode_error "Invalid \escape")
              end
        end
      else if nat_of_ascii c <=? 31 then
        Raise (decode_error "Invalid control character at")
      else cons_char (N_of_ascii c) (scanstring r)
  end.

(** The digits at the head of the text, and what follows them. *)
Fixpoint span_digits (s : list ascii) : list ascii * list ascii :=
  match s with
  | c :: r =>
      if is_digit c
      then let '(ds, rest) := span_digits r in (c :: ds, rest)
      else ([], s)
  | [] => ([], [])
  end.

Definition nat_of_digits (ds : list ascii) : nat :=
  foldl (λ acc c, 10 * acc + digit_val c) 0 ds.

(** The integer part of a number: [0], or a non-zero digit and more
    digits. *)
Definition match_int (s : list ascii) : option (list ascii * list ascii) :=
  match s with
  | c :: r =>
      if bool_decide (c = "0"%char) then Some ([c], r)
      else if is_digit c then Some (span_digits s)
      else None
  | [] => None
  end.

(** The optional fraction: a point and at least one digit. *)
Definition match_frac (s : list ascii) : list ascii * list ascii :=
  match s with
  | p :: r =>
      if bool_decide (p = "."%char) then
        match span_digits r with
        | ([], _) => ([], s)
        | (ds, rest) => (p :: ds, rest)
        end
      else ([], s)
  | [] => ([], [])
  end.

(** The optional exponent: [e] or [E], an optional sign, at least one
    digit. *)
Definition match_exp (s : list ascii) : list ascii * list ascii :=
  match s with
  | e :: r =>
      if bool_decide (e = "e"%char) || bool_decide (e = "E"%char) then
        let '(sign, r') :=
          match r with
          | g :: r1 =>
              if bool_decide (g = "-"%char) || bool_decide (g = "+"%char)
              then ([g], r1) else ([], r)
          | [] => ([], [])
          end in
        match span_digits r' with
        | ([], _) => ([], s)
        | (ds, rest) => (e :: sign ++ ds, rest)
        end
      else ([], s)
  | [] => ([], [])
  end.

Definition match_number (s : list ascii) : option (pyval * list ascii) :=
  let '(neg, s1) :=
    match s with
    | c :: r => if bool_decide (c = "-"%char) then (true, r) else (false, s)
    | [] => (false, [])
    end in
  '(int, s2) ← match_int s1;
  let '(frac, s3) := match_frac s2 in
  let '(ex, s4) := match_exp s3 in
  match frac, ex with
  | [], [] =>
      let n := Z.of_nat (nat_of_digits int) in
      Some (PyInt (if neg then (- n)%Z else n), s4)
  | _, _ =>
      Some (PyFloat (string_of_list_ascii
                       ((if neg then ["-"%char] else []) ++ int ++ frac ++ ex)),
            s4)
  end.

(** [s] starts with the word [w]: what follows the word. *)
Fixpoint strip_prefix (w s : list ascii) : option (list ascii) :=
  match w, s with
  | [], _ => Some s
  | a :: w', b :: s' => if bool_decide (a = b) then strip_prefix w' s' else None
  | _ :: _, [] => None
  end.

Definition constants : list (string * pyval) :=
  [("null", PyNone); ("true", PyBool true); ("false", PyBool false);
   ("NaN", PyFloat "NaN"); ("Infinity", PyFloat "Infinity");
   ("-Infinity", PyFloat "-Infinity")].

Fixpoint match_constant (cs : list (string * pyval)) (s : list ascii)
  : option (pyval * list ascii) :=
  match cs with
  | [] => None
  | (w, v) :: cs' =>
      match strip_prefix (list_ascii_of_string w) s with
      | Some rest => Some (v, rest)
      | None => match_constant cs' s
      end
  end.

(** A [dict] keeps one value per key: a repeated key overwrites the value
    and keeps its first position. *)
Fixpoint dict_set (k : pystr) (v : pyval) (d : list (pystr * pyval)) :=
  match d with
  | [] => [(k, v)]
  | (k', v') :: d' =>
      if bool_decide (k = k') then (k, v) :: d' else (k', v') :: dict_set k v d'
  end.

(** The text after the character [c], when the text starts with it. *)
Definition after_char (c : ascii) (s : list ascii) : option (list ascii) :=
  match s with
  | c' :: r => if bool_decide (c' = c) then Some r else None
  | [] => None
  end.

Definition recursion_error : exc :=
  mk_exc RuntimeError "maximum recursion depth exceeded".

Fixpoint scan_once (fuel : nat) (s : list ascii) : res (pyval * list ascii) :=
  match fuel with
  | 0 => Raise recursion_error
  | S fuel =>
      match s with
      | [] => Raise (decode_error "Expecting value")
      | c :: r =>
          if bool_decide (c = dquote) then
            match scanstring r with
            | Ok (str, rest) => Ok (PyStr str, rest)
            | Raise e => Raise e
            end
          else if bool_decide (c = "{"%char) then
            match after_char "}" (skip_ws r) with
            | Some rest => Ok (PyDict [], rest)
            | None =>
                match parse_object fuel [] (skip_ws r) with
                | Ok (kv, rest) => Ok (PyDict kv, rest)
                | Raise e => Raise e
                end
            end
          else if bool_decide (c = "["%char) then
            match after_char "]" (skip_ws r) with
            | Some rest => Ok (PyList [], rest)
            | None =>
                match parse_array fuel (skip_ws r) with
                | Ok (vs, rest) => Ok (PyList vs, rest)
                | Raise e => Raise e
                end
            end
          else
            match match_constant constants s with
            | Some found => Ok found
            | None =>
                match match_number s with
                | Some found => Ok found
                | None => Raise (decode_error "Expecting value")
                end
            end
      end
  end

(** The items of a non-empty array, entered at the first item. *)
with parse_array (fuel : nat) (s : list ascii)
  : res (list pyval * list ascii) :=
  match fuel with
  | 0 => Raise recursion_error
  | S fuel =>
      match scan_once fuel s with
      | Raise e => Raise e
      | Ok (v, r) =>
          match skip_ws r with
          | c :: r' =>
              if bool_decide (c = "]"%char) then Ok ([v], r')
              else if bool_decide (c = ","%char) then
                match parse_array fuel (skip_ws r') with
                | Ok (vs, rest) => Ok (v :: vs, rest)
                | Raise e => Raise e
                end
              else Raise (decode_error "Expecting ',' delimiter")
          | [] => Raise (decode_error "Expecting ',' delimiter")
          end
      end
  end

(** The pairs of a non-empty object, entered at the first key; [acc] is
    the dictionary built so far. *)
with parse_object (fuel : nat) (acc : list (pystr * pyval)) (s : list ascii)
  : res (list (pystr * pyval) * list ascii) :=
  match fuel with
  | 0 => Raise recursion_error
  | S fuel =>
      match s with
      | q :: r =>
          if bool_decide (q = dquote) then
            match scanstring r with
            | Raise e => Raise e
            | Ok (key, r1) =>
                match skip_ws r1 with
                | colon :: r2 =>
                    if bool_decide (colon = ":"%char) then
                      match scan_once fuel (skip_ws r2) with
                      | Raise e => Raise e
                      | Ok (v, r3) =>
                          let acc' := dict_set key v acc in
                          match skip_ws r3 with
                          | c :: r4 =>
                              if bool_decide (c = "}"%char) then Ok (acc', r4)
                              else if bool_decide (c = ","%char) then
                                parse_object fuel acc' (skip_ws r4)
                              else
                                Raise (decode_error "Expecting ',' delimiter")
                          | [] =>
                              Raise (decode_error "Expecting ',' delimiter")
                          end
                      end
                    else Raise (decode_error "Expecting ':' delimiter")
                | [] => Raise (decode_error "Expecting ':' delimiter")
                end
            end
          else
            Raise (decode_error
                     "Expecting property name enclosed in double quotes")
      | [] =>
          Raise (decode_error
                   "Expecting property name enclosed in double quotes")
      end
  end.

(** [json.loads]: one value, with white space around it and nothing
    else. *)
Definition loads (text : string) : res pyval :=
  let s := list_ascii_of_string text in
  match scan_once (S (2 * length s)) (skip_ws s) with
  | Raise e => Raise e
  | Ok (v, rest) =>
      match skip_ws rest with
      | [] => Ok v
      | _ :: _ => Raise (decode_error "Extra data")
      end
  end.

#[global] Arguments loads : simpl never.
#[global] Arguments dumps : simpl never.

End Json.

(** ** The state of the application and of its environment *)

(** The backing file [schedule.json]: absent, present but not readable as
    text ([open] or [read] raises), or holding a text. *)
Inductive file :=
  | NoFile
  | Unreadable (msg : string)      (* open raises OSError *)
  | Undecodable (msg : string)     (* read raises UnicodeDecodeError *)
  | Text (content : string).

(** What happens when the file is rewritten: the write goes through, [open]
    raises, or [json.dump] raises after [written] characters reached the
    file. *)
Inductive write_outcome :=
  | WriteOk
  | OpenFails (e : exc)
  | WriteFails (written : nat) (e : exc).

(** The commands of the motor the program uses. *)
Inductive motor_call :=
  | GoFor (rpm revolutions : Z)
  | Stop.

#[global] Instance motor_call_eq_dec : EqDecision motor_call.
Proof. solve_decision. Defined.

(** The remote motor: for each command, given the commands sent before it,
    whether the call completes ([None]) or raises. *)
Record Motor := mk_Motor {
  motor_reply : list motor_call → motor_call → option exc
}.

Inductive dialog :=
  | Warning (title text : string)
  | Critical (title text : string).

Inductive task :=
  | ScheduledFeed.

#[global] Instance task_eq_dec : EqDecision task.
Proof. solve_decision. Defined.

Record State := mk_State {
  connected : bool                   (* self.connected *);
  stepper : option Motor             (* self.stepper: None or the motor handle *);
  schedule : list string             (* self.schedule *);
  last_feed_time : option string     (* self.last_feed_time, None at start *);
  schedule_list : list string        (* the rows of the QListWidget *);
  status_label : string              (* the text of the status line *);
  connect_btn : bool                 (* connect button enabled *);
  feed_btn : bool                    (* feed button enabled *);
  refresh_cam_btn : bool             (* camera button enabled *);
  camera : bool                      (* self.camera is a handle *);
  schedule_file : file               (* schedule.json on disk *);
  motor_calls : list motor_call      (* commands sent to the motor, oldest first *);
  stdout : list string               (* lines printed, oldest first *);
  dialogs : list dialog              (* message boxes shown, oldest first *);
  tasks : list task                  (* coroutines put on the event loop, oldest first *)
}.

Definition set_connected (v : bool) (st : State) : State :=
  {| connected := v; stepper := stepper st; schedule := schedule st;
     last_feed_time := last_feed_time st; schedule_list := schedule_list st;
     status_label := status_label st; connect_btn := connect_btn st;
     feed_btn := feed_btn st; refresh_cam_btn := refresh_cam_btn st;
     camera := camera st; schedule_file := schedule_file st;
     motor_calls := motor_calls st; stdout := stdout st;
     dialogs := dialogs st; tasks := tasks st |}.

Definition set_stepper (v : option Motor) (st : State) : State :=
  {| connected := connected st; stepper := v; schedule := schedule st;
     last_feed_time := last_feed_time st; schedule_list := schedule_list st;
     status_label := status_label st; connect_btn := connect_btn st;
     feed_btn := feed_btn st; refresh_cam_btn := refresh_cam_btn st;
     camera := camera st; schedule_file := schedule_file st;
     motor_calls := motor_calls st; stdout := stdout st;
     dialogs := dialogs st; tasks := tasks st |}.

Definition set_schedule (v : list string) (st : State) : State :=
  {| connected := connected st; stepper := stepper st; schedule := v;
     last_feed_time := last_feed_time st; schedule_list := schedule_list st;
     status_label := status_label st; connect_btn := connect_btn st;
     feed_btn := feed_btn st; refresh_cam_btn := refresh_cam_btn st;
     camera := camera st; schedule_file := schedule_file st;
     motor_calls := motor_calls st; stdout := stdout st;
     dialogs := dialogs st; tasks := tasks st |}.

Definition set_last_feed_time (v : option string) (st : State) : State :=
  {| connected := connected st; stepper := stepper st;
     schedule := schedule st; last_feed_time := v;
     schedule_list := schedule_list st; status_label := status_label st;
     connect_btn := connect_btn st; feed_btn := feed_btn st;
     refresh_cam_btn := refresh_cam_btn st; camera := camera st;
     schedule_file := schedule_file st; motor_calls := motor_calls st;
     stdout := stdout st; dialogs := dialogs st; tasks := tasks st |}.

Definition set_schedule_list (v : list string) (st : State) : State :=
  {| connected := connected st; stepper := stepper st;
     schedule := schedule st; last_feed_time := last_feed_time st;
     schedule_list := v; status_label := status_label st;
     connect_btn := connect_btn st; feed_btn := feed_btn st;
     refresh_cam_btn := refresh_cam_btn st; camera := camera st;
     schedule_file := schedule_file st; motor_calls := motor_calls st;
     stdout := stdout st; dialogs := dialogs st; tasks := tasks st |}.

Definition set_status_label (v : string) (st : State) : State :=
  {| connected := connected st; stepper := stepper st;
     schedule := schedule st; last_feed_time := last_feed_time st;
     schedule_list := schedule_list st; status_label := v;
     connect_btn := connect_btn st; feed_btn := feed_btn st;
     refresh_cam_btn := refresh_cam_btn st; camera := camera st;
     schedule_file := schedule_file st; motor_calls := motor_calls st;
     stdout := stdout st; dialogs := dialogs st; tasks := tasks st |}.

Definition set_connect_btn (v : bool) (st : State) : State :=
  {| connected := connected st; stepper := stepper st;
     schedule := schedule st; last_feed_time := last_feed_time st;
     schedule_list := schedule_list st; status_label := status_label st;
     connect_btn := v; feed_btn := feed_btn st;
     refresh_cam_btn := refresh_cam_btn st; camera := camera st;
     schedule_file := schedule_file st; motor_calls := motor_calls st;
     stdout := stdout st; dialogs := dialogs st; tasks := tasks st |}.

Definition set_feed_btn (v : bool) (st : State) : State :=
  {| connected := connected st; stepper := stepper st;
     schedule := schedule st; last_feed_time := last_feed_time st;
     schedule_list := schedule_list st; status_label := status_label st;
     connect_btn := connect_btn st; feed_btn := v;
     refresh_cam_btn := refresh_cam_btn st; camera := camera st;
     schedule_file := schedule_file st; motor_calls := motor_calls st;
     stdout := stdout st; dialogs := dialogs st; tasks := tasks st |}.

Definition set_refresh_cam_btn (v : bool) (st : State) : State :=
  {| connected := connected st; stepper := stepper st;
     schedule := schedule st; last_feed_time := last_feed_time st;
     schedule_list := schedule_list st; status_label := status_label st;
     connect_btn := connect_btn st; feed_btn := feed_btn st;
     refresh_cam_btn := v; camera := camera st;
     schedule_file := schedule_file st; motor_calls := motor_calls st;
     stdout := stdout st; dialogs := dialogs st; tasks := tasks st |}.

Definition set_camera (v : bool) (st : State) : State :=
  {| connected := connected st; stepper := stepper st;
     schedule := schedule st; last_feed_time := last_feed_time st;
     schedule_list := schedule_list st; status_label := status_label st;
     connect_btn := connect_btn st; feed_btn := feed_btn st;
     refresh_cam_btn := refresh_cam_btn st; camera := v;
     schedule_file := schedule_file st; motor_calls := motor_calls st;
     stdout := stdout st; dialogs := dialogs st; tasks := tasks st |}.

Definition set_schedule_file (v : file) (st : State) : State :=
  {| connected := connected st; stepper := stepper st;
     schedule := schedule st; last_feed_time := last_feed_time st;
     schedule_list := schedule_list st; status_label := status_label st;
     connect_btn := connect_btn st; feed_btn := feed_btn st;
     refresh_cam_btn := refresh_cam_btn st; camera := camera st;
     schedule_file := v; motor_calls := motor_calls st; stdout := stdout st;
     dialogs := dialogs st; tasks := tasks st |}.

Definition set_motor_calls (v : list motor_call) (st : State) : State :=
  {| connected := connected st; stepper := stepper st;
     schedule := schedule st; last_feed_time := last_feed_time st;
     schedule_list := schedule_list st; status_label := status_label st;
     connect_btn := connect_btn st; feed_btn := feed_btn st;
     refresh_cam_btn := refresh_cam_btn st; camera := camera st;
     schedule_file := schedule_file st; motor_calls := v;
     stdout := stdout st; dialogs := dialogs st; tasks := tasks st |}.

Definition set_stdout (v : list string) (st : State) : State :=
  {| connected := connected st; stepper := stepper st;
     schedule := schedule st; last_feed_time := last_feed_time st;
     schedule_list := schedule_list st; status_label := status_label st;
     connect_btn := connect_btn st; feed_btn := feed_btn st;
     refresh_cam_btn := refresh_cam_btn st; camera := camera st;
     schedule_file := schedule_file st; motor_calls := motor_calls st;
     stdout := v; dialogs := dialogs st; tasks := tasks st |}.

Definition set_dialogs (v : list dialog) (st : State) : State :=
  {| connected := connected st; stepper := stepper st;
     schedule := schedule st; last_feed_time := last_feed_time st;
     schedule_list := schedule_list st; status_label := status_label st;
     connect_btn := connect_btn st; feed_btn := feed_btn st;
     refresh_cam_btn := refresh_cam_btn st; camera := camera st;
     schedule_file := schedule_file st; motor_calls := motor_calls st;
     stdout := stdout st; dialogs := v; tasks := tasks st |}.

Definition set_tasks (v : list task) (st : State) : State :=
  {| connected := connected st; stepper := stepper st;
     schedule := schedule st; last_feed_time := last_feed_time st;
     schedule_list := schedule_list st; status_label := status_label st;
     connect_btn := connect_btn st; feed_btn := feed_btn st;
     refresh_cam_btn := refresh_cam_btn st; camera := camera st;
     schedule_file := schedule_file st; motor_calls := motor_calls st;
     stdout := stdout st; dialogs := dialogs st; tasks := v |}.

(** ** The monad of the handlers

    A handler transforms the state and either returns a value or raises;
    what it did to the state before raising stays done. *)

Definition M (A : Type) : Type := State → res A * State.

#[global] Instance M_ret : MRet M := λ A a st, (Ok a, st).

#[global] Instance M_bind : MBind M := λ A B k m st,
  match m st with
  | (Ok a, st') => k a st'
  | (Raise e, st') => (Raise e, st')
  end.

Definition raise {A} (e : exc) : M A := λ st, (Raise e, st).

Definition lift {A} (r : res A) : M A := λ st, (r, st).

Definition gets {A} (f : State → A) : M A := λ st, (Ok (f st), st).

Definition modify (f : State → State) : M unit := λ st, (Ok tt, f st).

(** [try: body except cls as e: handler e] *)
Definition try_except {A} (body : M A) (cls : exc_class) (handler : exc → M A)
  : M A := λ st,
  match body st with
  | (Raise e, st') =>
      if isinstance e cls then handler e st' else (Raise e, st')
  | returned => returned
  end.

(** [try: body finally: cleanup] *)
Definition try_finally {A} (body : M A) (cleanup : M unit) : M A := λ st,
  let '(r, st') := body st in
  match cleanup st' with
  | (Ok _, st'') => (r, st'')
  | (Raise e, st'') => (Raise e, st'')
  end.

Definition print (line : string) : M unit :=
  modify (λ st, set_stdout (stdout st ++ [line]) st).

Definition show_dialog (d : dialog) : M unit :=
  modify (λ st, set_dialogs (dialogs st ++ [d]) st).

(** What [asyncio.create_task] can be handed: a coroutine object, or a
    task that is on the event loop already. *)
Inductive awaitable :=
  | Coroutine (c : task)
  | Pending (c : task).

(** The call of a method decorated with [@asyncSlot()], as in
    [self.scheduled_feed()].  The decorator of qasync wraps the coroutine
    function: the call does not return a coroutine, the wrapper puts the
    coroutine on the event loop with [asyncio.ensure_future] and returns
    the task. *)
Definition call_async_slot (c : task) : M awaitable :=
  modify (λ st, set_tasks (tasks st ++ [c]) st);;
  mret (Pending c).

(** [asyncio.create_task(x)]: a coroutine is put on the event loop;
    anything else, a task among them, is refused with [TypeError]. *)
Definition create_task (x : awaitable) : M unit :=
  match x with
  | Coroutine c => modify (λ st, set_tasks (tasks st ++ [c]) st)
  | Pending _ => raise (mk_exc TypeError "a coroutine was expected")
  end.

(** A call on [self.stepper]: the command is sent, and the motor's reply
    decides whether the call returns or raises. *)
Definition stepper_call (c : motor_call) : M unit :=
  s ← gets stepper;
  match s with
  | None =>
      raise (mk_exc AttributeError "'NoneType' object has no attribute")
  | Some m =>
      sent ← gets motor_calls;
      modify (set_motor_calls (sent ++ [c]));;
      match motor_reply m sent c with
      | None => mret ()
      | Some e => raise e
      end
  end.

(** [not self.connected or not self.stepper] *)
Definition not_ready (st : State) : bool :=
  negb (connected st) || negb (bool_decide (is_Some (stepper st))).

(** ** The application: [PetFeederApp] *)

Definition DEFAULT_SCHEDULE : list string := ["06:00"; "12:00"; "16:02"].

(** A schedule of the program as a Python list of [str]. *)
Definition py_schedule (l : list string) : list pyval :=
  (λ s, PyStr (codepoints s)) <$> l.

(** [os.path.exists(SCHEDULE_FILE)] *)
Definition path_exists (f : file) : bool :=
  match f with NoFile => false | _ => true end.

(** [open(SCHEDULE_FILE, "r")] and the [f.read()] of [json.load] *)
Definition read_text (f : file) : M string :=
  match f with
  | Text content => mret content
  | Unreadable msg => raise (mk_exc OSError msg)
  | Undecodable msg => raise (mk_exc ValueError msg)
  | NoFile => raise (mk_exc OSError "No such file or directory")
  end.

(** [load_schedule].  The [try] block yields [Some data] when it returns
    [data], and [None] when control leaves it without returning. *)
Definition load_schedule : M (list pyval) :=
  f ← gets schedule_file;
  returned ←
    (if path_exists f then
       try_except
         (text ← read_text f;
          data ← lift (Json.loads text);
          mret (is_list data))
         Exception
         (λ e, print ("[SCHEDULE] Failed to load schedule: " +:+ str e);;
               mret None)
     else mret None);
  match returned with
  | Some data => mret data
  | None => mret (py_schedule DEFAULT_SCHEDULE)
  end.

(** [open(SCHEDULE_FILE, "w")] followed by [json.dump(self.schedule, f)] *)
Definition write_text (w : write_outcome) (text : string) : M unit :=
  match w with
  | OpenFails e => raise e
  | WriteOk => modify (set_schedule_file (Text text))
  | WriteFails n e =>
      modify (set_schedule_file
                (Text (string_of_list_ascii
                         (take n (list_ascii_of_string text)))));;
      raise e
  end.

Definition save_schedule (w : write_outcome) : M unit :=
  try_except
    (sch ← gets schedule;
     write_text w (Json.dumps sch))
    Exception
    (λ e, print ("[SCHEDULE] Failed to save schedule: " +:+ str e)).

(** What the connection attempt of [on_connect] meets: the connection
    fails, the motor or the camera is not found, or all three calls
    return.  The names of the components that the program prints are not
    modelled. *)
Inductive connect_outcome :=
  | AtAddressFails (e : exc)
  | MotorFails (e : exc)
  | CameraFails (m : Motor) (e : exc)
  | Reached (m : Motor).

Definition on_connect (o : connect_outcome) : M unit :=
  modify (set_status_label "Status: Connecting...");;
  modify (set_connect_btn false);;
  try_except
    (match o with
     | AtAddressFails e => raise e
     | MotorFails e => print "Available components:";; raise e
     | CameraFails m e =>
         print "Available components:";;
         modify (set_stepper (Some m));;
         raise e
     | Reached m =>
         print "Available components:";;
         modify (set_stepper (Some m));;
         modify (set_camera true);;
         modify (set_connected true);;
         modify (set_status_label "Status: Connected!");;
         modify (set_feed_btn true);;
         modify (set_refresh_cam_btn true)
     end)
    Exception
    (λ e, modify (set_status_label "Status: Connection failed");;
          show_dialog (Critical "Connection Error" (str e));;
          modify (set_connect_btn true)).

(** [add_time]; [time] and [ok] are what [QInputDialog.getText] returns.
    [self.schedule.sort()] is a stable sort by [<] on [str]: the stable
    [merge_sort] by [String.le], the lexicographic order on code points. *)
Definition add_time (time : string) (ok : bool) (w : write_outcome) : M unit :=
  if ok && negb (bool_decide (time = EmptyString)) then
    try_except
      (_ ← lift (strptime_HM time);
       sch ← gets schedule;
       if negb (bool_decide (time ∈ sch)) then
         modify (λ st, set_schedule (schedule st ++ [time]) st);;
         modify (λ st, set_schedule (merge_sort String.le (schedule st)) st);;
         modify (set_schedule_list []);;
         modify (λ st, set_schedule_list (schedule_list st ++ schedule st) st);;
         save_schedule w
       else mret ())
      ValueError
      (λ _, show_dialog (Warning "Invalid Time"
                           "Please enter time in HH:MM format."))
  else mret ().

(** [remove_time]; [selected] is [schedule_list.currentRow()], which is -1
    when no row is selected.  [list.pop] raises on an index past the end
    (on an empty list its message is another; the class is the same);
    [takeItem] does nothing there. *)
Definition remove_time (selected : Z) (w : write_outcome) : M unit :=
  if (0 <=? selected)%Z then
    let i := Z.to_nat selected in
    sch ← gets schedule;
    (if i <? length sch then modify (set_schedule (delete i sch))
     else raise (mk_exc IndexError "pop index out of range"));;
    modify (λ st, set_schedule_list (delete i (schedule_list st)) st);;
    save_schedule w
  else mret ().

(** [check_schedule]; [now] is [datetime.now()].  The last line,
    [asyncio.create_task(self.scheduled_feed())], first calls the slot
    [scheduled_feed], which starts the feed, and then hands the task it
    got to [create_task]. *)
Definition check_schedule (now : datetime) : M unit :=
  st ← gets id;
  if not_ready st then mret ()
  else
    let current_time := strftime_HM now in
    if bool_decide (current_time ∈ schedule st) then
      if negb (bool_decide (last_feed_time st = Some current_time)) then
        modify (set_last_feed_time (Some current_time));;
        print ("[SCHEDULE] Time to feed! Current time: " +:+ current_time);;
        feed ← call_async_slot ScheduledFeed;
        create_task feed
      else mret ()
    else mret ().

Definition scheduled_feed : M unit :=
  st ← gets id;
  if not_ready st then mret ()
  else
    modify (set_status_label "Status: Scheduled feeding...");;
    try_except
      (print "[SCHEDULE] Scheduled feeding started";;
       stepper_call (GoFor 500 (-3));;
       stepper_call Stop;;
       modify (set_status_label "Status: Scheduled feed complete!");;
       print "[SCHEDULE] Scheduled feeding complete")
      Exception
      (λ e, print ("[SCHEDULE] Scheduled feed error: " +:+ str e);;
            modify (set_status_label "Status: Scheduled feed failed!")).

Definition on_feed : M unit :=
  st ← gets id;
  if not_ready st then
    show_dialog (Warning "Not Connected" "Connect to the robot first.")
  else
    modify (set_feed_btn false);;
    modify (set_status_label "Status: Feeding...");;
    try_finally
      (try_except
         (print "[DEBUG] Feeding started";;
          stepper_call (GoFor 500 (-3));;
          stepper_call Stop;;
          modify (set_status_label "Status: Feed complete!");;
          print "[DEBUG] Feeding complete")
         Exception
         (λ e, print ("[DEBUG] Feed error: " +:+ str e);;
               show_dialog (Critical "Feed Error" (str e));;
               modify (set_status_label "Status: Feed failed!")))
      (print "[DEBUG] Re-enabling feed button";;
       modify (set_feed_btn true)).

(** *** Start-up

    [__init__] stores the result of [load_schedule] and shows it in the list
    widget.  [schedule_of] reads a Python list as a schedule of the model;
    it has no answer for a list with an item that is not a [str] (on which
    [addItems] raises) or with a character above U+00FF. *)

Definition narrow (s : pystr) : option string :=
  string_of_list_ascii <$>
    mapM (λ u, if (u <? 256)%N then Some (ascii_of_N u) else None) s.

Definition schedule_of (l : list pyval) : option (list string) :=
  mapM (λ v, match v with PyStr s => narrow s | _ => None end) l.

Definition boot (f : file) : State :=
  {| connected := false; stepper := None; schedule := [];
     last_feed_time := None; schedule_list := [];
     status_label := EmptyString; connect_btn := true; feed_btn := true;
     refresh_cam_btn := true; camera := false; schedule_file := f;
     motor_calls := []; stdout := []; dialogs := []; tasks := [] |}.

Definition init (f : file) : option State :=
  let '(r, st) := load_schedule (boot f) in
  match r with
  | Raise _ => None
  | Ok data =>
      sch ← schedule_of data;
      Some (set_refresh_cam_btn false
              (set_feed_btn false
                 (set_schedule_list sch
                    (set_status_label "Status: Not connected"
                       (set_schedule sch st)))))
  end.

(** *** The event loop

    The callbacks Qt and asyncio run, one at a time: the 30-second schedule
    timer, the buttons, and the execution of a scheduled-feed task. *)

Inductive event :=
  | TimerTick (now : datetime)
  | ConnectClicked (o : connect_outcome)
  | AddTimeClicked (time : string) (ok : bool) (w : write_outcome)
  | RemoveClicked (selected : Z) (w : write_outcome)
  | FeedClicked
  | TaskRuns.

Definition handle (ev : event) : M unit :=
  match ev with
  | TimerTick now => check_schedule now
  | ConnectClicked o => on_connect o
  | AddTimeClicked time ok w => add_time time ok w
  | RemoveClicked selected w => remove_time selected w
  | FeedClicked => on_feed
  | TaskRuns => scheduled_feed
  end.

(** The state after a sequence of events, each callback run from its start
    to its end before the next one begins.  What PyQt does with an
    exception that leaves a callback depends on its version and on the
    exception hook; here the loop goes on with the state the callback
    left.  If the process ends instead, a prefix of the events takes
    place. *)
Definition run (evs : list event) (st : State) : State :=
  foldl (λ st ev, (handle ev st).2) st evs.

(** *** The schedule evaluator as the specification words it

    [tick] observes one [check_schedule]: whether it started a feed, and the
    marker it leaves. *)
Definition tick (now : datetime) (st : State) : bool * option string :=
  let st' := (check_schedule now st).2 in
  (bool_decide (tasks st' = tasks st ++ [ScheduledFeed]), last_feed_time st').

(** The invariant of the schedule: sorted by code point, no duplicates. *)
Definition schedule_inv (l : list string) : Prop :=
  Sorted String.le l ∧ NoDup l.

#[global] Instance schedule_inv_dec l : Decision (schedule_inv l).
Proof. unfold schedule_inv. apply _. Defined.

(** How often the motor was told to stop. *)
Definition stops (calls : list motor_call) : nat :=
  length (filter (λ c, c = Stop) calls).

(** ** Vocabulary of the properties *)

(** The error of [asyncio.create_task] in [check_schedule]. *)
Definition task_refused : exc := mk_exc TypeError "a coroutine was expected".

(** The state [check_schedule] leaves when it starts a feed at [t]. *)
Definition fired (t : string) (st : State) : State :=
  set_tasks (tasks st ++ [ScheduledFeed])
    (set_stdout
       (stdout st ++ ["[SCHEDULE] Time to feed! Current time: " +:+ t])
       (set_last_feed_time (Some t) st)).

(** A state that is connected to the motor [m], with the schedule [sch]
    shown in the list widget. *)
Definition ready_state (m : Motor) (sch : list string)
    (marker : option string) : State :=
  set_last_feed_time marker
    (set_schedule_list sch
       (set_schedule sch
          (set_stepper (Some m) (set_connected true (boot NoFile))))).

Definition motor_ok : Motor := mk_Motor (λ _ _, None).

(** A motor whose run command fails and whose stop command works. *)
Definition motor_stalls : Motor :=
  mk_Motor (λ _ c,
    match c with
    | GoFor _ _ => Some (mk_exc RuntimeError "motor stalled")
    | Stop => None
    end).

(** The run command both feed actions send. *)
Definition run_cmd : motor_call := GoFor 500 (-3).

(** The value [load_schedule] falls back to. *)
Definition default_data : list pyval := py_schedule DEFAULT_SCHEDULE.


(** [keeps obs m]: running [m] does not change the observation [obs] of
    the state, whether [m] returns or raises. *)
Definition keeps {X A} (obs : State → X) (m : M A) : Prop :=
  ∀ st, obs (m st).2 = obs st.

(** The marker and the task queue. *)
Definition marker_tasks (st : State) : option string * list task :=
  (last_feed_time st, tasks st).

(** An error of the decoder is a decoding error, unless the fuel ran out. *)
Definition decoding {A} (r : res A) : Prop :=
  match r with
  | Ok _ => True
  | Raise e => exc_cls e = JSONDecodeError
  end.

(** The ten digits, and a text of five characters. *)
Definition digits : list ascii :=
  ["0"; "1"; "2"; "3"; "4"; "5"; "6"; "7"; "8"; "9"]%char.

Definition five (h1 h2 c m1 m2 : ascii) : string :=
  String h1 (String h2 (String c (String m1 (String m2 EmptyString)))).

(** A text of two digits, a colon and two digits that is in the strict
    format is accepted by [strptime]. *)
Definition strict_parses (h1 h2 m1 m2 : ascii) : bool :=
  implb (strict_hhmm (five h1 h2 ":" m1 m2))
        (is_ok (strptime_HM (five h1 h2 ":" m1 m2))).

(** The time [h]:[m] as the clock writes it is in the strict format, and
    [strptime] reads the hour and the minute back from it. *)
Definition clock_text_ok (h m : nat) : bool :=
  strict_hhmm (hhmm h m) && bool_decide (strptime_HM (hhmm h m) = Ok (h, m)).

(** The text of a JSON list of three strings. *)
Definition json_list3 (a b c : string) : string :=
  string_of_list_ascii
    (["["%char; dquote] ++ list_ascii_of_string a ++
     [dquote; ","%char; " "%char; dquote] ++ list_ascii_of_string b ++
     [dquote; ","%char; " "%char; dquote] ++ list_ascii_of_string c ++
     [dquote; "]"%char]).

(** ** Vocabulary of the further properties *)

(** The list widget shows the schedule, row for row. *)
Definition mirrors (st : State) : Prop := schedule_list st = schedule st.

(** The schedule and the rows of the list widget. *)
Definition sched_view (st : State) : list string * list string :=
  (schedule st, schedule_list st).

(** A write whose error, if it has one, is an [Exception]: the handler of
    [save_schedule] catches it. *)
Definition caught (w : write_outcome) : Prop :=
  match w with
  | WriteOk => True
  | OpenFails e | WriteFails _ e => isinstance e Exception = true
  end.

(** The state [add_time] hands to [save_schedule] when it takes [time]. *)
Definition added (time : string) (st : State) : State :=
  set_schedule_list (merge_sort String.le (schedule st ++ [time]))
    (set_schedule (merge_sort String.le (schedule st ++ [time])) st).

(** The state [remove_time] hands to [save_schedule] when it drops row [i]. *)
Definition removed (i : nat) (st : State) : State :=
  set_schedule_list (delete i (schedule_list st))
    (set_schedule (delete i (schedule st)) st).

(** The warning of [add_time]. *)
Definition invalid_time : dialog :=
  Warning "Invalid Time" "Please enter time in HH:MM format.".

(** The application as it starts in a directory without a schedule file. *)
Definition first_start : State := default (boot NoFile) (init NoFile).

(** The error a connection attempt ends with, if it fails. *)
Definition outcome_error (o : connect_outcome) : option exc :=
  match o with
  | AtAddressFails e | MotorFails e | CameraFails _ e => Some e
  | Reached _ => None
  end.

(** A motor whose calls fail with an [Exception], when they fail. *)
Definition tame_motor (m : Motor) : Prop :=
  ∀ sent c e, motor_reply m sent c = Some e → isinstance e Exception = true.

(** An event whose errors are of class [Exception] (not a cancellation or
    a keyboard interrupt), and whose selected row is a row of the list
    widget, as [currentRow] returns it. *)
Definition tame (ev : event) (st : State) : Prop :=
  match ev with
  | TimerTick _ => True
  | ConnectClicked o =>
      ∀ e, outcome_error o = Some e → isinstance e Exception = true
  | AddTimeClicked _ _ w => caught w
  | RemoveClicked selected w =>
      caught w ∧ (selected < Z.of_nat (length (schedule_list st)))%Z
  | FeedClicked | TaskRuns => ∀ m, stepper st = Some m → tame_motor m
  end.

(** The file holds the text [json.dump] writes for the schedule. *)
Definition synced (st : State) : Prop :=
  schedule_file st = Text (Json.dumps (schedule st)).

(** The schedule and the file. *)
Definition disk_view (st : State) : list string * file :=
  (schedule st, schedule_file st).

(** Every write of the event succeeds. *)
Definition writes_ok (ev : event) : Prop :=
  match ev with
  | AddTimeClicked _ _ w | RemoveClicked _ w => w = WriteOk
  | _ => True
  end.

(** The line [save_schedule] prints when the write fails with [e]. *)
Definition save_failed (e : exc) : string :=
  "[SCHEDULE] Failed to save schedule: " +:+ str e.

(** The event is a connection attempt in which all three calls return. *)
Definition connects (ev : event) : bool :=
  match ev with
  | ConnectClicked (Reached _) => true
  | _ => false
  end.

(** What shows that a feed was started or carried out. *)
Definition feed_view (st : State)
    : bool * list motor_call * list task * option string :=
  (connected st, motor_calls st, tasks st, last_feed_time st).

(** Whether the feeder is ready, and the marker of the last feed. *)
Definition ready_view (st : State) : bool * option string :=
  (not_ready st, last_feed_time st).

(** The line [load_schedule] prints when reading or decoding fails with
    [e]. *)
Definition load_failed (e : exc) : string :=
  "[SCHEDULE] Failed to load schedule: " +:+ str e.

(** What [load_schedule] has no business with: everything but the lines
    printed. *)
Definition but_stdout (st : State) : State := set_stdout [] st.

(** A decoded value without numbers and without a container inside a
    container: a constant, a string, or a list of those.  Decoding its
    text meets no limit of the interpreter (none on the length of a number,
    none on the depth of the recursion). *)
Definition atom (v : pyval) : bool :=
  match v with
  | PyNone | PyBool _ | PyStr _ => true
  | _ => false
  end.

Definition plain (v : pyval) : bool :=
  match v with
  | PyList l => forallb atom l
  | _ => atom v
  end.

(** The application before the first event: not connected, nothing fed,
    the feed and camera buttons disabled, the schedule [sch] loaded from
    the file [f] and shown, and [out] printed so far. *)
Definition started (f : file) (sch : list string) (out : list string)
    : State :=
  {| connected := false; stepper := None; schedule := sch;
     last_feed_time := None; schedule_list := sch;
     status_label := "Status: Not connected"; connect_btn := true;
     feed_btn := false; refresh_cam_btn := false; camera := false;
     schedule_file := f; motor_calls := []; stdout := out;
     dialogs := []; tasks := [] |}.

(** ** The camera

    [_refresh_camera] asks the camera for a JPEG image and shows it in
    [camera_label].  The window of the camera functions is the state of
    the application together with the picture shown and the refresh
    coroutines handed to the event loop.  The label shows the pixmap Qt
    decodes from the bytes it was given last, scaled to the label. *)

(** What [camera.get_image] returns: an object with a [data] attribute, or
    the bytes themselves. *)
Inductive image :=
  | ViamImage (data : string)
  | RawBytes (data : string).

Record Window := mk_Window {
  core : State                   (* the attributes of [PetFeederApp] above *);
  camera_label : option string   (* bytes of the picture shown, if any *);
  refreshes : nat                (* [_refresh_camera(auto=True)] coroutines
                                    handed to [asyncio.create_task] *)
}.

Definition MW (A : Type) : Type := Window → res A * Window.

#[global] Instance MW_ret : MRet MW := λ A a w, (Ok a, w).

#[global] Instance MW_bind : MBind MW := λ A B k m w,
  match m w with
  | (Ok a, w') => k a w'
  | (Raise e, w') => (Raise e, w')
  end.

(** A step on the attributes of the application. *)
Definition in_app {A} (m : M A) : MW A := λ w,
  let '(r, st) := m (core w) in
  (r, mk_Window st (camera_label w) (refreshes w)).

Definition MW_try_except {A} (body : MW A) (cls : exc_class)
    (handler : exc → MW A) : MW A := λ w,
  match body w with
  | (Raise e, w') =>
      if isinstance e cls then handler e w' else (Raise e, w')
  | returned => returned
  end.

Definition MW_try_finally {A} (body : MW A) (cleanup : MW unit) : MW A :=
  λ w,
  let '(r, w') := body w in
  match cleanup w' with
  | (Ok _, w'') => (r, w'')
  | (Raise e, w'') => (Raise e, w'')
  end.

(** [await self.camera.get_image(mime_type="image/jpeg")]: the camera
    answers with an image or the call raises. *)
Definition get_image (reply : res image) : MW image := λ w, (reply, w).

(** [QImage.fromData], [QPixmap.fromImage], [scaled] and [setPixmap]: none
    of them raises on bytes, a picture that cannot be decoded gives an
    empty pixmap. *)
Definition set_pixmap (img_bytes : string) : MW unit := λ w,
  (Ok (), mk_Window (core w) (Some img_bytes) (refreshes w)).

Definition _refresh_camera (auto : bool) (reply : res image) : MW unit :=
  in_app (modify (set_refresh_cam_btn false));;
  st ← in_app (gets id);
  if negb (connected st) || negb (camera st) then
    (if negb auto then
       in_app (show_dialog
                 (Warning "Not Connected" "Connect to the robot first."))
     else mret ());;
    in_app (modify (set_refresh_cam_btn true))
  else
    (if negb auto then
       in_app (modify (set_status_label "Status: Fetching camera..."))
     else mret ());;
    MW_try_finally
      (MW_try_except
         (viam_img ← get_image reply;
          let img_bytes :=
            match viam_img with
            | ViamImage data => data
            | RawBytes data => data
            end in
          set_pixmap img_bytes;;
          if negb auto then
            in_app (modify (set_status_label "Status: Camera updated!"))
          else mret ())
         Exception
         (λ e, if negb auto then
                 in_app (show_dialog (Critical "Camera Error" (str e)));;
                 in_app (modify (set_status_label "Status: Camera failed!"))
               else mret ()))
      (in_app (modify (set_refresh_cam_btn true))).

Definition on_refresh_camera (reply : res image) : MW unit :=
  _refresh_camera false reply.

(** [asyncio.create_task(self._refresh_camera(auto=True))]: [_refresh_camera]
    is a plain coroutine function, so its call is a coroutine and the task
    is created. *)
Definition create_refresh_task : MW unit := λ w,
  (Ok (), mk_Window (core w) (camera_label w) (S (refreshes w))).

(** The slot of the one-second camera timer. *)
Definition refresh_camera_auto : MW unit :=
  st ← in_app (gets id);
  if connected st && camera st then create_refresh_task else mret ().

(** The bytes of an image. *)
Definition image_data (i : image) : string :=
  match i with ViamImage data => data | RawBytes data => data end.

(** Whether the camera functions find a connected camera. *)
Definition camera_ready (w : Window) : bool :=
  connected (core w) && camera (core w).

(** ** The texts [add_time] takes

    Not functions of the program: the texts of characters up to U+00FF
    that [strptime] accepts for [%H:%M], spelled out.  An hour is one digit, or two digits that make a
    number below 24; a minute is one digit, or two digits that make a
    number below 60; between them stands a colon. *)

Definition hour_text (h : list ascii) : bool :=
  match h with
  | [d] => is_digit d
  | [d1; d2] =>
      is_digit d1 && is_digit d2 && (10 * digit_val d1 + digit_val d2 <? 24)
  | _ => false
  end.

Definition minute_text (m : list ascii) : bool :=
  match m with
  | [d] => is_digit d
  | [d1; d2] =>
      is_digit d1 && is_digit d2 && (10 * digit_val d1 + digit_val d2 <? 60)
  | _ => false
  end.

Definition accepted_text (s : string) : bool :=
  match list_ascii_of_string s with
  | [h; c; m] =>
      hour_text [h] && bool_decide (c = ":"%char) && minute_text [m]
  | [c1; c2; c3; c4] =>
      hour_text [c1] && bool_decide (c2 = ":"%char) && minute_text [c3; c4]
      || hour_text [c1; c2] && bool_decide (c3 = ":"%char) && minute_text [c4]
  | [h1; h2; c; m1; m2] =>
      hour_text [h1; h2] && bool_decide (c = ":"%char) &&
      minute_text [m1; m2]
  | _ => false
  end.

(** What the regular expression of [%H:%M] asks of the character [c], and
    the answers. *)
Definition kind_is (c : ascii) (d t2 t01 t03 t05 col : bool) : Prop :=
  is_digit c = d ∧ bool_decide (c = "2"%char) = t2 ∧
  char_in "0" "1" c = t01 ∧ char_in "0" "3" c = t03 ∧
  char_in "0" "5" c = t05 ∧ bool_decide (c = ":"%char) = col.

(** Two digits make a number below 24, or below 60, when the regular
    expression says so. *)
Definition two_digits_ok (a b : ascii) : bool :=
  bool_decide
    ((10 * digit_val a + digit_val b <? 24)
       = bool_decide (a = "2"%char) && char_in "0" "3" b
         || char_in "0" "1" a) &&
  bool_decide
    ((10 * digit_val a + digit_val b <? 60) = char_in "0" "5" a).

(** ** A write that breaks off *)

(** All characters of the 8-bit alphabet. *)
Definition all_chars : list ascii := ascii_of_nat <$> seq 0 256.

(** No proper prefix of the escape of [c] is read as a complete string
    body. *)
Definition escape_torn (c : ascii) : bool :=
  forallb
    (λ n, negb (is_ok (Json.scanstring (take n (Json.escape_char c)))))
    (seq 0 (length (Json.escape_char c))).

(** ** Feeds that overlap

    [on_feed] and [scheduled_feed] are coroutines: each runs until it
    awaits the motor and goes on when the motor has answered, and between
    the two the event loop runs other callbacks and other feeds.  Here a
    feed is a sequence of steps: [begin_feed] runs it from its call to its
    first [await], [resume_feed] from one [await] to the next or to its
    end.  The command of an [await] is sent when the coroutine reaches it;
    the answer of the motor is what the coroutine is resumed with.  A
    dialog shown by the [except] clause keeps that clause waiting while
    the event loop runs on; the clauses send nothing to the motor, and
    each is run here in one piece. *)

Inductive feed_kind :=
  | Manual      (* [on_feed] *)
  | Scheduled   (* [scheduled_feed] *).

Inductive await_point :=
  | AwaitRun    (* [await self.stepper.go_for(rpm=500, revolutions=-3)] *)
  | AwaitStop   (* [await self.stepper.stop()] *).

#[global] Instance await_point_eq_dec : EqDecision await_point.
Proof. solve_decision. Defined.

(** The call on [self.stepper] that an [await] starts. *)
Definition send (c : motor_call) : M unit :=
  s ← gets stepper;
  match s with
  | None =>
      raise (mk_exc AttributeError "'NoneType' object has no attribute")
  | Some _ => modify (λ st, set_motor_calls (motor_calls st ++ [c]) st)
  end.

(** The [except Exception as e] clause of a feed. *)
Definition except_clause (k : feed_kind) (e : exc) : M unit :=
  match k with
  | Manual =>
      print ("[DEBUG] Feed error: " +:+ str e);;
      show_dialog (Critical "Feed Error" (str e));;
      modify (set_status_label "Status: Feed failed!")
  | Scheduled =>
      print ("[SCHEDULE] Scheduled feed error: " +:+ str e);;
      modify (set_status_label "Status: Scheduled feed failed!")
  end.

(** The [finally] clause of a feed; [scheduled_feed] has none. *)
Definition finally_clause (k : feed_kind) : M unit :=
  match k with
  | Manual =>
      print "[DEBUG] Re-enabling feed button";;
      modify (set_feed_btn true)
  | Scheduled => mret ()
  end.

(** A piece of the [try] block.  When the piece ends at an [await] the
    coroutine is suspended inside the block; when it ends the block or
    raises, the clauses of the [try] statement run. *)
Definition in_try (k : feed_kind) (piece : M (option await_point))
    : M (option await_point) := λ st,
  match piece st with
  | (Ok (Some p), st') => (Ok (Some p), st')
  | (Ok None, st') => (finally_clause k;; mret None) st'
  | (Raise e, st') =>
      if isinstance e Exception
      then (except_clause k e;; finally_clause k;; mret None) st'
      else (finally_clause k;; raise e) st'
  end.

(** From the call of the coroutine to its first [await]. *)
Definition begin_feed (k : feed_kind) : M (option await_point) :=
  st ← gets id;
  if not_ready st then
    match k with
    | Manual =>
        show_dialog (Warning "Not Connected" "Connect to the robot first.");;
        mret None
    | Scheduled => mret None
    end
  else
    match k with
    | Manual =>
        modify (set_feed_btn false);;
        modify (set_status_label "Status: Feeding...");;
        in_try Manual
          (print "[DEBUG] Feeding started";;
           send (GoFor 500 (-3));;
           mret (Some AwaitRun))
    | Scheduled =>
        modify (set_status_label "Status: Scheduled feeding...");;
        in_try Scheduled
          (print "[SCHEDULE] Scheduled feeding started";;
           send (GoFor 500 (-3));;
           mret (Some AwaitRun))
    end.

(** From the [await] at [p], which the motor answered with [reply] (an
    error, or none), to the next [await] or to the end. *)
Definition resume_feed (k : feed_kind) (p : await_point)
    (reply : option exc) : M (option await_point) :=
  in_try k
    match reply with
    | Some e => raise e
    | None =>
        match p with
        | AwaitRun => send Stop;; mret (Some AwaitStop)
        | AwaitStop =>
            match k with
            | Manual =>
                modify (set_status_label "Status: Feed complete!");;
                print "[DEBUG] Feeding complete";;
                mret None
            | Scheduled =>
                modify (set_status_label "Status: Scheduled feed complete!");;
                print "[SCHEDULE] Scheduled feeding complete";;
                mret None
            end
        end
    end.

(** A feed that nothing interrupts, with the motor [m] answering. *)
Definition straight_feed (k : feed_kind) (m : Motor) : M unit := λ st,
  match begin_feed k st with
  | (Ok (Some p), st1) =>
      match resume_feed k p (motor_reply m (motor_calls st) run_cmd) st1 with
      | (Ok (Some p'), st2) =>
          match resume_feed k p' (motor_reply m (motor_calls st1) Stop) st2
          with
          | (Ok _, st3) => (Ok (), st3)
          | (Raise e, st3) => (Raise e, st3)
          end
      | (Ok None, st2) => (Ok (), st2)
      | (Raise e, st2) => (Raise e, st2)
      end
  | (Ok None, st1) => (Ok (), st1)
  | (Raise e, st1) => (Raise e, st1)
  end.

(** The application with the feeds that are suspended at an [await]. *)
Record Running := mk_Running {
  app_state : State;
  awaiting : list (feed_kind * await_point)
}.

(** What the event loop does next: it runs a callback, or it resumes the
    suspended feed at position [i] with the answer of the motor.  A click
    on Feed Now and a scheduled-feed task begin a feed; the other
    callbacks run as [handle] says ([on_connect] changes the attributes it
    changes after its only [await]). *)
Inductive turn :=
  | Callback (ev : event)
  | Answer (i : nat) (reply : option exc).

Definition still_awaiting (k : feed_kind) (r : res (option await_point))
    : list (feed_kind * await_point) :=
  match r with
  | Ok (Some p) => [(k, p)]
  | _ => []
  end.

Definition take_turn (t : turn) (l : Running) : Running :=
  match t with
  | Callback FeedClicked =>
      let '(r, st) := begin_feed Manual (app_state l) in
      mk_Running st (awaiting l ++ still_awaiting Manual r)
  | Callback TaskRuns =>
      let '(r, st) := begin_feed Scheduled (app_state l) in
      mk_Running st (awaiting l ++ still_awaiting Scheduled r)
  | Callback ev => mk_Running (handle ev (app_state l)).2 (awaiting l)
  | Answer i reply =>
      match awaiting l !! i with
      | None => l
      | Some (k, p) =>
          let '(r, st) := resume_feed k p reply (app_state l) in
          mk_Running st (delete i (awaiting l) ++ still_awaiting k r)
      end
  end.

Definition turns (ts : list turn) (l : Running) : Running :=
  foldl (λ l t, take_turn t l) l ts.

(** How often the motor was told to run, and how many suspended feeds
    wait for the answer to a run command. *)
Definition runs (calls : list motor_call) : nat :=
  length (filter (λ c, c = run_cmd) calls).

Definition awaiting_run (l : list (feed_kind * await_point)) : nat :=
  length (filter (λ kp, kp.2 = AwaitRun) l).

(** * Properties *)

(** ** Proof tools *)

Ltac unfold_m :=
  unfold mbind, M_bind, mret, M_ret, gets, modify, raise, lift, try_except,
    try_finally, print, show_dialog, call_async_slot, create_task in *.

Lemma list_neq_snoc {A} (l : list A) (x : A) : l ≠ l ++ [x].
Proof.
  intros H. apply (f_equal length) in H. rewrite length_app in H.
  simpl in H. lia.
Qed.

(** ** Frame: what a handler leaves alone *)

Section keeps.
Context {X A B : Type} (obs : State → X).

Lemma keeps_ret (a : A) : keeps obs (mret a).
Proof. done. Qed.

Lemma keeps_raise (e : exc) : keeps obs (raise (A:=A) e).
Proof. done. Qed.

Lemma keeps_lift (r : res A) : keeps obs (lift r).
Proof. done. Qed.

Lemma keeps_gets (f : State → A) : keeps obs (gets f).
Proof. done. Qed.

Lemma keeps_bind (m : M A) (k : A → M B) :
  keeps obs m → (∀ a, keeps obs (k a)) → keeps obs (m ≫= k).
Proof.
  intros Hm Hk st. unfold mbind, M_bind. specialize (Hm st).
  destruct (m st) as [[a|e] st']; cbn in *; [|done].
  by rewrite Hk.
Qed.

Lemma keeps_try_except (m : M A) cls (h : exc → M A) :
  keeps obs m → (∀ e, keeps obs (h e)) → keeps obs (try_except m cls h).
Proof.
  intros Hm Hh st. unfold try_except. specialize (Hm st).
  destruct (m st) as [[a|e] st']; cbn in *; [done|].
  destruct (isinstance e cls); [|done]. by rewrite Hh.
Qed.

Lemma keeps_try_finally (m : M A) (c : M unit) :
  keeps obs m → keeps obs c → keeps obs (try_finally m c).
Proof.
  intros Hm Hc st. unfold try_finally. specialize (Hm st).
  destruct (m st) as [r st']. specialize (Hc st').
  destruct (c st') as [[[]|e] st'']; cbn in *; congruence.
Qed.

Lemma keeps_modify (f : State → State) :
  (∀ st, obs (f st) = obs st) → keeps obs (modify f).
Proof. done. Qed.

Lemma keeps_if (b : bool) (m1 m2 : M A) :
  keeps obs m1 → keeps obs m2 → keeps obs (if b then m1 else m2).
Proof. by destruct b. Qed.

End keeps.

Create HintDb keeps discriminated.

Ltac keeps_step :=
  first
    [ solve [auto 1 with keeps nocore]
    | apply keeps_bind; [|intros ?]
    | apply keeps_try_except; [|intros ?]
    | apply keeps_try_finally
    | apply keeps_if
    | apply keeps_ret
    | apply keeps_raise
    | apply keeps_lift
    | apply keeps_gets
    | apply keeps_modify; intros ?; reflexivity
    | progress unfold print, show_dialog ].

Ltac keeps_auto := repeat keeps_step.

Lemma keeps_stepper_call c : keeps marker_tasks (stepper_call c).
Proof.
  unfold stepper_call. keeps_auto.
  destruct a; keeps_auto. by destruct (motor_reply _ _ _); keeps_auto.
Qed.

Lemma keeps_save_schedule w : keeps marker_tasks (save_schedule w).
Proof.
  unfold save_schedule, write_text. keeps_auto. destruct w; keeps_auto.
Qed.

#[local] Hint Resolve keeps_stepper_call keeps_save_schedule : keeps.








(** ** The JSON codec: decoding what [json.dump] wrote *)

Section json_roundtrip.
Import Json.

Lemma cons_char_ok {A} u (cs : pystr) (rest : A) :
  cons_char u (Ok (cs, rest)) = Ok (u :: cs, rest).
Proof. done. Qed.

(** A [\u00XX] escape of a character below U+0100 is never the first half
    of a surrogate pair: it stands for one character. *)
Lemma scanstring_u00 (h l : ascii) (u : N) (rest : list ascii) :
  hex4 "0" "0" h l = Some u →
  is_high_surrogate u = false →
  scanstring ("\"%char :: "u"%char :: "0"%char :: "0"%char :: h :: l :: rest)
    = cons_char u (scanstring rest).
Proof.
  intros Hhex Hhigh.
  change (scanstring (_ :: _ :: _ :: _ :: h :: l :: rest)) with
    (match hex4 "0" "0" h l with
     | None => Raise (decode_error "Invalid \uXXXX escape")
     | Some u =>
         match rest with
         | b :: v :: g1 :: g2 :: g3 :: g4 :: r3 =>
             if is_high_surrogate u && bool_decide (b = "\"%char)
                && bool_decide (v = "u"%char)
             then
               match hex4 g1 g2 g3 g4 with
               | None => Raise (decode_error "Invalid \uXXXX escape")
               | Some u2 =>
                   if is_low_surrogate u2
                   then cons_char (join_surrogates u u2) (scanstring r3)
                   else cons_char u (scanstring rest)
               end
             else cons_char u (scanstring rest)
         | _ => cons_char u (scanstring rest)
         end
     end).
  rewrite Hhex, Hhigh.
  by destruct rest as [|? [|? [|? [|? [|? [|? ?]]]]]].
Qed.

(** Reading back one escaped character. *)
Lemma scanstring_escape_char (c : ascii) (rest : list ascii) :
  scanstring (escape_char c ++ rest)
    = cons_char (N_of_ascii c) (scanstring rest).
Proof.
  destruct c as [[] [] [] [] [] [] [] []];
    first [ reflexivity | by apply scanstring_u00 ].
Qed.

Lemma scanstring_encoded (s tail : list ascii) :
  scanstring ((s ≫= escape_char) ++ dquote :: tail)
    = Ok (N_of_ascii <$> s, tail).
Proof.
  induction s as [|c s IH]; [done|].
  rewrite bind_cons, <- app_assoc, scanstring_escape_char, IH.
  done.
Qed.

Lemma scan_once_encoded_str (fuel : nat) (s : string) (tail : list ascii) :
  scan_once (S fuel) (encode_str s ++ tail) = Ok (PyStr (codepoints s), tail).
Proof.
  unfold encode_str. rewrite <- app_comm_cons, <- app_assoc.
  cbn [scan_once app]. rewrite bool_decide_eq_true_2 by done.
  by rewrite scanstring_encoded.
Qed.

(** The first character of a list of items is the quote that opens the
    first string. *)
Lemma encode_items_head (s : string) (l : list string) :
  ∃ r, encode_items (s :: l) = dquote :: r.
Proof. destruct l; by eexists. Qed.

Lemma skip_ws_stop (c : ascii) (r : list ascii) :
  is_ws c = false → skip_ws (c :: r) = c :: r.
Proof. intros H. cbn. by rewrite H. Qed.

Lemma skip_ws_skip (c : ascii) (r : list ascii) :
  is_ws c = true → skip_ws (c :: r) = skip_ws r.
Proof. intros H. cbn. by rewrite H. Qed.

Lemma parse_array_step (fuel : nat) (s : list ascii) :
  parse_array (S fuel) s =
    match scan_once fuel s with
    | Raise e => Raise e
    | Ok (v, r) =>
        match skip_ws r with
        | c :: r' =>
            if bool_decide (c = "]"%char) then Ok ([v], r')
            else if bool_decide (c = ","%char) then
              match parse_array fuel (skip_ws r') with
              | Ok (vs, rest) => Ok (v :: vs, rest)
              | Raise e => Raise e
              end
            else Raise (decode_error "Expecting ',' delimiter")
        | [] => Raise (decode_error "Expecting ',' delimiter")
        end
    end.
Proof. done. Qed.

Lemma parse_array_encoded (fuel : nat) (l : list string) (tail : list ascii) :
  l ≠ [] →
  length l < fuel →
  parse_array fuel (encode_items l ++ "]"%char :: tail)
    = Ok (py_schedule l, tail).
Proof.
  revert fuel. induction l as [|s l IH]; intros fuel Hne Hfuel; [done|].
  destruct fuel as [|[|fuel]]; [cbn in Hfuel; lia..|].
  rewrite parse_array_step.
  destruct l as [|s' l].
  - cbn [encode_items]. rewrite scan_once_encoded_str.
    by rewrite skip_ws_stop.
  - change (encode_items (s :: s' :: l)) with
      (encode_str s ++ ","%char :: " "%char :: encode_items (s' :: l)).
    rewrite <- app_assoc, scan_once_encoded_str, <- !app_comm_cons.
    rewrite skip_ws_stop by done.
    rewrite bool_decide_eq_false_2, bool_decide_eq_true_2 by done.
    rewrite skip_ws_skip by done.
    destruct (encode_items_head s' l) as [r Hr].
    rewrite Hr, <- app_comm_cons, skip_ws_stop, app_comm_cons, <- Hr by done.
    rewrite IH; [done|done|]. cbn in *. lia.
Qed.

Lemma encode_items_length (l : list string) :
  length l ≤ length (encode_items l).
Proof.
  induction l as [|s [|s' l] IH]; [done| |].
  - cbn. rewrite length_app. cbn. lia.
  - change (encode_items (s :: s' :: l)) with
      (encode_str s ++ [","; " "]%char ++ encode_items (s' :: l)).
    rewrite !length_app. cbn in *. lia.
Qed.

Lemma loads_dumps (l : list string) :
  loads (dumps l) = Ok (PyList (py_schedule l)).
Proof.
  unfold loads, dumps. rewrite list_ascii_of_string_of_list_ascii.
  destruct l as [|s l]; [done|].
  destruct (encode_items_head s l) as [r Hr].
  rewrite skip_ws_stop by done.
  remember (2 * _) as fuel eqn:Hfuel.
  cbn [scan_once]. rewrite !bool_decide_eq_false_2 by done.
  rewrite bool_decide_eq_true_2 by done.
  assert (length (s :: l) < fuel) as Hlen.
  { pose proof (encode_items_length (s :: l)). subst fuel.
    cbn [length] in *. rewrite length_app. cbn [length]. lia. }
  rewrite Hr, <- app_comm_cons, skip_ws_stop by done.
  change (after_char _ _) with (@None (list ascii)). cbv iota.
  by rewrite app_comm_cons, <- Hr, parse_array_encoded.
Qed.

End json_roundtrip.

(** ** The decoder has fuel enough

    Every part of the decoder consumes text, so the fuel [loads] provides
    is never used up: the only errors of [loads] are decoding errors. *)

Section json_fuel.
Import Json.

Lemma skip_ws_length (s : list ascii) : length (skip_ws s) ≤ length s.
Proof.
  induction s as [|c s IH]; [done|]. cbn. destruct (is_ws c); cbn; lia.
Qed.

Lemma skip_ws_cons_length (s : list ascii) c r :
  skip_ws s = c :: r → length r < length s.
Proof.
  intros H. pose proof (skip_ws_length s) as Hl. rewrite H in Hl.
  cbn in Hl. lia.
Qed.

Lemma after_char_length c (s r : list ascii) :
  after_char c s = Some r → length r < length s.
Proof.
  destruct s as [|c' s]; [done|]. cbn. case_bool_decide; [|done].
  intros [= <-]. lia.
Qed.

Lemma cons_char_inv {A} u (z : res (pystr * A)) x r :
  cons_char u z = Ok (x, r) → ∃ cs, z = Ok (cs, r) ∧ x = u :: cs.
Proof. destruct z as [[cs r']|e]; [|done]. intros [= <- <-]. eauto. Qed.

Lemma scanstring_shorter_aux (n : nat) (s : list ascii) x r :
  length s ≤ n → scanstring s = Ok (x, r) → length r < length s.
Proof.
  revert s x r. induction n as [|n IH]; intros [|c s] x r Hlen; cbn in Hlen;
    try done; try lia.
  cbn [scanstring].
  repeat first
    [ discriminate
    | intros [= <- <-]; cbn [length]; lia
    | intros (cs & Hcs & _)%cons_char_inv; apply IH in Hcs;
      cbn [length] in *; lia
    | case_match; simplify_eq ].
Qed.

Lemma scanstring_shorter (s : list ascii) x r :
  scanstring s = Ok (x, r) → length r < length s.
Proof. by apply (scanstring_shorter_aux (length s)). Qed.

Lemma span_digits_length (s : list ascii) ds r :
  span_digits s = (ds, r) → length ds + length r = length s.
Proof.
  revert ds r. induction s as [|c s IH]; intros ds r; cbn.
  { by intros [= <- <-]. }
  destruct (is_digit c); [|by intros [= <- <-]].
  destruct (span_digits s) as [ds' r'] eqn:E. intros [= <- <-].
  cbn. by rewrite (IH _ _ eq_refl).
Qed.

Lemma match_frac_length (s : list ascii) ds r :
  match_frac s = (ds, r) → length r ≤ length s.
Proof.
  destruct s as [|p s]; cbn; [by intros [= <- <-]|].
  case_bool_decide; [|by intros [= <- <-]].
  destruct (span_digits s) as [[|d ds'] r'] eqn:E; intros [= <- <-];
    [done|].
  apply span_digits_length in E. cbn in *. lia.
Qed.

Lemma match_exp_length (s : list ascii) ds r :
  match_exp s = (ds, r) → length r ≤ length s.
Proof.
  destruct s as [|e s]; cbn; [by intros [= <- <-]|].
  destruct (_ || _); [|by intros [= <- <-]].
  destruct s as [|g s1]; cbn; [by intros [= <- <-]|].
  destruct (_ || _).
  - destruct (span_digits s1) as [[|d ds'] r'] eqn:E; intros [= <- <-];
      [done|].
    apply span_digits_length in E. cbn in *. lia.
  - destruct (span_digits (g :: s1)) as [[|d ds'] r'] eqn:E;
      intros [= <- <-]; [done|].
    apply span_digits_length in E. cbn in *. lia.
Qed.

Lemma match_int_length (s : list ascii) ds r :
  match_int s = Some (ds, r) → length r < length s.
Proof.
  destruct s as [|c s]; [done|]. cbn [match_int].
  case_bool_decide; [intros [= <- <-]; cbn; lia|].
  destruct (is_digit c) eqn:Hc; [|done].
  cbn [span_digits]. rewrite Hc.
  destruct (span_digits s) as [ds' r'] eqn:E. intros [= <- <-].
  apply span_digits_length in E. cbn. lia.
Qed.

Lemma match_number_length (s : list ascii) v r :
  match_number s = Some (v, r) → length r < length s.
Proof.
  unfold match_number.
  destruct (match s with
            | [] => (false, [])
            | c :: r0 =>
                if bool_decide (c = "-"%char) then (true, r0) else (false, s)
            end) as [neg s1] eqn:Hneg.
  assert (length s1 ≤ length s) as Hs1.
  { destruct s as [|c s]; [by simplify_eq|].
    case_bool_decide; simplify_eq; cbn; lia. }
  destruct (match_int s1) as [[int s2]|] eqn:Hint; [|done]. cbn.
  apply match_int_length in Hint.
  destruct (match_frac s2) as [frac s3] eqn:Hfrac.
  apply match_frac_length in Hfrac.
  destruct (match_exp s3) as [ex s4] eqn:Hexp.
  apply match_exp_length in Hexp.
  destruct frac, ex; intros [= <- <-]; lia.
Qed.

Lemma strip_prefix_length (w s r : list ascii) :
  strip_prefix w s = Some r → length r + length w = length s.
Proof.
  revert s. induction w as [|a w IH]; intros [|b s]; cbn; try done.
  - intros [= <-]. cbn. lia.
  - intros [= <-]. cbn. lia.
  - case_bool_decide; [|done]. intros Hs. apply IH in Hs. lia.
Qed.

Lemma match_constant_length (s : list ascii) v r :
  match_constant constants s = Some (v, r) → length r < length s.
Proof.
  unfold constants. cbn [match_constant].
  repeat (destruct (strip_prefix _ s) as [rest|] eqn:E;
          [ apply strip_prefix_length in E; intros [= <- <-]; cbn in E; lia
          | clear E ]).
  done.
Qed.

(** Collects, for the parts of the text named in the hypotheses, how much
    shorter each is than the text it was cut from. *)
Ltac lengths :=
  repeat match goal with
         | H : scanstring _ = Ok (_, _) |- _ =>
             apply scanstring_shorter in H
         | H : skip_ws _ = _ :: _ |- _ => apply skip_ws_cons_length in H
         | H : after_char _ _ = Some _ |- _ => apply after_char_length in H
         | H : match_number _ = Some (_, _) |- _ =>
             apply match_number_length in H
         | H : match_constant constants _ = Some (_, _) |- _ =>
             apply match_constant_length in H
         end;
  repeat match goal with
         | |- context [skip_ws ?s] =>
             lazymatch goal with
             | _ : length (skip_ws s) ≤ length s |- _ => fail
             | _ => pose proof (skip_ws_length s)
             end
         | _ : context [skip_ws ?s] |- _ =>
             lazymatch goal with
             | _ : length (skip_ws s) ≤ length s |- _ => fail
             | _ => pose proof (skip_ws_length s)
             end
         end;
  cbn [length] in *.

Lemma scan_shorter (fuel : nat) :
  (∀ s v r, scan_once fuel s = Ok (v, r) → length r < length s) ∧
  (∀ s vs r, parse_array fuel s = Ok (vs, r) → length r < length s) ∧
  (∀ acc s kv r, parse_object fuel acc s = Ok (kv, r) → length r < length s).
Proof.
  induction fuel as [|fuel (IHscan & IHarr & IHobj)]; [done|].
  split; [|split].
  - intros s v r. cbn [scan_once].
    repeat first
      [ discriminate
      | intros [= <- <-]; lengths; lia
      | intros [= ->]; lengths; lia
      | match goal with
        | |- context [scanstring ?x] =>
            destruct (scanstring x) as [[??]|?] eqn:?
        | |- context [parse_array fuel ?x] =>
            let E := fresh "E" in
            destruct (parse_array fuel x) as [[??]|?] eqn:E;
            [apply IHarr in E|]
        | |- context [parse_object fuel ?a ?x] =>
            let E := fresh "E" in
            destruct (parse_object fuel a x) as [[??]|?] eqn:E;
            [apply IHobj in E|]
        end
      | case_match; simplify_eq ].
  - intros s vs r. cbn [parse_array].
    destruct (scan_once fuel s) as [[v r1]|e] eqn:E1; [|done].
    apply IHscan in E1.
    repeat first
      [ discriminate
      | intros [= <- <-]; lengths; lia
      | intros [= ->]; lengths; lia
      | match goal with
        | |- context [parse_array fuel ?x] =>
            let E := fresh "E" in
            destruct (parse_array fuel x) as [[??]|?] eqn:E;
            [apply IHarr in E|]
        end
      | case_match; simplify_eq ].
  - intros acc s kv r. cbn [parse_object].
    repeat first
      [ discriminate
      | intros [= <- <-]; lengths; lia
      | intros [= ->]; lengths; lia
      | let Hrec := fresh "Hrec" in
        intros Hrec; apply IHobj in Hrec; lengths; lia
      | match goal with
        | |- context [scanstring ?x] =>
            destruct (scanstring x) as [[??]|?] eqn:?
        | |- context [scan_once fuel ?x] =>
            let E := fresh "E" in
            destruct (scan_once fuel x) as [[??]|?] eqn:E;
            [apply IHscan in E|]
        end
      | case_match; simplify_eq ].
Qed.

Lemma decoding_cons_char {A} u (r : res (pystr * A)) :
  decoding r → decoding (cons_char u r).
Proof. by destruct r as [[??]|?]. Qed.

Lemma scanstring_decoding_aux (n : nat) (s : list ascii) :
  length s ≤ n → decoding (scanstring s).
Proof.
  revert s. induction n as [|n IH]; intros [|c s] Hlen; cbn in Hlen;
    try done; try lia.
  cbn [scanstring].
  repeat first
    [ done
    | apply decoding_cons_char; apply IH; cbn [length] in *; lia
    | case_match; simplify_eq ].
Qed.

Lemma scanstring_decoding (s : list ascii) : decoding (scanstring s).
Proof. by apply (scanstring_decoding_aux (length s)). Qed.

Lemma scan_fuel (fuel : nat) :
  (∀ s, 2 * length s < fuel → decoding (scan_once fuel s)) ∧
  (∀ s, 2 * length s + 1 < fuel → decoding (parse_array fuel s)) ∧
  (∀ acc s, 2 * length s + 1 < fuel → decoding (parse_object fuel acc s)).
Proof.
  induction fuel as [|fuel (IHscan & IHarr & IHobj)].
  { repeat split; intros; lia. }
  pose proof (scan_shorter fuel) as (Sscan & Sarr & Sobj).
  pose proof scanstring_decoding as Hstr.
  split; [|split].
  - intros s Hfuel. cbn [scan_once].
    repeat first
      [ done
      | match goal with
        | |- context [scanstring ?x] =>
            specialize (Hstr x); destruct (scanstring x) as [[??]|?] eqn:?
        | |- context [parse_array fuel ?x] =>
            let H := fresh "H" in
            assert (decoding (parse_array fuel x)) as H
              by (apply IHarr; lengths; lia);
            destruct (parse_array fuel x) as [[??]|?]
        | |- context [parse_object fuel ?a ?x] =>
            let H := fresh "H" in
            assert (decoding (parse_object fuel a x)) as H
              by (apply IHobj; lengths; lia);
            destruct (parse_object fuel a x) as [[??]|?]
        end
      | case_match; simplify_eq ].
  - intros s Hfuel. cbn [parse_array].
    assert (decoding (scan_once fuel s)) as H1 by (apply IHscan; lia).
    destruct (scan_once fuel s) as [[v r1]|e] eqn:E1; [|done].
    apply Sscan in E1.
    repeat first
      [ done
      | match goal with
        | |- context [parse_array fuel ?x] =>
            let H := fresh "H" in
            assert (decoding (parse_array fuel x)) as H
              by (apply IHarr; lengths; lia);
            destruct (parse_array fuel x) as [[??]|?]
        end
      | case_match; simplify_eq ].
  - intros acc s Hfuel. cbn [parse_object].
    repeat first
      [ done
      | apply IHobj; lengths; lia
      | match goal with
        | |- context [scanstring ?x] =>
            specialize (Hstr x); destruct (scanstring x) as [[??]|?] eqn:?
        | |- context [scan_once fuel ?x] =>
            let H := fresh "H" in
            let E := fresh "E" in
            assert (decoding (scan_once fuel x)) as H
              by (apply IHscan; lengths; lia);
            destruct (scan_once fuel x) as [[??]|?] eqn:E;
            [apply Sscan in E|]
        end
      | case_match; simplify_eq ].
Qed.

(** [loads] never runs out of fuel: it returns a value or raises a
    [JSONDecodeError]. *)
Lemma loads_decoding (text : string) : decoding (loads text).
Proof.
  unfold loads.
  match goal with
  | |- context [scan_once ?f ?s] =>
      assert (decoding (scan_once f s)) as H;
      [|destruct (scan_once f s) as [[??]|?]; [|done]]
  end.
  - apply scan_fuel. pose proof (skip_ws_length (list_ascii_of_string text)).
    lia.
  - by case_match.
Qed.

End json_fuel.

Lemma loads_raises_exception (text : string) (e : exc) :
  Json.loads text = Raise e → isinstance e Exception = true.
Proof.
  intros Hraise. pose proof (loads_decoding text) as Hdec.
  rewrite Hraise in Hdec. unfold isinstance. cbn in Hdec. by rewrite Hdec.
Qed.

(** ** Formatting and parsing the time of day *)

Lemma forallb_elem {A} (f : A → bool) (l : list A) (x : A) :
  forallb f l = true → x ∈ l → f x = true.
Proof.
  intros Hall Hx. apply Is_true_true, forallb_True in Hall.
  rewrite Forall_forall in Hall. by apply Is_true_true, Hall.
Qed.

(** All 1440 minutes of the day, checked one by one. *)
Lemma clock_texts_ok :
  forallb (λ h, forallb (λ m, clock_text_ok h m) (seq 0 60)) (seq 0 24) = true.
Proof. by vm_compute. Qed.

(** What the clock shows is always in the strict format, and [strptime]
    inverts [strftime]. *)
Lemma strftime_strict (now : datetime) :
  valid_datetime now →
  strict_hhmm (strftime_HM now) = true ∧
  strptime_HM (strftime_HM now) = Ok (dt_hour now, dt_minute now).
Proof.
  intros (Hh & Hm & _). unfold strftime_HM.
  pose proof clock_texts_ok as Hall.
  apply (forallb_elem _ _ (dt_hour now)) in Hall;
    [|apply elem_of_seq; lia]. cbv beta in Hall.
  apply (forallb_elem _ _ (dt_minute now)) in Hall;
    [|apply elem_of_seq; lia].
  unfold clock_text_ok in Hall. apply andb_prop in Hall as [Hstrict Hparse].
  by apply bool_decide_eq_true_1 in Hparse.
Qed.

(** A schedule entry that is not in the strict format never equals the
    current time: it cannot fire. *)
Lemma not_strict_never_now (s : string) (now : datetime) :
  strict_hhmm s = false → valid_datetime now → strftime_HM now ≠ s.
Proof.
  intros Hs Hnow <-. destruct (strftime_strict now Hnow) as [Hstrict _].
  congruence.
Qed.

(** [strptime] also accepts hours and minutes of one digit. *)
Example strptime_one_digit :
  strptime_HM "6:00" = Ok (6, 0) ∧ strptime_HM "6:5" = Ok (6, 5) ∧
  strptime_HM "06:5" = Ok (6, 5) ∧ strptime_HM "23:59" = Ok (23, 59) ∧
  is_ok (strptime_HM "24:00") = false ∧ is_ok (strptime_HM "06:60") = false ∧
  is_ok (strptime_HM "06:00 ") = false ∧ is_ok (strptime_HM "0600") = false.
Proof. by vm_compute. Qed.

(** ** The schedule evaluator *)

Lemma check_schedule_unfold (now : datetime) (st : State) :
  check_schedule now st =
    if not_ready st then (Ok (), st)
    else if bool_decide (strftime_HM now ∈ schedule st) then
      if bool_decide (last_feed_time st = Some (strftime_HM now))
      then (Ok (), st)
      else (Raise task_refused, fired (strftime_HM now) st)
    else (Ok (), st).
Proof.
  unfold check_schedule. generalize (strftime_HM now) as t. intros t.
  unfold_m. cbn.
  destruct (not_ready st); [done|].
  destruct (bool_decide (t ∈ schedule st)); [|done].
  by destruct (bool_decide (last_feed_time st = Some t)).
Qed.

Lemma tick_unfold (now : datetime) (st : State) :
  tick now st =
    if negb (not_ready st) && bool_decide (strftime_HM now ∈ schedule st)
       && negb (bool_decide (last_feed_time st = Some (strftime_HM now)))
    then (true, Some (strftime_HM now))
    else (false, last_feed_time st).
Proof.
  unfold tick. rewrite check_schedule_unfold.
  generalize (strftime_HM now) as t. intros t.
  destruct (not_ready st); cbn.
  { by rewrite bool_decide_eq_false_2 by apply list_neq_snoc. }
  destruct (bool_decide (t ∈ schedule st)); cbn.
  2: { by rewrite bool_decide_eq_false_2 by apply list_neq_snoc. }
  destruct (bool_decide (last_feed_time st = Some t)); cbn.
  { by rewrite bool_decide_eq_false_2 by apply list_neq_snoc. }
  by rewrite bool_decide_eq_true_2.
Qed.

Lemma not_ready_fired t st : not_ready (fired t st) = not_ready st.
Proof. done. Qed.

Lemma schedule_fired t st : schedule (fired t st) = schedule st.
Proof. done. Qed.

Lemma last_feed_time_fired t st : last_feed_time (fired t st) = Some t.
Proof. done. Qed.

(** C1 (as amended): [check_schedule] starts a feed exactly when the
    application is connected and holds a motor, the current time written as
    HH:MM is in the schedule, and it differs from the marker.  When it
    starts a feed the new marker is that HH:MM string, otherwise the marker
    is unchanged.  For a connected application with the schedule
    06:00, 12:00 and the marker empty: the check at 06:00 starts a feed and
    sets the marker to 06:00, a second check at 06:00 starts none, a check
    at 06:01 starts none, and a check at 12:00 starts a feed and sets the
    marker to 12:00. *)
Theorem check_schedule_fires_once (st : State) (now : datetime) :
  let t := strftime_HM now in
  ((tick now st).1 = true ↔
     not_ready st = false ∧ t ∈ schedule st ∧ last_feed_time st ≠ Some t) ∧
  ((tick now st).1 = true → (tick now st).2 = Some t) ∧
  ((tick now st).1 = false → (tick now st).2 = last_feed_time st) ∧
  (not_ready st = false →
   schedule st = ["06:00"; "12:00"] →
   last_feed_time st = None ∨ last_feed_time st = Some EmptyString →
   ∀ d1 s1 d2 s2 d3 s3 d4 s4,
     let st1 := (check_schedule (mk_datetime d1 6 0 s1) st).2 in
     let st2 := (check_schedule (mk_datetime d2 6 0 s2) st1).2 in
     let st3 := (check_schedule (mk_datetime d3 6 1 s3) st2).2 in
     tick (mk_datetime d1 6 0 s1) st = (true, Some "06:00") ∧
     tick (mk_datetime d2 6 0 s2) st1 = (false, Some "06:00") ∧
     tick (mk_datetime d3 6 1 s3) st2 = (false, Some "06:00") ∧
     tick (mk_datetime d4 12 0 s4) st3 = (true, Some "12:00")).
Proof.
  intros t. rewrite tick_unfold. fold t. clearbody t.
  split; [|split; [|split]].
  - destruct (not_ready st); cbn; [intuition congruence|].
    repeat case_bool_decide; cbn; intuition congruence.
  - destruct (not_ready st); cbn; [done|].
    repeat case_bool_decide; cbn; intuition congruence.
  - destruct (not_ready st); cbn; [done|].
    repeat case_bool_decide; cbn; intuition congruence.
  - intros Hready Hsch Hmarker d1 s1 d2 s2 d3 s3 d4 s4. cbn zeta.
    assert ((check_schedule (mk_datetime d1 6 0 s1) st).2 = fired "06:00" st)
      as ->.
    { rewrite check_schedule_unfold, Hready, Hsch.
      by destruct Hmarker as [-> | ->]. }
    assert ((check_schedule (mk_datetime d2 6 0 s2) (fired "06:00" st)).2
            = fired "06:00" st) as ->.
    { by rewrite check_schedule_unfold, not_ready_fired, schedule_fired,
        last_feed_time_fired, Hready, Hsch. }
    assert ((check_schedule (mk_datetime d3 6 1 s3) (fired "06:00" st)).2
            = fired "06:00" st) as ->.
    { by rewrite check_schedule_unfold, not_ready_fired, schedule_fired,
        last_feed_time_fired, Hready, Hsch. }
    rewrite !tick_unfold, !not_ready_fired, !schedule_fired,
      !last_feed_time_fired, Hready, Hsch.
    by destruct Hmarker as [-> | ->].
Qed.

(** C1, witness: the scenario on a connected application with an empty
    marker. *)
Lemma check_schedule_fires_once_witness :
  let st := ready_state motor_ok ["06:00"; "12:00"] None in
  let st1 := (check_schedule (mk_datetime 0 6 0 0) st).2 in
  let st2 := (check_schedule (mk_datetime 0 6 0 30) st1).2 in
  let st3 := (check_schedule (mk_datetime 0 6 1 0) st2).2 in
  tick (mk_datetime 0 6 0 0) st = (true, Some "06:00") ∧
  tick (mk_datetime 0 6 0 30) st1 = (false, Some "06:00") ∧
  tick (mk_datetime 0 6 1 0) st2 = (false, Some "06:00") ∧
  tick (mk_datetime 0 12 0 0) st3 = (true, Some "12:00").
Proof.
  intros st.
  destruct (check_schedule_fires_once st (mk_datetime 0 6 0 0))
    as (_ & _ & _ & scenario).
  exact (scenario eq_refl eq_refl (or_introl eq_refl) 0 0 0 30 0 0 0 0).
Defined.

(** C1, counterexample to the claim as stated: before the application is
    connected, 06:00 is in the schedule and differs from the marker, and the
    check at 06:00 starts no feed. *)
Lemma check_schedule_not_connected :
  let st := set_schedule ["06:00"; "12:00"] (boot NoFile) in
  let now := mk_datetime 0 6 0 0 in
  ¬ ((tick now st).1 = true ↔
       strftime_HM now ∈ schedule st ∧
       last_feed_time st ≠ Some (strftime_HM now)).
Proof.
  intros st now [_ Hfire].
  assert ((tick now st).1 = true) as Habs; [|by vm_compute in Habs].
  apply Hfire. split; [|done]. apply (bool_decide_unpack _). by vm_compute.
Qed.

(** ** One minute of the event loop *)



Lemma run_cons ev evs st : run (ev :: evs) st = run evs (handle ev st).2.
Proof. done. Qed.





(** ** A minute that is not in the schedule *)

(** With one time in the schedule and that time as the marker, no check
    changes anything. *)
Lemma run_marker_stuck (t : string) (ticks : list datetime) (st : State) :
  schedule st = [t] → last_feed_time st = Some t →
  run (TimerTick <$> ticks) st = st.
Proof.
  intros Hsch Hmarker. induction ticks as [|d ticks IH]; [done|].
  rewrite fmap_cons, run_cons. cbn [handle].
  rewrite check_schedule_unfold, Hsch, Hmarker.
  destruct (not_ready st); [done|].
  case_bool_decide as Hin; [|done].
  apply list_elem_of_singleton in Hin as ->.
  by rewrite bool_decide_eq_true_2.
Qed.

(** C3 (code bug): the marker is never cleared.  A check at a minute whose
    HH:MM string is not in the schedule changes nothing, the marker
    included: [check_schedule] writes [last_feed_time] only when it starts
    a feed, and the marker holds no date.  So with one time in the
    schedule, once that time has fired no check starts a feed again, at
    any minute of that day or of a later day, although the comments of
    [check_schedule] ("Check if current time matches any schedule time",
    "Prevent multiple feeds at the same time") ask only that one minute is
    not fed twice. *)
Theorem marker_never_cleared (st : State) (t : string) :
  (∀ now, strftime_HM now ∉ schedule st →
     check_schedule now st = (Ok (), st)) ∧
  (schedule st = [t] → last_feed_time st = Some t →
   ∀ ticks later,
     run (TimerTick <$> ticks) st = st ∧
     (tick later (run (TimerTick <$> ticks) st)).1 = false).
Proof.
  split.
  - intros now Hnow.
    rewrite check_schedule_unfold, bool_decide_eq_false_2 by done.
    by destruct (not_ready st).
  - intros Hsch Hmarker ticks later.
    rewrite (run_marker_stuck t) by done. split; [done|].
    rewrite tick_unfold, Hsch, Hmarker.
    destruct (not_ready st); [done|]. cbn [negb andb].
    case_bool_decide as Hin; [|done].
    apply list_elem_of_singleton in Hin as ->.
    by rewrite bool_decide_eq_true_2.
Qed.

(** C3, the failing input: the schedule holds 06:00 only.  The check at
    06:00 starts a feed; the check at 06:01 leaves the marker as it is; the
    checks at 06:00 of the next day and of the day after start nothing. *)
Lemma marker_never_cleared_witness :
  let st0 := ready_state motor_ok ["06:00"] None in
  let st1 := (check_schedule (mk_datetime 0 6 0 0) st0).2 in
  tick (mk_datetime 0 6 0 0) st0 = (true, Some "06:00") ∧
  check_schedule (mk_datetime 0 6 1 0) st1 = (Ok (), st1) ∧
  run (TimerTick <$> [mk_datetime 0 6 1 0; mk_datetime 1 6 0 0]) st1 = st1 ∧
  (tick (mk_datetime 2 6 0 0)
     (run (TimerTick <$> [mk_datetime 0 6 1 0; mk_datetime 1 6 0 0]) st1)).1
    = false.
Proof.
  intros st0 st1.
  destruct (marker_never_cleared st1 "06:00") as [Hoff Hstuck].
  split; [reflexivity|]. split.
  - apply (Hoff (mk_datetime 0 6 1 0)).
    apply (bool_decide_unpack _). by vm_compute.
  - exact (Hstuck eq_refl eq_refl
             [mk_datetime 0 6 1 0; mk_datetime 1 6 0 0]
             (mk_datetime 2 6 0 0)).
Defined.

(** ** The feed actions *)

Lemma stepper_call_unfold (c : motor_call) (m : Motor) (st : State) :
  stepper st = Some m →
  stepper_call c st =
    (match motor_reply m (motor_calls st) c with
     | None => Ok ()
     | Some e => Raise e
     end,
     set_motor_calls (motor_calls st ++ [c]) st).
Proof.
  intros Hm. unfold stepper_call. unfold_m. cbn. rewrite Hm.
  by destruct (motor_reply m (motor_calls st) c).
Qed.

Section feed.
Variable (st : State) (m : Motor).
Hypothesis connected_st : connected st = true.
Hypothesis stepper_st : stepper st = Some m.

Let sent := motor_calls st.

Lemma not_ready_false : not_ready st = false.
Proof. unfold not_ready. by rewrite connected_st, stepper_st. Qed.

Ltac enter_feed f E :=
  destruct f as [r st'] eqn:E; revert E;
  unfold on_feed, scheduled_feed;
  unfold mbind at 1; unfold M_bind, gets; cbn [id];
  rewrite not_ready_false; unfold_m; cbn;
  rewrite !(stepper_call_unfold _ m) by done; cbn; fold run_cmd sent.

(** The run command completes: the stop command follows it. *)
Lemma on_feed_run_ok :
  motor_reply m sent run_cmd = None →
  motor_calls (on_feed st).2 = sent ++ [run_cmd; Stop].
Proof.
  intros Hrun. enter_feed (on_feed st) E. rewrite Hrun. cbn.
  destruct (motor_reply m _ Stop) as [e|]; cbn;
    [destruct (isinstance e Exception)|]; cbn;
    intros [= <- <-]; cbn; by rewrite <- app_assoc.
Qed.

Lemma scheduled_feed_run_ok :
  motor_reply m sent run_cmd = None →
  motor_calls (scheduled_feed st).2 = sent ++ [run_cmd; Stop].
Proof.
  intros Hrun. enter_feed (scheduled_feed st) E. rewrite Hrun. cbn.
  destruct (motor_reply m _ Stop) as [e|]; cbn;
    [destruct (isinstance e Exception)|]; cbn;
    intros [= <- <-]; cbn; by rewrite <- app_assoc.
Qed.

(** The run command raises: nothing more is sent to the motor. *)
Lemma on_feed_run_fails e :
  motor_reply m sent run_cmd = Some e →
  motor_calls (on_feed st).2 = sent ++ [run_cmd] ∧
  (isinstance e Exception = true →
     (on_feed st).1 = Ok () ∧
     status_label (on_feed st).2 = "Status: Feed failed!") ∧
  (isinstance e Exception = false → (on_feed st).1 = Raise e).
Proof.
  intros Hrun. enter_feed (on_feed st) E. rewrite Hrun. cbn.
  by destruct (isinstance e Exception); intros [= <- <-].
Qed.

Lemma scheduled_feed_run_fails e :
  motor_reply m sent run_cmd = Some e →
  motor_calls (scheduled_feed st).2 = sent ++ [run_cmd] ∧
  (isinstance e Exception = true →
     (scheduled_feed st).1 = Ok () ∧
     status_label (scheduled_feed st).2
       = "Status: Scheduled feed failed!") ∧
  (isinstance e Exception = false → (scheduled_feed st).1 = Raise e).
Proof.
  intros Hrun. enter_feed (scheduled_feed st) E. rewrite Hrun. cbn.
  by destruct (isinstance e Exception); intros [= <- <-].
Qed.

(** The [finally] clause of [on_feed]: the button is enabled again
    whatever the motor answered. *)
Lemma on_feed_button : feed_btn (on_feed st).2 = true.
Proof.
  enter_feed (on_feed st) E.
  destruct (motor_reply m sent run_cmd) as [e|]; cbn.
  { by destruct (isinstance e Exception); intros [= <- <-]. }
  destruct (motor_reply m _ Stop) as [e|]; cbn;
    [destruct (isinstance e Exception)|]; by intros [= <- <-].
Qed.

End feed.

Lemma stops_app (l1 l2 : list motor_call) :
  stops (l1 ++ l2) = stops l1 + stops l2.
Proof. unfold stops. by rewrite filter_app, length_app. Qed.

(** C2 (as amended): in both the manual and the scheduled feed the stop
    command is sent exactly once, right after the run command, when the
    run command completes.  When the run command raises, nothing more is
    sent to the motor: no stop command is issued; an error that is an
    [Exception] is caught and reported and the operation returns.  What
    runs on every path of the manual feed is the re-enabling of the feed
    button. *)
Theorem feed_stops_after_completed_run (st : State) (m : Motor) :
  connected st = true →
  stepper st = Some m →
  let sent := motor_calls st in
  (motor_reply m sent run_cmd = None →
     motor_calls (on_feed st).2 = sent ++ [run_cmd; Stop] ∧
     motor_calls (scheduled_feed st).2 = sent ++ [run_cmd; Stop] ∧
     stops (motor_calls (on_feed st).2) = stops sent + 1 ∧
     stops (motor_calls (scheduled_feed st).2) = stops sent + 1) ∧
  (∀ e, motor_reply m sent run_cmd = Some e →
     motor_calls (on_feed st).2 = sent ++ [run_cmd] ∧
     motor_calls (scheduled_feed st).2 = sent ++ [run_cmd] ∧
     stops (motor_calls (on_feed st).2) = stops sent ∧
     stops (motor_calls (scheduled_feed st).2) = stops sent ∧
     (isinstance e Exception = true →
        (on_feed st).1 = Ok () ∧ (scheduled_feed st).1 = Ok () ∧
        status_label (on_feed st).2 = "Status: Feed failed!" ∧
        status_label (scheduled_feed st).2
          = "Status: Scheduled feed failed!")) ∧
  feed_btn (on_feed st).2 = true.
Proof.
  intros Hc Hm sent. split; [|split].
  - intros Hrun.
    rewrite (on_feed_run_ok st m), (scheduled_feed_run_ok st m) by done.
    fold sent. rewrite stops_app. done.
  - intros e Hrun.
    destruct (on_feed_run_fails st m Hc Hm e Hrun) as (-> & Hok & _).
    destruct (scheduled_feed_run_fails st m Hc Hm e Hrun) as (-> & Hok' & _).
    fold sent. rewrite stops_app. change (stops [run_cmd]) with 0.
    split; [done|]. split; [done|]. split; [lia|]. split; [lia|].
    intros He. by destruct (Hok He) as [-> ->], (Hok' He) as [-> ->].
  - by apply (on_feed_button st m).
Qed.

(** C2, witness: a motor that answers every command, and a motor whose
    run command fails. *)
Lemma feed_stops_after_completed_run_witness :
  motor_calls (on_feed (ready_state motor_ok [] None)).2 = [run_cmd; Stop] ∧
  motor_calls (on_feed (ready_state motor_stalls [] None)).2 = [run_cmd].
Proof.
  split.
  - destruct (feed_stops_after_completed_run
                (ready_state motor_ok [] None) motor_ok eq_refl eq_refl)
      as (Hok & _).
    by destruct (Hok eq_refl) as (-> & _).
  - destruct (feed_stops_after_completed_run
                (ready_state motor_stalls [] None) motor_stalls
                eq_refl eq_refl)
      as (_ & Hfail & _).
    by destruct (Hfail _ eq_refl) as (-> & _).
Defined.

(** C2, counterexample to the claim as stated: the run command of the
    motor raises; the manual feed and the scheduled feed both return
    normally, and neither has sent a stop command. *)
Lemma feed_run_fails_no_stop :
  let st := ready_state motor_stalls ["06:00"] None in
  is_Some (motor_reply motor_stalls (motor_calls st) run_cmd) ∧
  (on_feed st).1 = Ok () ∧
  stops (motor_calls (on_feed st).2) ≠ 1 ∧
  (scheduled_feed st).1 = Ok () ∧
  stops (motor_calls (scheduled_feed st).2) ≠ 1.
Proof. cbn zeta. split; [by eexists|]. by vm_compute. Qed.

(** ** The schedule store: [load_schedule] and [save_schedule] *)

Lemma load_schedule_no_file (st : State) :
  schedule_file st = NoFile → load_schedule st = (Ok default_data, st).
Proof. intros Hf. unfold load_schedule. unfold_m. cbn. by rewrite Hf. Qed.

Lemma load_schedule_unreadable (st : State) (msg : string) :
  schedule_file st = Unreadable msg ∨ schedule_file st = Undecodable msg →
  ∃ st', load_schedule st = (Ok default_data, st').
Proof.
  intros [Hf|Hf]; unfold load_schedule; unfold_m; cbn; rewrite Hf; cbn;
    by eexists.
Qed.

Lemma load_schedule_text (st : State) (t : string) :
  schedule_file st = Text t →
  ∃ st',
    load_schedule st =
      (Ok (match Json.loads t with
           | Ok (PyList l) => l
           | _ => default_data
           end), st').
Proof.
  intros Hf. unfold load_schedule. unfold_m. cbn. rewrite Hf. cbn.
  destruct (Json.loads t) as [v|e] eqn:Hloads; cbn.
  - destruct v; cbn; by eexists.
  - rewrite (loads_raises_exception t e Hloads). by eexists.
Qed.

Lemma loads_empty : ∃ e, Json.loads EmptyString = Raise e.
Proof. by eexists. Qed.

(** C6: [load_schedule] never raises.  It returns the default schedule of
    three entries when the file is absent, cannot be read, is empty, or
    holds a text that does not decode to a list; it returns the content of
    the file only when the file holds a text that decodes to a list. *)
Theorem load_schedule_falls_back (st : State) :
  ∃ data st',
    load_schedule st = (Ok data, st') ∧
    (schedule_file st = NoFile → data = default_data) ∧
    (∀ msg, schedule_file st = Unreadable msg ∨
            schedule_file st = Undecodable msg → data = default_data) ∧
    (schedule_file st = Text EmptyString → data = default_data) ∧
    (∀ t, schedule_file st = Text t →
          (∀ l, Json.loads t ≠ Ok (PyList l)) → data = default_data) ∧
    (∀ t l, schedule_file st = Text t →
            Json.loads t = Ok (PyList l) → data = l) ∧
    (data = default_data ∨
     ∃ t, schedule_file st = Text t ∧ Json.loads t = Ok (PyList data)) ∧
    default_data = py_schedule ["06:00"; "12:00"; "16:02"].
Proof.
  destruct (schedule_file st) as [|msg|msg|t] eqn:Hf.
  - exists default_data, st. rewrite load_schedule_no_file by done.
    repeat split; eauto; done.
  - destruct (load_schedule_unreadable st msg (or_introl Hf)) as [st' ->].
    exists default_data, st'. repeat split; eauto; done.
  - destruct (load_schedule_unreadable st msg (or_intror Hf)) as [st' ->].
    exists default_data, st'. repeat split; eauto; done.
  - destruct (load_schedule_text st t Hf) as [st' ->].
    eexists _, st'. split; [done|].
    split; [done|]. split; [by intros ? [?|?]|].
    split; [by intros [= ->]|].
    split; [|split; [|split; [|done]]].
    + intros t' [= <-] Hnot. destruct (Json.loads t) as [[]|]; try done.
      by destruct (Hnot l).
    + by intros t' l [= <-] ->.
    + destruct (Json.loads t) as [[]|] eqn:E; eauto.
Qed.

(** C6, witness: a missing file, an empty file, a file that holds a JSON
    object, and a file that holds a list. *)
Lemma load_schedule_falls_back_witness :
  (load_schedule (boot NoFile)).1 = Ok default_data ∧
  (load_schedule (boot (Text EmptyString))).1 = Ok default_data ∧
  (load_schedule (boot (Text "{}"))).1 = Ok default_data ∧
  (load_schedule (boot (Text "[1, 2]"))).1 = Ok [PyInt 1; PyInt 2].
Proof.
  split; [|split; [|split]].
  - destruct (load_schedule_falls_back (boot NoFile))
      as (data & st' & -> & Hno & _).
    by rewrite (Hno eq_refl).
  - destruct (load_schedule_falls_back (boot (Text EmptyString)))
      as (data & st' & -> & _ & _ & Hempty & _).
    by rewrite (Hempty eq_refl).
  - destruct (load_schedule_falls_back (boot (Text "{}")))
      as (data & st' & -> & _ & _ & _ & Hnot & _).
    by rewrite (Hnot "{}" eq_refl).
  - destruct (load_schedule_falls_back (boot (Text "[1, 2]")))
      as (data & st' & -> & _ & _ & _ & _ & Hlist & _).
    by rewrite (Hlist "[1, 2]" [PyInt 1; PyInt 2] eq_refl eq_refl).
Defined.

Lemma narrow_codepoints (s : string) : narrow (codepoints s) = Some s.
Proof.
  unfold narrow, codepoints.
  rewrite (mapM_fmap_Some _ N_of_ascii).
  - cbn. by rewrite string_of_list_ascii_of_string.
  - intros c. pose proof (N_ascii_bounded c) as Hc.
    apply N.ltb_lt in Hc. by rewrite Hc, ascii_N_embedding.
Qed.

Lemma schedule_of_py_schedule (l : list string) :
  schedule_of (py_schedule l) = Some l.
Proof.
  unfold schedule_of, py_schedule.
  apply mapM_fmap_Some. intros s. apply narrow_codepoints.
Qed.

Lemma save_schedule_ok (st : State) :
  save_schedule WriteOk st
    = (Ok (), set_schedule_file (Text (Json.dumps (schedule st))) st).
Proof. done. Qed.

Lemma load_after_save (st : State) :
  load_schedule (set_schedule_file (Text (Json.dumps (schedule st))) st)
    = (Ok (py_schedule (schedule st)),
       set_schedule_file (Text (Json.dumps (schedule st))) st).
Proof. unfold load_schedule. unfold_m. cbn. by rewrite loads_dumps. Qed.

Lemma init_dumps (l : list string) :
  schedule <$> init (Text (Json.dumps l)) = Some l.
Proof.
  unfold init, load_schedule. unfold_m. cbn. rewrite loads_dumps. cbn.
  by rewrite schedule_of_py_schedule.
Qed.

Lemma load_schedule_dumps (st : State) (l : list string) :
  schedule_file st = Text (Json.dumps l) →
  load_schedule st = (Ok (py_schedule l), st).
Proof.
  intros Hf. unfold load_schedule. unfold_m. cbn. rewrite Hf. cbn.
  by rewrite loads_dumps.
Qed.

(** C7: when the write succeeds, [load_schedule] after [save_schedule]
    returns the schedule that was saved, as a list of [str] equal to it
    item for item.  The schedule comes back from the file: [load_schedule]
    returns it in every state whose file is the one [save_schedule] wrote,
    whatever that state holds in memory, and so does a new start of the
    application, which begins with no schedule in memory. *)
Theorem save_then_load (st later : State) :
  let saved := (save_schedule WriteOk st).2 in
  schedule_file later = schedule_file saved →
  load_schedule later = (Ok (py_schedule (schedule st)), later) ∧
  schedule_of (py_schedule (schedule st)) = Some (schedule st) ∧
  schedule <$> init (schedule_file saved) = Some (schedule st) ∧
  schedule saved = schedule st.
Proof.
  cbn zeta. rewrite save_schedule_ok. cbn [schedule_file set_schedule_file].
  intros Hfile. split; [|split; [|split]]; [| | |done].
  - by apply load_schedule_dumps.
  - apply schedule_of_py_schedule.
  - apply init_dumps.
Qed.

(** C7, witness: the schedule is saved by an application that holds it,
    and loaded by one that has just started and holds none. *)
Lemma save_then_load_witness :
  let saved :=
    (save_schedule WriteOk
       (ready_state motor_ok ["07:30"; "19:00"] None)).2 in
  schedule (boot (schedule_file saved)) = [] ∧
  load_schedule (boot (schedule_file saved))
    = (Ok (py_schedule ["07:30"; "19:00"]), boot (schedule_file saved)).
Proof.
  intros saved. split; [reflexivity|].
  destruct (save_then_load (ready_state motor_ok ["07:30"; "19:00"] None)
              (boot (schedule_file saved)) eq_refl) as [Hload _].
  exact Hload.
Defined.

(** ** The schedule under [add_time] and [remove_time] *)

Lemma schedule_stepper_call c : keeps schedule (stepper_call c).
Proof.
  unfold stepper_call. keeps_auto.
  destruct a; keeps_auto. by destruct (motor_reply _ _ _); keeps_auto.
Qed.

Lemma schedule_save_schedule w : keeps schedule (save_schedule w).
Proof.
  unfold save_schedule, write_text. keeps_auto. destruct w; keeps_auto.
Qed.

#[local] Hint Resolve schedule_stepper_call schedule_save_schedule : keeps.

Lemma schedule_on_connect o : keeps schedule (on_connect o).
Proof. unfold on_connect. keeps_auto. destruct o; keeps_auto. Qed.

Lemma schedule_check_schedule now : keeps schedule (check_schedule now).
Proof.
  unfold check_schedule, call_async_slot, create_task. keeps_auto.
  destruct a2; keeps_auto.
Qed.

Lemma schedule_scheduled_feed : keeps schedule scheduled_feed.
Proof. unfold scheduled_feed. keeps_auto. Qed.

Lemma schedule_on_feed : keeps schedule on_feed.
Proof. unfold on_feed. keeps_auto. Qed.

(** The schedule [add_time] leaves: the sorted extension when the dialog
    was confirmed with a text that [strptime] accepts and the schedule does
    not hold, the old schedule otherwise. *)
Lemma add_time_schedule time ok w st :
  schedule (add_time time ok w st).2 =
    if ok && negb (bool_decide (time = EmptyString))
       && is_ok (strptime_HM time) && negb (bool_decide (time ∈ schedule st))
    then merge_sort String.le (schedule st ++ [time])
    else schedule st.
Proof.
  unfold add_time.
  destruct (ok && negb (bool_decide (time = EmptyString))); [|done].
  cbn [andb]. unfold try_except at 1. unfold mbind at 1. unfold M_bind, lift.
  destruct (strptime_HM time) as [hm|e]; cbn [is_ok].
  2: { by destruct (isinstance e ValueError). }
  unfold mbind at 1. unfold M_bind, gets. cbn [schedule].
  destruct (bool_decide (time ∈ schedule st)); [done|]. cbn [negb].
  unfold_m.
  match goal with
  | |- context [save_schedule w ?s] =>
      pose proof (schedule_save_schedule w s) as Hsave;
      destruct (save_schedule w s) as [[[]|e] st']
  end; cbn in *; [done|].
  by destruct (isinstance e ValueError).
Qed.

Lemma remove_time_schedule selected w st :
  schedule (remove_time selected w st).2 =
    if (0 <=? selected)%Z && (Z.to_nat selected <? length (schedule st))
    then delete (Z.to_nat selected) (schedule st)
    else schedule st.
Proof.
  unfold remove_time. destruct (0 <=? selected)%Z; [|done]. cbn [andb].
  unfold mbind at 1. unfold M_bind, gets.
  destruct (Z.to_nat selected <? length (schedule st)); [|done].
  unfold_m. cbn.
  match goal with
  | |- context [save_schedule w ?s] =>
      pose proof (schedule_save_schedule w s) as Hsave;
      by destruct (save_schedule w s) as [[[]|e] st']
  end.
Qed.

(** The strict format is within what [strptime] accepts. *)
Lemma is_digit_cases (c : ascii) :
  is_digit c = true →
  c ∈ ["0"; "1"; "2"; "3"; "4"; "5"; "6"; "7"; "8"; "9"]%char.
Proof.
  destruct c as [[] [] [] [] [] [] [] []]; intros H; try done;
    apply (bool_decide_unpack _); by vm_compute.
Qed.

(** All 10000 such texts, checked one by one. *)
Lemma strict_texts_parse :
  forallb (λ h1, forallb (λ h2, forallb (λ m1, forallb (λ m2,
    strict_parses h1 h2 m1 m2) digits) digits) digits) digits = true.
Proof. by vm_compute. Qed.

Lemma strict_five_parses (h1 h2 m1 m2 : ascii) :
  h1 ∈ digits → h2 ∈ digits → m1 ∈ digits → m2 ∈ digits →
  strict_hhmm (five h1 h2 ":" m1 m2) = true →
  is_ok (strptime_HM (five h1 h2 ":" m1 m2)) = true.
Proof.
  intros Hh1 Hh2 Hm1 Hm2 Hstrict.
  pose proof strict_texts_parse as Hall.
  apply (forallb_elem _ _ h1) in Hall; [|done]. cbv beta in Hall.
  apply (forallb_elem _ _ h2) in Hall; [|done]. cbv beta in Hall.
  apply (forallb_elem _ _ m1) in Hall; [|done]. cbv beta in Hall.
  apply (forallb_elem _ _ m2) in Hall; [|done].
  unfold strict_parses in Hall. by rewrite Hstrict in Hall.
Qed.

Lemma strict_hhmm_shape (s : string) :
  strict_hhmm s = true →
  ∃ h1 h2 m1 m2,
    s = five h1 h2 ":" m1 m2 ∧
    h1 ∈ digits ∧ h2 ∈ digits ∧ m1 ∈ digits ∧ m2 ∈ digits.
Proof.
  unfold strict_hhmm.
  destruct s as [|h1 [|h2 [|c [|m1 [|m2 [|? ?]]]]]];
    cbn [list_ascii_of_string]; try discriminate.
  intros H.
  apply andb_prop in H as [H _]. apply andb_prop in H as [H _].
  apply andb_prop in H as [H Hm2]. apply andb_prop in H as [H Hm1].
  apply andb_prop in H as [H Hc]. apply andb_prop in H as [Hh1 Hh2].
  apply bool_decide_eq_true_1 in Hc as ->.
  exists h1, h2, m1, m2. unfold digits. by auto 10 using is_digit_cases.
Qed.

Lemma strict_hhmm_parses (s : string) :
  strict_hhmm s = true → s ≠ EmptyString ∧ is_ok (strptime_HM s) = true.
Proof.
  intros Hstrict. split; [by intros ->|].
  destruct (strict_hhmm_shape s Hstrict)
    as (h1 & h2 & m1 & m2 & -> & Hh1 & Hh2 & Hm1 & Hm2).
  by apply strict_five_parses.
Qed.

Lemma sort_sorted (l : list string) : Sorted String.le (merge_sort String.le l).
Proof. apply (Sorted_merge_sort String.le). Qed.

Lemma sort_perm (l : list string) : merge_sort String.le l ≡ₚ l.
Proof. apply (merge_sort_Permutation String.le). Qed.

Lemma StronglySorted_sublist {A} (R : relation A) (l1 l2 : list A) :
  l1 `sublist_of` l2 → StronglySorted R l2 → StronglySorted R l1.
Proof.
  induction 1 as [|x l1 l2 Hsub IH|x l1 l2 Hsub IH]; intros Hs; [done|..].
  - apply StronglySorted_inv in Hs as [Hs Hall]. constructor; [by apply IH|].
    rewrite Forall_forall in *. intros y Hy. apply Hall.
    by eapply elem_of_sublist.
  - apply StronglySorted_inv in Hs as [Hs _]. by apply IH.
Qed.

Lemma delete_schedule_inv (i : nat) (l : list string) :
  schedule_inv l → schedule_inv (delete i l).
Proof.
  intros [Hs Hn]. split.
  - apply StronglySorted_Sorted.
    apply (StronglySorted_sublist _ _ l); [apply sublist_delete|].
    by apply Sorted_StronglySorted; [apply _|].
  - eapply sublist_NoDup; [done|apply sublist_delete].
Qed.

Lemma length_delete_lt {A} (i : nat) (l : list A) :
  i < length l → length (delete i l) + 1 = length l.
Proof.
  intros Hi. rewrite delete_take_drop, length_app, length_take, length_drop.
  lia.
Qed.

(** C8 (as amended): adding a well-formed HH:MM string that the schedule
    does not hold makes the schedule one entry longer; the result is
    sorted, it holds the new string and every entry it held before, and
    nothing else; and it has no duplicates when the schedule had none:
    [add_time] appends and sorts, it removes nothing, so the result is
    free of duplicates exactly when the schedule was. *)
Theorem add_time_new_entry (st : State) (time : string) (w : write_outcome) :
  strict_hhmm time = true →
  time ∉ schedule st →
  let st' := (add_time time true w st).2 in
  length (schedule st') = S (length (schedule st)) ∧
  Sorted String.le (schedule st') ∧
  (NoDup (schedule st') ↔ NoDup (schedule st)) ∧
  time ∈ schedule st' ∧
  (∀ s, s ∈ schedule st → s ∈ schedule st') ∧
  (∀ s, s ∈ schedule st' → s = time ∨ s ∈ schedule st).
Proof.
  intros Hstrict Hnew. cbn zeta. rewrite add_time_schedule.
  destruct (strict_hhmm_parses time Hstrict) as [Hne ->].
  rewrite !bool_decide_eq_false_2 by done. cbn [andb negb].
  pose proof (sort_perm (schedule st ++ [time])) as Hperm.
  split; [|split; [|split; [|split; [|split]]]].
  - rewrite Hperm, length_app. cbn. lia.
  - apply sort_sorted.
  - rewrite Hperm, NoDup_app. split; [by intros [? _]|].
    intros Hnodup. split; [done|]. split.
    + by intros s Hs ->%list_elem_of_singleton.
    + apply NoDup_singleton.
  - rewrite Hperm. apply elem_of_app. right. by left.
  - intros s Hs. rewrite Hperm. apply elem_of_app. by left.
  - intros s. rewrite Hperm. intros [?| ->%list_elem_of_singleton]%elem_of_app;
      auto.
Qed.

(** C8, witness: 07:30 added to the default schedule. *)
Lemma add_time_new_entry_witness :
  let st := ready_state motor_ok DEFAULT_SCHEDULE None in
  let st' := (add_time "07:30" true WriteOk st).2 in
  length (schedule st') = 4 ∧ Sorted String.le (schedule st') ∧
  NoDup (schedule st') ∧ "07:30" ∈ schedule st'.
Proof.
  intros st.
  assert ("07:30" ∉ schedule st) as Hnew.
  { apply (bool_decide_unpack _). by vm_compute. }
  assert (NoDup (schedule st)) as Hnodup.
  { apply (bool_decide_unpack _). by vm_compute. }
  destruct (add_time_new_entry st "07:30" WriteOk eq_refl Hnew)
    as (Hlen & Hsorted & Hnd & Hin & _).
  exact (conj Hlen (conj Hsorted (conj (proj2 Hnd Hnodup) Hin))).
Defined.

(** C8, counterexample to the claim as stated: the application starts
    from a file that holds the list 12:00, 06:00, 06:00; the well-formed
    time 09:30 is not in the schedule; after [add_time] took it the
    schedule is 06:00, 06:00, 09:30, 12:00, which holds 06:00 twice. *)
Lemma add_time_keeps_duplicate :
  let f := Text (json_list3 "12:00" "06:00" "06:00") in
  let st := default (boot f) (init f) in
  init f = Some st ∧
  strict_hhmm "09:30" = true ∧
  ("09:30" ∉ schedule st) ∧
  schedule (add_time "09:30" true WriteOk st).2
    = ["06:00"; "06:00"; "09:30"; "12:00"] ∧
  ¬ NoDup (schedule (add_time "09:30" true WriteOk st).2).
Proof.
  cbn zeta. split; [by vm_compute|]. split; [done|].
  split; [apply (bool_decide_unpack _); by vm_compute|].
  split; [by vm_compute|].
  apply (bool_decide_unpack _). by vm_compute.
Qed.

(** C9: removing the row [i] of the schedule, for [0 <= i < size], makes
    the schedule one entry shorter: the entries before [i] stay where they
    are and the entries after [i] move up by one, in their order. *)
Theorem remove_time_valid_index (st : State) (selected : Z)
    (w : write_outcome) :
  (0 ≤ selected < Z.of_nat (length (schedule st)))%Z →
  let i := Z.to_nat selected in
  let st' := (remove_time selected w st).2 in
  length (schedule st') + 1 = length (schedule st) ∧
  schedule st' = take i (schedule st) ++ drop (S i) (schedule st) ∧
  (∀ j, j < i → schedule st' !! j = schedule st !! j) ∧
  (∀ j, i ≤ j → schedule st' !! j = schedule st !! S j).
Proof.
  intros Hsel. cbn zeta. rewrite remove_time_schedule.
  assert (Z.to_nat selected < length (schedule st)) as Hi by lia.
  rewrite (proj2 (Z.leb_le _ _)) by lia.
  rewrite (proj2 (Nat.ltb_lt _ _)) by done. cbn [andb].
  split; [by apply length_delete_lt|].
  split; [apply delete_take_drop|].
  split; intros j Hj.
  - by apply list_lookup_delete_lt.
  - by apply list_lookup_delete_ge.
Qed.

(** C9, witness: the middle row of the default schedule. *)
Lemma remove_time_valid_index_witness :
  schedule
    (remove_time 1 WriteOk (ready_state motor_ok DEFAULT_SCHEDULE None)).2
    = ["06:00"; "16:02"].
Proof.
  destruct (remove_time_valid_index
              (ready_state motor_ok DEFAULT_SCHEDULE None) 1 WriteOk
              ltac:(cbn; lia))
    as (_ & -> & _).
  reflexivity.
Defined.

Lemma add_time_schedule_inv time ok w st :
  schedule_inv (schedule st) → schedule_inv (schedule (add_time time ok w st).2).
Proof.
  intros [Hs Hn]. rewrite add_time_schedule.
  destruct (ok && negb (bool_decide (time = EmptyString))
            && is_ok (strptime_HM time)); [|done]. cbn [andb].
  case_bool_decide as Hin; [done|]. cbn [negb]. split.
  - apply sort_sorted.
  - rewrite sort_perm. apply NoDup_app. split; [done|]. split.
    + by intros s Hs' ->%list_elem_of_singleton.
    + apply NoDup_singleton.
Qed.

Lemma remove_time_schedule_inv selected w st :
  schedule_inv (schedule st) →
  schedule_inv (schedule (remove_time selected w st).2).
Proof.
  intros Hinv. rewrite remove_time_schedule.
  destruct (_ && _); [by apply delete_schedule_inv|done].
Qed.

Lemma handle_schedule_inv ev st :
  schedule_inv (schedule st) → schedule_inv (schedule (handle ev st).2).
Proof.
  intros Hinv. destruct ev; cbn [handle].
  - by rewrite schedule_check_schedule.
  - by rewrite schedule_on_connect.
  - by apply add_time_schedule_inv.
  - by apply remove_time_schedule_inv.
  - by rewrite schedule_on_feed.
  - by rewrite schedule_scheduled_feed.
Qed.

(** C5 (as amended): the default schedule is sorted and free of
    duplicates, and every event of the event loop, the additions and the
    removals among them, preserves that.  [load_schedule] does not
    establish it: it returns the list the file holds as it is, so the
    loaded schedule is sorted and free of duplicates exactly when the
    stored list is, as it is for a file written by [save_schedule] from a
    schedule with the invariant, and as the default is when there is no
    file. *)
Theorem schedule_inv_preserved :
  schedule_inv DEFAULT_SCHEDULE ∧
  (∀ st evs,
     schedule_inv (schedule st) → schedule_inv (schedule (run evs st))) ∧
  (∀ st time ok w,
     schedule_inv (schedule st) →
     schedule_inv (schedule (add_time time ok w st).2)) ∧
  (∀ st selected w,
     schedule_inv (schedule st) →
     schedule_inv (schedule (remove_time selected w st).2)) ∧
  (∀ st t l,
     schedule_file st = Text t → Json.loads t = Ok (PyList l) →
     (load_schedule st).1 = Ok l) ∧
  (∀ l, schedule <$> init (Text (Json.dumps l)) = Some l) ∧
  schedule <$> init NoFile = Some DEFAULT_SCHEDULE ∧
  (∀ st,
     (load_schedule (save_schedule WriteOk st).2).1
       = Ok (py_schedule (schedule st))).
Proof.
  split; [|split; [|split; [|split; [|split; [|split; [|split]]]]]].
  - apply (bool_decide_unpack _). by vm_compute.
  - intros st evs. revert st.
    induction evs as [|ev evs IH]; intros st Hinv; [done|].
    rewrite run_cons. by apply IH, handle_schedule_inv.
  - intros. by apply add_time_schedule_inv.
  - intros. by apply remove_time_schedule_inv.
  - intros st t l Hf Hl.
    destruct (load_schedule_text st t Hf) as [st' ->]. by rewrite Hl.
  - apply init_dumps.
  - done.
  - intros st. rewrite save_schedule_ok. cbn [snd].
    by rewrite load_after_save.
Qed.

(** C5, witness: additions and removals on the default schedule. *)
Lemma schedule_inv_preserved_witness :
  schedule_inv
    (schedule
       (run [AddTimeClicked "07:30" true WriteOk; RemoveClicked 0 WriteOk;
             AddTimeClicked "07:30" true WriteOk]
          (ready_state motor_ok DEFAULT_SCHEDULE None))).
Proof.
  destruct schedule_inv_preserved as (Hdefault & Hrun & _).
  by apply Hrun.
Defined.

(** C5, counterexample to the claim as stated: the file holds the list
    12:00, 06:00, 06:00; [load_schedule] returns that list, which is
    neither sorted nor free of duplicates, and the application starts with
    it as its schedule. *)
Lemma load_schedule_keeps_file_order :
  let f := Text (json_list3 "12:00" "06:00" "06:00") in
  (load_schedule (boot f)).1 = Ok (py_schedule ["12:00"; "06:00"; "06:00"]) ∧
  schedule <$> init f = Some ["12:00"; "06:00"; "06:00"] ∧
  ¬ Sorted String.le ["12:00"; "06:00"; "06:00"] ∧
  ¬ NoDup ["12:00"; "06:00"; "06:00"].
Proof.
  cbn zeta. split; [by vm_compute|]. split; [by vm_compute|].
  split; apply (bool_decide_unpack _); by vm_compute.
Qed.

(** C4: the text 6:00 is not in the strict HH:MM format and is not in the
    default schedule, yet [add_time] accepts it: no warning is shown, the
    text is stored and saved.  The stored entry can never fire, since the
    current time is always written with two digits of hour. *)
Theorem add_time_accepts_unpadded :
  let st := ready_state motor_ok DEFAULT_SCHEDULE None in
  let st' := (add_time "6:00" true WriteOk st).2 in
  strict_hhmm "6:00" = false ∧
  ("6:00" ∉ schedule st) ∧
  schedule st' = ["06:00"; "12:00"; "16:02"; "6:00"] ∧
  dialogs st' = [] ∧
  schedule_file st' = Text (Json.dumps ["06:00"; "12:00"; "16:02"; "6:00"]) ∧
  ∀ now, strftime_HM now ≠ "6:00".
Proof.
  cbn zeta. split; [done|].
  split; [apply (bool_decide_unpack _); by vm_compute|].
  split; [by vm_compute|]. split; [done|]. split; [by vm_compute|].
  intros now Heq. apply (f_equal String.length) in Heq. done.
Qed.

(** What [add_time] does reject: a cancelled dialog, an empty text, a text
    [strptime] refuses, a text the schedule holds. *)
Lemma add_time_rejected (st : State) (time : string) (ok : bool)
    (w : write_outcome) :
  ok = false ∨ time = EmptyString ∨ is_ok (strptime_HM time) = false ∨
    time ∈ schedule st →
  schedule (add_time time ok w st).2 = schedule st.
Proof.
  intros H. rewrite add_time_schedule.
  destruct H as [-> | [-> | [-> | H]]]; [done|by destruct ok| |].
  - by rewrite andb_false_r.
  - rewrite (bool_decide_eq_true_2 _ H). by rewrite andb_false_r.
Qed.

(** * Further properties *)

(** ** [add_time] and [remove_time], case by case *)

Lemma strptime_raises (s : string) (e : exc) :
  strptime_HM s = Raise e → exc_cls e = ValueError.
Proof.
  unfold strptime_HM.
  destruct (regex_match_HM _) as [[[h m] [|c r]]|]; by intros [= <-].
Qed.

Lemma not_exception_not_value_error (e : exc) :
  isinstance e Exception = false → isinstance e ValueError = false.
Proof. unfold isinstance. by destruct (exc_cls e). Qed.

(** What escapes [save_schedule] is not an [Exception]. *)
Lemma save_schedule_raises (w : write_outcome) (st : State) (e : exc) :
  (save_schedule w st).1 = Raise e → isinstance e Exception = false.
Proof.
  unfold save_schedule, write_text. unfold_m.
  destruct w as [|e'|n e']; cbn; [done| |];
    by destruct (isinstance e' Exception) eqn:He'; cbn; intros [= <-].
Qed.

Lemma add_time_cases (time : string) (ok : bool) (w : write_outcome)
    (st : State) :
  add_time time ok w st =
    if ok && negb (bool_decide (time = EmptyString)) then
      if is_ok (strptime_HM time) then
        if bool_decide (time ∈ schedule st) then (Ok (), st)
        else save_schedule w (added time st)
      else (Ok (), set_dialogs (dialogs st ++ [invalid_time]) st)
    else (Ok (), st).
Proof.
  unfold add_time.
  destruct (ok && negb (bool_decide (time = EmptyString))); [|done].
  unfold try_except at 1. unfold mbind at 1. unfold M_bind, lift.
  destruct (strptime_HM time) as [hm|e] eqn:Hparse; cbn [is_ok].
  2: { apply strptime_raises in Hparse. unfold isinstance.
       by rewrite Hparse. }
  unfold mbind at 1. unfold M_bind, gets. cbn [schedule].
  destruct (bool_decide (time ∈ schedule st)); [done|]. cbn [negb].
  unfold_m. change (set_schedule_list _ _) with (added time st).
  pose proof (save_schedule_raises w (added time st)) as Hraise.
  destruct (save_schedule w (added time st)) as [[[]|e] st']; [done|].
  by rewrite (not_exception_not_value_error e (Hraise e eq_refl)).
Qed.

Lemma remove_time_cases (selected : Z) (w : write_outcome) (st : State) :
  remove_time selected w st =
    if (0 <=? selected)%Z then
      if Z.to_nat selected <? length (schedule st)
      then save_schedule w (removed (Z.to_nat selected) st)
      else (Raise (mk_exc IndexError "pop index out of range"), st)
    else (Ok (), st).
Proof.
  unfold remove_time. destruct (0 <=? selected)%Z; [|done].
  unfold mbind at 1. unfold M_bind, gets.
  by destruct (Z.to_nat selected <? length (schedule st)).
Qed.

(** X1: [remove_time] with no row selected (the row -1 of Qt, or any
    negative number) does nothing at all; with a row past the end of the
    schedule it raises [IndexError] from [list.pop] before anything was
    changed: schedule, list widget and file are as they were. *)
Theorem remove_time_no_row_or_past_end (selected : Z) (w : write_outcome)
    (st : State) :
  ((selected < 0)%Z → remove_time selected w st = (Ok (), st)) ∧
  ((Z.of_nat (length (schedule st)) ≤ selected)%Z →
     remove_time selected w st =
       (Raise (mk_exc IndexError "pop index out of range"), st)).
Proof.
  rewrite remove_time_cases. split; intros Hsel.
  - by rewrite (proj2 (Z.leb_gt 0 selected)) by done.
  - rewrite (proj2 (Z.leb_le 0 selected)) by lia.
    by rewrite (proj2 (Nat.ltb_ge _ _)) by lia.
Qed.

Lemma remove_time_no_row_or_past_end_witness :
  remove_time (-1) WriteOk (ready_state motor_ok DEFAULT_SCHEDULE None)
    = (Ok (), ready_state motor_ok DEFAULT_SCHEDULE None) ∧
  remove_time 3 WriteOk (ready_state motor_ok DEFAULT_SCHEDULE None)
    = (Raise (mk_exc IndexError "pop index out of range"),
       ready_state motor_ok DEFAULT_SCHEDULE None).
Proof.
  split.
  - apply (remove_time_no_row_or_past_end (-1) WriteOk
             (ready_state motor_ok DEFAULT_SCHEDULE None)). lia.
  - apply (remove_time_no_row_or_past_end 3 WriteOk
             (ready_state motor_ok DEFAULT_SCHEDULE None)). cbn. lia.
Defined.

(** X2: what [add_time] does with an input it does not take.  A cancelled
    dialog, an empty text and a text that parses but is in the schedule
    already leave the whole state as it is, silently.  A text that
    [strptime] refuses gets the one warning "Invalid Time", and nothing
    else changes; the refusal comes before the look-up, so it also meets
    a refused text that the schedule holds. *)
Theorem add_time_refusals (time : string) (ok : bool) (w : write_outcome)
    (st : State) :
  (ok = false ∨ time = EmptyString ∨
   (is_ok (strptime_HM time) = true ∧ time ∈ schedule st) →
     add_time time ok w st = (Ok (), st)) ∧
  (ok = true → time ≠ EmptyString → is_ok (strptime_HM time) = false →
     add_time time ok w st =
       (Ok (), set_dialogs (dialogs st ++ [invalid_time]) st)).
Proof.
  rewrite add_time_cases. split.
  - intros [-> | [-> | [Hparse Hin]]]; [done|by destruct ok|].
    rewrite Hparse, (bool_decide_eq_true_2 _ Hin).
    by destruct (ok && _).
  - intros -> Htime ->. by rewrite (bool_decide_eq_false_2 _ Htime).
Qed.

Lemma add_time_refusals_witness :
  add_time "12:00" true WriteOk (ready_state motor_ok DEFAULT_SCHEDULE None)
    = (Ok (), ready_state motor_ok DEFAULT_SCHEDULE None) ∧
  add_time "24:00" true WriteOk (ready_state motor_ok DEFAULT_SCHEDULE None)
    = (Ok (), set_dialogs [invalid_time]
                (ready_state motor_ok DEFAULT_SCHEDULE None)).
Proof.
  split.
  - apply (add_time_refusals "12:00" true WriteOk
             (ready_state motor_ok DEFAULT_SCHEDULE None)).
    right. right. split; [reflexivity|]. vm_compute. right. left.
  - apply (add_time_refusals "24:00" true WriteOk
             (ready_state motor_ok DEFAULT_SCHEDULE None));
      [reflexivity|discriminate|reflexivity].
Defined.

(** ** The list widget *)

Lemma view_stepper_call c : keeps sched_view (stepper_call c).
Proof.
  unfold stepper_call. keeps_auto.
  destruct a; keeps_auto. by destruct (motor_reply _ _ _); keeps_auto.
Qed.

Lemma view_save_schedule w : keeps sched_view (save_schedule w).
Proof.
  unfold save_schedule, write_text. keeps_auto. destruct w; keeps_auto.
Qed.

#[local] Hint Resolve view_stepper_call view_save_schedule : keeps.

Lemma view_on_connect o : keeps sched_view (on_connect o).
Proof. unfold on_connect. keeps_auto. destruct o; keeps_auto. Qed.

Lemma view_check_schedule now : keeps sched_view (check_schedule now).
Proof.
  unfold check_schedule, call_async_slot, create_task. keeps_auto.
  destruct a2; keeps_auto.
Qed.

Lemma view_scheduled_feed : keeps sched_view scheduled_feed.
Proof. unfold scheduled_feed. keeps_auto. Qed.

Lemma view_on_feed : keeps sched_view on_feed.
Proof. unfold on_feed. keeps_auto. Qed.

Lemma mirrors_view (st st' : State) :
  sched_view st' = sched_view st → mirrors st → mirrors st'.
Proof. unfold mirrors. by intros [= -> ->]. Qed.

Lemma handle_mirrors (ev : event) (st : State) :
  mirrors st → mirrors (handle ev st).2.
Proof.
  intros Hst. destruct ev; cbn [handle].
  - by apply (mirrors_view st); [apply view_check_schedule|].
  - by apply (mirrors_view st); [apply view_on_connect|].
  - rewrite add_time_cases.
    destruct (ok && _); [|done]. destruct (is_ok _); [|done].
    destruct (bool_decide _); [done|].
    by apply (mirrors_view (added time st)); [apply view_save_schedule|].
  - rewrite remove_time_cases.
    destruct (0 <=? selected)%Z; [|done]. destruct (_ <? _); [|done].
    apply (mirrors_view (removed (Z.to_nat selected) st));
      [apply view_save_schedule|].
    unfold mirrors in *. cbn. by rewrite Hst.
  - by apply (mirrors_view st); [apply view_on_feed|].
  - by apply (mirrors_view st); [apply view_scheduled_feed|].
Qed.

Lemma init_mirrors (f : file) (st : State) : init f = Some st → mirrors st.
Proof.
  unfold init. destruct (load_schedule (boot f)) as [[data|e] st0]; [|done].
  destruct (schedule_of data) as [sch|]; [|done]. by intros [= <-].
Qed.

Lemma run_mirrors (evs : list event) (st : State) :
  mirrors st → mirrors (run evs st).
Proof.
  revert st. induction evs as [|ev evs IH]; intros st Hst; [done|].
  rewrite run_cons. by apply IH, handle_mirrors.
Qed.

(** X3: the list widget always shows the schedule.  The rows of
    [schedule_list] are the entries of [self.schedule], in order, when
    [__init__] is through, and after every sequence of events: [add_time]
    rebuilds the rows from the sorted list, [remove_time] takes the same
    index from both, and a [remove_time] that raises does so before it
    touched either. *)
Theorem widget_mirrors_schedule (f : file) (st : State) (evs : list event) :
  init f = Some st → schedule_list (run evs st) = schedule (run evs st).
Proof. intros Hinit. by apply run_mirrors, (init_mirrors f). Qed.

Lemma widget_mirrors_schedule_witness :
  init NoFile = Some first_start ∧
  schedule_list
    (run [AddTimeClicked "6:00" true WriteOk; RemoveClicked 2 WriteOk]
       first_start)
  = schedule
      (run [AddTimeClicked "6:00" true WriteOk; RemoveClicked 2 WriteOk]
         first_start).
Proof.
  split; [reflexivity|].
  apply (widget_mirrors_schedule NoFile first_start
           [AddTimeClicked "6:00" true WriteOk; RemoveClicked 2 WriteOk]).
  reflexivity.
Defined.

(** ** Callbacks return *)

Lemma save_schedule_caught (w : write_outcome) (st : State) :
  caught w → (save_schedule w st).1 = Ok ().
Proof.
  unfold save_schedule, write_text. unfold_m.
  destruct w as [|e|n e]; cbn; [done| |]; by intros ->.
Qed.

Lemma not_ready_stepper (st : State) :
  not_ready st = false → ∃ m, stepper st = Some m.
Proof.
  unfold not_ready. destruct (stepper st) as [m|]; [by exists m|].
  by rewrite orb_true_r.
Qed.

(** Entering a feed action: past the guard when the state is ready. *)
Ltac enter_guard :=
  unfold on_feed, scheduled_feed; unfold mbind at 1; unfold M_bind, gets;
  cbn [id];
  match goal with
  | |- context [not_ready ?st] =>
      let Hr := fresh "Hready" in
      destruct (not_ready st) eqn:Hr;
      [|let m := fresh "m" in let Hm := fresh "Hm" in
        destruct (not_ready_stepper st Hr) as [m Hm];
        unfold_m; cbn; rewrite !(stepper_call_unfold _ m) by done; cbn;
        fold run_cmd]
  end.

Lemma on_feed_returns (st : State) :
  (∀ m, stepper st = Some m → tame_motor m) → (on_feed st).1 = Ok ().
Proof.
  intros Htame. enter_guard; [done|].
  destruct (motor_reply m _ run_cmd) as [e|] eqn:Hrun; cbn.
  { by rewrite (Htame m Hm _ _ _ Hrun). }
  destruct (motor_reply m _ Stop) as [e|] eqn:Hstop; cbn; [|done].
  by rewrite (Htame m Hm _ _ _ Hstop).
Qed.

Lemma scheduled_feed_returns (st : State) :
  (∀ m, stepper st = Some m → tame_motor m) → (scheduled_feed st).1 = Ok ().
Proof.
  intros Htame. enter_guard; [done|].
  destruct (motor_reply m _ run_cmd) as [e|] eqn:Hrun; cbn.
  { by rewrite (Htame m Hm _ _ _ Hrun). }
  destruct (motor_reply m _ Stop) as [e|] eqn:Hstop; cbn; [|done].
  by rewrite (Htame m Hm _ _ _ Hstop).
Qed.

(** X4: which callbacks let an error of class [Exception] escape.  When
    the list widget shows the schedule, the selected row is a row of the
    widget (or -1), and the errors of the disk, of the connection and of
    the motor are of class [Exception], every callback of the event loop
    returns, with one exception: [check_schedule] raises [TypeError] each
    time it starts a feed, because [asyncio.create_task] is handed the
    task that the call of the slot [scheduled_feed] returned.  In the
    other callbacks [remove_time] finds its index in range, and the
    handlers of [save_schedule], [on_connect], [on_feed] and
    [scheduled_feed] catch the rest. *)
Theorem callbacks_return (ev : event) (st : State) :
  mirrors st → tame ev st →
  (handle ev st).1 =
    match ev with
    | TimerTick now =>
        if (tick now st).1 then Raise task_refused else Ok ()
    | _ => Ok ()
    end.
Proof.
  intros Hst Hev. destruct ev; cbn [handle tame] in *.
  - rewrite tick_unfold, check_schedule_unfold.
    destruct (not_ready st); [done|].
    destruct (bool_decide (_ ∈ schedule st)); [|done].
    by destruct (bool_decide (last_feed_time st = _)).
  - unfold on_connect. unfold_m.
    destruct o as [e|e|m e|m]; cbn in *; [| | |done];
      by rewrite (Hev e eq_refl).
  - rewrite add_time_cases.
    repeat match goal with |- context [if ?b then _ else _] => destruct b end;
      try done.
    by apply save_schedule_caught.
  - destruct Hev as [Hw Hsel]. rewrite remove_time_cases.
    destruct (0 <=? selected)%Z eqn:H0; [|done].
    apply Z.leb_le in H0.
    rewrite (proj2 (Nat.ltb_lt _ _)) by (rewrite <- Hst; lia).
    by apply save_schedule_caught.
  - by apply on_feed_returns.
  - by apply scheduled_feed_returns.
Qed.

Lemma callbacks_return_witness :
  (handle (RemoveClicked 2 (OpenFails (mk_exc OSError "read-only")))
     (ready_state motor_stalls DEFAULT_SCHEDULE None)).1 = Ok () ∧
  (handle (TimerTick (mk_datetime 0 6 0 0))
     (ready_state motor_stalls DEFAULT_SCHEDULE None)).1
    = Raise task_refused.
Proof.
  split.
  - apply (callbacks_return
             (RemoveClicked 2 (OpenFails (mk_exc OSError "read-only")))
             (ready_state motor_stalls DEFAULT_SCHEDULE None)).
    + reflexivity.
    + split; [reflexivity|]. cbn. lia.
  - apply (callbacks_return (TimerTick (mk_datetime 0 6 0 0))
             (ready_state motor_stalls DEFAULT_SCHEDULE None));
      reflexivity.
Defined.

(** ** The schedule on disk *)

Lemma disk_stepper_call c : keeps disk_view (stepper_call c).
Proof.
  unfold stepper_call. keeps_auto.
  destruct a; keeps_auto. by destruct (motor_reply _ _ _); keeps_auto.
Qed.

#[local] Hint Resolve disk_stepper_call : keeps.

Lemma disk_on_connect o : keeps disk_view (on_connect o).
Proof. unfold on_connect. keeps_auto. destruct o; keeps_auto. Qed.

Lemma disk_check_schedule now : keeps disk_view (check_schedule now).
Proof.
  unfold check_schedule, call_async_slot, create_task. keeps_auto.
  destruct a2; keeps_auto.
Qed.

Lemma disk_scheduled_feed : keeps disk_view scheduled_feed.
Proof. unfold scheduled_feed. keeps_auto. Qed.

Lemma disk_on_feed : keeps disk_view on_feed.
Proof. unfold on_feed. keeps_auto. Qed.

Lemma synced_view (st st' : State) :
  disk_view st' = disk_view st → synced st → synced st'.
Proof. unfold synced. by intros [= -> ->]. Qed.

Lemma synced_saved (st : State) : synced (save_schedule WriteOk st).2.
Proof. done. Qed.

Lemma synced_restart (st : State) :
  synced st → schedule <$> init (schedule_file st) = Some (schedule st).
Proof. intros ->. apply init_dumps. Qed.

(** X5: every change of the schedule is on disk when the handler returns.
    After [add_time] took a new time, and after [remove_time] dropped a
    row, with a write that succeeds, the file holds the text [json.dump]
    writes for the schedule now in memory, and starting the application
    again from that file gives that schedule back. *)
Theorem change_is_saved (st : State) :
  (∀ time,
     time ≠ EmptyString → is_ok (strptime_HM time) = true →
     time ∉ schedule st →
     let st' := (add_time time true WriteOk st).2 in
     schedule st' = merge_sort String.le (schedule st ++ [time]) ∧
     schedule_file st' = Text (Json.dumps (schedule st')) ∧
     schedule <$> init (schedule_file st') = Some (schedule st')) ∧
  (∀ i,
     i < length (schedule st) →
     let st' := (remove_time (Z.of_nat i) WriteOk st).2 in
     schedule st' = delete i (schedule st) ∧
     schedule_file st' = Text (Json.dumps (schedule st')) ∧
     schedule <$> init (schedule_file st') = Some (schedule st')).
Proof.
  split.
  - intros time Htime Hparse Hin. cbn zeta. rewrite add_time_cases.
    rewrite Hparse, (bool_decide_eq_false_2 _ Htime),
      (bool_decide_eq_false_2 _ Hin). cbn [andb negb].
    split; [done|].
    split; [apply synced_saved|apply synced_restart, synced_saved].
  - intros i Hi. cbn zeta. rewrite remove_time_cases, Nat2Z.id.
    rewrite (proj2 (Z.leb_le 0 _)) by lia.
    rewrite (proj2 (Nat.ltb_lt _ _)) by done.
    split; [done|].
    split; [apply synced_saved|apply synced_restart, synced_saved].
Qed.

Lemma change_is_saved_witness :
  schedule (add_time "09:30" true WriteOk first_start).2
    = ["06:00"; "09:30"; "12:00"; "16:02"] ∧
  schedule <$>
    init (schedule_file (remove_time (Z.of_nat 1) WriteOk first_start).2)
    = Some (schedule (remove_time (Z.of_nat 1) WriteOk first_start).2).
Proof.
  split.
  - apply (proj1 (change_is_saved first_start) "09:30");
      [discriminate|reflexivity|].
    apply (bool_decide_unpack _). by vm_compute.
  - apply (proj2 (change_is_saved first_start) 1). vm_compute. lia.
Defined.

Lemma handle_synced (ev : event) (st : State) :
  writes_ok ev → synced st → synced (handle ev st).2.
Proof.
  intros Hev Hst. destruct ev; cbn [handle writes_ok] in *.
  - by apply (synced_view st); [apply disk_check_schedule|].
  - by apply (synced_view st); [apply disk_on_connect|].
  - subst w. rewrite add_time_cases.
    repeat match goal with |- context [if ?b then _ else _] => destruct b end;
      try done.
  - subst w. rewrite remove_time_cases.
    repeat match goal with |- context [if ?b then _ else _] => destruct b end;
      try done.
  - by apply (synced_view st); [apply disk_on_feed|].
  - by apply (synced_view st); [apply disk_scheduled_feed|].
Qed.

(** X6: once the file holds the schedule it keeps doing so.  If the file
    is the text [json.dump] writes for the schedule in memory, it still is
    after any sequence of events whose writes succeed: the handlers that
    change the schedule save it, the others touch neither.  So a restart
    at any later moment finds the schedule as it was left. *)
Theorem disk_follows_schedule (evs : list event) (st : State) :
  Forall writes_ok evs → synced st →
  schedule_file (run evs st) = Text (Json.dumps (schedule (run evs st))) ∧
  schedule <$> init (schedule_file (run evs st))
    = Some (schedule (run evs st)).
Proof.
  intros Hevs Hst.
  assert (synced (run evs st)) as Hrun.
  { revert st Hst. induction Hevs as [|ev evs Hev _ IH]; intros st Hst;
      [done|].
    rewrite run_cons. by apply IH, handle_synced. }
  split; [done|by apply synced_restart].
Qed.

Lemma disk_follows_schedule_witness :
  schedule <$>
    init (schedule_file
            (run [AddTimeClicked "6:00" true WriteOk; FeedClicked;
                  RemoveClicked 0 WriteOk]
               (save_schedule WriteOk first_start).2))
  = Some ["12:00"; "16:02"; "6:00"].
Proof.
  refine (proj2 (disk_follows_schedule
                   [AddTimeClicked "6:00" true WriteOk; FeedClicked;
                    RemoveClicked 0 WriteOk]
                   (save_schedule WriteOk first_start).2 _ _)).
  - repeat constructor.
  - reflexivity.
Defined.

(** ** The motor *)

Lemma feed_view_save_schedule w : keeps feed_view (save_schedule w).
Proof.
  unfold save_schedule, write_text. keeps_auto. destruct w; keeps_auto.
Qed.

#[local] Hint Resolve feed_view_save_schedule : keeps.

Lemma feed_view_add_time time ok w : keeps feed_view (add_time time ok w).
Proof. unfold add_time. keeps_auto. Qed.

Lemma feed_view_remove_time selected w :
  keeps feed_view (remove_time selected w).
Proof. unfold remove_time. keeps_auto. Qed.

Lemma feed_view_on_connect o :
  (∀ m, o ≠ Reached m) → keeps feed_view (on_connect o).
Proof.
  intros Ho. unfold on_connect. keeps_auto. destruct o; keeps_auto.
  by destruct (Ho m).
Qed.

Lemma not_connected_not_ready (st : State) :
  connected st = false → not_ready st = true.
Proof. unfold not_ready. by intros ->. Qed.

Lemma handle_not_connected (ev : event) (st : State) :
  connected st = false → connects ev = false →
  feed_view (handle ev st).2 = feed_view st.
Proof.
  intros Hst Hev. pose proof (not_connected_not_ready st Hst) as Hready.
  destruct ev; cbn [handle].
  - by rewrite check_schedule_unfold, Hready.
  - apply feed_view_on_connect. by intros m ->.
  - apply feed_view_add_time.
  - apply feed_view_remove_time.
  - unfold on_feed. unfold mbind at 1. unfold M_bind, gets. cbn [id].
    by rewrite Hready.
  - unfold scheduled_feed. unfold mbind at 1. unfold M_bind, gets. cbn [id].
    by rewrite Hready.
Qed.

(** X7: nothing is fed before the robot is connected.  From a state that
    is not connected, as the application is when it starts, and over any
    sequence of events without a connection attempt that goes through
    (timer ticks at scheduled minutes, clicks on Feed Now, failed
    connection attempts, even a stray scheduled-feed task), no command is
    sent to the motor, no feed task is created, and the marker of the last
    feed is not set. *)
Theorem no_feed_before_connection (evs : list event) (st : State) :
  connected st = false → Forall (λ ev, connects ev = false) evs →
  connected (run evs st) = false ∧
  motor_calls (run evs st) = motor_calls st ∧
  tasks (run evs st) = tasks st ∧
  last_feed_time (run evs st) = last_feed_time st.
Proof.
  intros Hst Hevs.
  assert (feed_view (run evs st) = feed_view st) as Hview.
  { revert st Hst. induction Hevs as [|ev evs Hev _ IH]; intros st Hst;
      [done|].
    rewrite run_cons.
    pose proof (handle_not_connected ev st Hst Hev) as Hstep.
    rewrite IH; [done|]. injection Hstep as -> _ _ _. done. }
  injection Hview as -> -> -> ->. done.
Qed.

Lemma no_feed_before_connection_witness :
  motor_calls
    (run [TimerTick (mk_datetime 1 6 0 0); FeedClicked; TaskRuns;
          ConnectClicked
            (CameraFails motor_ok (mk_exc ValueError "no camera"));
          TimerTick (mk_datetime 1 6 0 30); FeedClicked]
       first_start) = [].
Proof.
  refine (proj1 (proj2 (no_feed_before_connection
    [TimerTick (mk_datetime 1 6 0 0); FeedClicked; TaskRuns;
     ConnectClicked (CameraFails motor_ok (mk_exc ValueError "no camera"));
     TimerTick (mk_datetime 1 6 0 30); FeedClicked]
    first_start _ _))).
  - reflexivity.
  - repeat constructor.
Defined.

(** X8: what a connection attempt leaves.  When all three calls return,
    the state is ready to feed, with the motor and the camera stored, the
    Feed Now and Refresh Camera buttons enabled and the Connect button
    still disabled.  When one of them raises an [Exception], whichever it
    is, the handler returns, [connected] is what it was (so a first
    attempt that fails leaves the feeder not ready, also when the motor
    was found and only the camera was not), the Feed Now button is what
    it was, the Connect button is enabled again, the status says the
    connection failed and one dialog shows the text of the error. *)
Theorem on_connect_outcomes (st : State) :
  (∀ m,
     let st' := (on_connect (Reached m) st).2 in
     (on_connect (Reached m) st).1 = Ok () ∧
     not_ready st' = false ∧ stepper st' = Some m ∧ camera st' = true ∧
     feed_btn st' = true ∧ refresh_cam_btn st' = true ∧
     connect_btn st' = false ∧ status_label st' = "Status: Connected!") ∧
  (∀ o e,
     outcome_error o = Some e → isinstance e Exception = true →
     let st' := (on_connect o st).2 in
     (on_connect o st).1 = Ok () ∧
     connected st' = connected st ∧ feed_btn st' = feed_btn st ∧
     connect_btn st' = true ∧
     status_label st' = "Status: Connection failed" ∧
     dialogs st' = dialogs st ++ [Critical "Connection Error" (str e)]).
Proof.
  split.
  - intros m. cbn zeta. unfold on_connect. unfold_m. cbn.
    done.
  - intros o e Ho He. cbn zeta. unfold on_connect. unfold_m.
    destruct o as [e'|e'|m e'|m]; cbn in *; [| | |done];
      injection Ho as ->; by rewrite He.
Qed.

Lemma on_connect_outcomes_witness :
  not_ready
    (on_connect (CameraFails motor_ok (mk_exc ValueError "no camera"))
       first_start).2 = true ∧
  connect_btn
    (on_connect (CameraFails motor_ok (mk_exc ValueError "no camera"))
       first_start).2 = true.
Proof.
  destruct (proj2 (on_connect_outcomes first_start)
              (CameraFails motor_ok (mk_exc ValueError "no camera"))
              (mk_exc ValueError "no camera") eq_refl eq_refl)
    as (_ & Hconnected & _ & Hbtn & _).
  split; [|exact Hbtn].
  unfold not_ready. rewrite Hconnected. reflexivity.
Defined.

(** X10: the status line says "complete" exactly when the motor carried
    out both commands.  In a ready state, [on_feed] ends with the status
    "Status: Feed complete!", and [scheduled_feed] with "Status: Scheduled
    feed complete!", if and only if neither the run command nor the stop
    command raised.  A stop that fails after a completed run is reported
    as a failed feed although the portion was dispensed. *)
Theorem feed_status_complete (st : State) (m : Motor) :
  connected st = true → stepper st = Some m →
  let sent := motor_calls st in
  let both := motor_reply m sent run_cmd = None ∧
              motor_reply m (sent ++ [run_cmd]) Stop = None in
  (status_label (on_feed st).2 = "Status: Feed complete!" ↔ both) ∧
  (status_label (scheduled_feed st).2 = "Status: Scheduled feed complete!"
     ↔ both).
Proof.
  intros Hc Hm. cbn zeta.
  pose proof (not_ready_false st m Hc Hm) as Hready.
  split.
  - enter_guard; [done|]. replace m0 with m by congruence.
    destruct (motor_reply m _ run_cmd) as [e|]; cbn.
    { destruct (isinstance e Exception); cbn; intuition congruence. }
    destruct (motor_reply m _ Stop) as [e|]; cbn; [|done].
    destruct (isinstance e Exception); cbn; intuition congruence.
  - enter_guard; [done|]. replace m0 with m by congruence.
    destruct (motor_reply m _ run_cmd) as [e|]; cbn.
    { destruct (isinstance e Exception); cbn; intuition congruence. }
    destruct (motor_reply m _ Stop) as [e|]; cbn; [|done].
    destruct (isinstance e Exception); cbn; intuition congruence.
Qed.

Lemma feed_status_complete_witness :
  status_label
    (on_feed (ready_state motor_ok DEFAULT_SCHEDULE None)).2
    = "Status: Feed complete!".
Proof.
  apply (proj1 (feed_status_complete
                  (ready_state motor_ok DEFAULT_SCHEDULE None) motor_ok
                  eq_refl eq_refl)).
  split; reflexivity.
Defined.

(** X11: the guard and the [finally] clause of the feed actions.  In a
    state that is not ready, [on_feed] shows the warning "Not Connected"
    and [scheduled_feed] does nothing; nothing else changes.  In a ready
    state the Feed Now button is enabled when [on_feed] is over, whatever
    the motor answered, also when the error is not an [Exception] and
    leaves the handler. *)
Theorem on_feed_guard_and_button (st : State) :
  (not_ready st = true →
     on_feed st =
       (Ok (), set_dialogs
                 (dialogs st ++
                    [Warning "Not Connected" "Connect to the robot first."])
                 st) ∧
     scheduled_feed st = (Ok (), st)) ∧
  (not_ready st = false → feed_btn (on_feed st).2 = true).
Proof.
  split; intros Hready.
  - split.
    + unfold on_feed. unfold mbind at 1. unfold M_bind, gets. cbn [id].
      by rewrite Hready.
    + unfold scheduled_feed. unfold mbind at 1. unfold M_bind, gets.
      cbn [id]. by rewrite Hready.
  - enter_guard; [done|].
    destruct (motor_reply m _ run_cmd) as [e|]; cbn.
    { by destruct (isinstance e Exception). }
    destruct (motor_reply m _ Stop) as [e|]; cbn; [|done].
    by destruct (isinstance e Exception).
Qed.

Lemma on_feed_guard_and_button_witness :
  scheduled_feed first_start = (Ok (), first_start) ∧
  feed_btn
    (on_feed
       (ready_state
          (mk_Motor (λ _ _, Some (mk_exc CancelledError "cancelled")))
          DEFAULT_SCHEDULE None)).2 = true.
Proof.
  split.
  - apply (proj1 (on_feed_guard_and_button first_start)). reflexivity.
  - apply (proj2 (on_feed_guard_and_button
                    (ready_state
                       (mk_Motor
                          (λ _ _, Some (mk_exc CancelledError "cancelled")))
                       DEFAULT_SCHEDULE None))).
    reflexivity.
Defined.

(** ** Adding and removing, composed *)

Lemma sorted_perm_eq (l1 l2 : list string) :
  Sorted String.le l1 → Sorted String.le l2 → l1 ≡ₚ l2 → l1 = l2.
Proof. apply (Sorted_unique String.le). Qed.

Lemma elem_of_sort (x : string) (l : list string) :
  x ∈ merge_sort String.le l ↔ x ∈ l.
Proof. by rewrite sort_perm. Qed.

(** The schedule after [add_time]: [c] tells whether the dialog was
    confirmed with a text that is not empty and that [strptime] accepts. *)
Lemma extend_comm (a b : string) (ca cb : bool) (l : list string) :
  let extend t c l :=
    if c && negb (bool_decide (t ∈ l))
    then merge_sort String.le (l ++ [t]) else l in
  extend b cb (extend a ca l) = extend a ca (extend b cb l).
Proof.
  cbn zeta. destruct ca, cb; cbn [andb]; try done.
  destruct (decide (a = b)) as [->|Hab]; [done|].
  assert (∀ x y : string, x ≠ y →
            bool_decide (x ∈ merge_sort String.le (l ++ [y]))
              = bool_decide (x ∈ l)) as Hin.
  { intros x y Hxy. apply bool_decide_ext.
    rewrite elem_of_sort, elem_of_app, list_elem_of_singleton.
    intuition. }
  destruct (bool_decide (a ∈ l)) eqn:Ha, (bool_decide (b ∈ l)) eqn:Hb;
    cbn [negb]; rewrite ?Hin, ?Ha, ?Hb by done; cbn [negb]; try done.
  apply sorted_perm_eq; [apply sort_sorted..|].
  rewrite !sort_perm, <- !app_assoc. apply Permutation_app_head.
  apply perm_swap.
Qed.

(** X12: the schedule does not depend on the order in which two times are
    entered.  Whatever the two dialogs return (a valid time, a text
    [strptime] refuses, a time the schedule holds, a cancelled dialog) and
    whatever the disk does, adding [a] and then [b] leaves the same
    schedule in memory as adding [b] and then [a]. *)
Theorem add_time_order_free (a b : string) (oka okb : bool)
    (w1 w2 w3 w4 : write_outcome) (st : State) :
  schedule (add_time b okb w2 (add_time a oka w1 st).2).2 =
  schedule (add_time a oka w4 (add_time b okb w3 st).2).2.
Proof.
  rewrite !add_time_schedule.
  apply (extend_comm a b
           (oka && negb (bool_decide (a = EmptyString))
                && is_ok (strptime_HM a))
           (okb && negb (bool_decide (b = EmptyString))
                && is_ok (strptime_HM b))).
Qed.

(** X13: removing the row of a time just added undoes the addition.  If
    the schedule is sorted and [add_time] took a new time, the new time
    stands in some row of the schedule, and [remove_time] on that row
    gives the schedule back as it was before. *)
Theorem add_then_remove (st : State) (time : string) (w w' : write_outcome) :
  Sorted String.le (schedule st) →
  time ≠ EmptyString → is_ok (strptime_HM time) = true →
  time ∉ schedule st →
  let st' := (add_time time true w st).2 in
  ∃ i, schedule st' !! i = Some time ∧
       schedule (remove_time (Z.of_nat i) w' st').2 = schedule st.
Proof.
  intros Hsorted Htime Hparse Hnew st'.
  assert (schedule st' = merge_sort String.le (schedule st ++ [time]))
    as Hsch.
  { subst st'. rewrite add_time_schedule, Hparse.
    by rewrite (bool_decide_eq_false_2 _ Htime),
      (bool_decide_eq_false_2 _ Hnew). }
  assert (time ∈ schedule st') as [i Hi]%list_elem_of_lookup.
  { rewrite Hsch, elem_of_sort, elem_of_app, list_elem_of_singleton.
    by right. }
  exists i. split; [done|].
  rewrite remove_time_schedule, Nat2Z.id.
  rewrite (proj2 (Z.leb_le 0 _)) by lia.
  rewrite (proj2 (Nat.ltb_lt _ _)) by (by eapply lookup_lt_Some).
  cbn [andb]. apply sorted_perm_eq; [|done|].
  - apply StronglySorted_Sorted.
    apply (StronglySorted_sublist _ _ (schedule st')); [apply sublist_delete|].
    apply Sorted_StronglySorted; [apply _|]. rewrite Hsch. apply sort_sorted.
  - apply (Permutation_cons_inv (a:=time)).
    rewrite <- (delete_Permutation _ _ _ Hi), Hsch, sort_perm.
    by rewrite Permutation_app_comm.
Qed.

Lemma add_then_remove_witness :
  ∃ i,
    schedule (add_time "09:30" true WriteOk first_start).2 !! i
      = Some "09:30" ∧
    schedule
      (remove_time (Z.of_nat i) WriteOk
         (add_time "09:30" true WriteOk first_start).2).2
      = schedule first_start.
Proof.
  apply (add_then_remove first_start "09:30" WriteOk WriteOk).
  - apply (bool_decide_unpack _). by vm_compute.
  - discriminate.
  - reflexivity.
  - apply (bool_decide_unpack _). by vm_compute.
Defined.

(** ** The schedule and the clock *)

Lemma ready_view_save_schedule w : keeps ready_view (save_schedule w).
Proof.
  unfold save_schedule, write_text. keeps_auto. destruct w; keeps_auto.
Qed.

#[local] Hint Resolve ready_view_save_schedule : keeps.

Lemma ready_view_add_time time ok w : keeps ready_view (add_time time ok w).
Proof. unfold add_time. keeps_auto. Qed.

Lemma ready_view_remove_time selected w :
  keeps ready_view (remove_time selected w).
Proof. unfold remove_time. keeps_auto. Qed.

(** X14: a removed time does not feed any more.  If the schedule has no
    duplicates and row [i] holds the time [t], then after [remove_time] on
    row [i] the schedule does not hold [t], and [check_schedule] at a
    moment the clock writes as [t] starts no feed. *)
Theorem removed_entry_is_off (st : State) (i : nat) (t : string)
    (w : write_outcome) (now : datetime) :
  NoDup (schedule st) → schedule st !! i = Some t → strftime_HM now = t →
  let st' := (remove_time (Z.of_nat i) w st).2 in
  (t ∉ schedule st') ∧ (tick now st').1 = false.
Proof.
  intros Hnodup Hi Hnow st'.
  assert (t ∉ schedule st') as Hgone.
  { subst st'. rewrite remove_time_schedule, Nat2Z.id.
    rewrite (proj2 (Z.leb_le 0 _)) by lia.
    rewrite (proj2 (Nat.ltb_lt _ _)) by (by eapply lookup_lt_Some).
    cbn [andb]. rewrite (delete_Permutation _ _ _ Hi) in Hnodup.
    by apply NoDup_cons in Hnodup as [? _]. }
  split; [done|].
  rewrite tick_unfold, Hnow, (bool_decide_eq_false_2 _ Hgone).
  by rewrite andb_false_r.
Qed.

Lemma removed_entry_is_off_witness :
  ("12:00" ∉
     schedule
       (remove_time (Z.of_nat 1) WriteOk
          (ready_state motor_ok DEFAULT_SCHEDULE None)).2) ∧
  (tick (mk_datetime 1 12 0 0)
     (remove_time (Z.of_nat 1) WriteOk
        (ready_state motor_ok DEFAULT_SCHEDULE None)).2).1 = false.
Proof.
  apply (removed_entry_is_off (ready_state motor_ok DEFAULT_SCHEDULE None)
           1 "12:00" WriteOk (mk_datetime 1 12 0 0)).
  - apply (bool_decide_unpack _). by vm_compute.
  - reflexivity.
  - reflexivity.
Defined.

(** X15: a time that was added feeds when the clock reaches it.  After
    [add_time] was given a text [strptime] accepts, in a ready state,
    [check_schedule] at a moment the clock writes as that text starts a
    feed and sets the marker to it, unless the marker is that text
    already; and this whatever the disk did with the write. *)
Theorem added_entry_fires (st : State) (time : string) (w : write_outcome)
    (now : datetime) :
  time ≠ EmptyString → is_ok (strptime_HM time) = true →
  not_ready st = false → strftime_HM now = time →
  last_feed_time st ≠ Some time →
  tick now (add_time time true w st).2 = (true, Some time).
Proof.
  intros Htime Hparse Hready Hnow Hmarker.
  pose proof (ready_view_add_time time true w st) as Hview.
  injection Hview as Hready' Hmarker'.
  rewrite tick_unfold, Hnow, Hready', Hmarker', Hready.
  rewrite (bool_decide_eq_false_2 _ Hmarker).
  rewrite bool_decide_eq_true_2; [done|].
  rewrite add_time_schedule, Hparse, (bool_decide_eq_false_2 _ Htime).
  cbn [andb negb]. case_bool_decide as Hin; [done|]. cbn [negb].
  rewrite elem_of_sort, elem_of_app, list_elem_of_singleton. by right.
Qed.

Lemma added_entry_fires_witness :
  tick (mk_datetime 1 9 30 0)
    (add_time "09:30" true (OpenFails (mk_exc OSError "read-only"))
       (ready_state motor_ok DEFAULT_SCHEDULE (Some "06:00"))).2
  = (true, Some "09:30").
Proof.
  apply (added_entry_fires
           (ready_state motor_ok DEFAULT_SCHEDULE (Some "06:00")) "09:30"
           (OpenFails (mk_exc OSError "read-only")) (mk_datetime 1 9 30 0)).
  - discriminate.
  - reflexivity.
  - reflexivity.
  - reflexivity.
  - discriminate.
Defined.

(** X16: a feed starts only at the minute its entry names.  When
    [check_schedule] starts a feed, the schedule holds an entry equal to
    the clock text; that entry is in the strict format of two digits, a
    colon and two digits, [strptime] reads the hour and the minute of the
    clock back from it, and the marker is set to it.  An entry in any
    other form (one [add_time] accepted with one digit, or one read from
    the file) never starts a feed. *)
Theorem feed_at_the_minute (st : State) (now : datetime) :
  valid_datetime now → (tick now st).1 = true →
  ∃ entry,
    entry ∈ schedule st ∧ strict_hhmm entry = true ∧
    strptime_HM entry = Ok (dt_hour now, dt_minute now) ∧
    (tick now st).2 = Some entry.
Proof.
  intros Hnow. rewrite tick_unfold.
  destruct (strftime_strict now Hnow) as [Hstrict Hparse].
  destruct (negb (not_ready st)); [|done]. cbn [andb].
  case_bool_decide as Hin; [|done]. cbn [andb].
  destruct (negb _); [|done]. intros _.
  by exists (strftime_HM now).
Qed.

Lemma feed_at_the_minute_witness :
  ∃ entry,
    entry ∈ DEFAULT_SCHEDULE ∧ strict_hhmm entry = true ∧
    strptime_HM entry = Ok (16, 2) ∧
    (tick (mk_datetime 1 16 2 59)
       (ready_state motor_ok DEFAULT_SCHEDULE None)).2 = Some entry.
Proof.
  apply (feed_at_the_minute (ready_state motor_ok DEFAULT_SCHEDULE None)
           (mk_datetime 1 16 2 59)).
  - unfold valid_datetime. cbn. lia.
  - reflexivity.
Defined.

(** ** The disk fails *)

(** X17: a change made while the disk cannot be written is kept in memory
    only.  When opening the file fails with an [Exception], [add_time] and
    [remove_time] still return and still change the schedule and the list
    widget; one line reporting the failure is printed, no dialog is
    shown, and the file is as it was, so the next start does not see the
    change. *)
Theorem unwritable_disk (st : State) (e : exc) :
  isinstance e Exception = true →
  (∀ time,
     time ≠ EmptyString → is_ok (strptime_HM time) = true →
     time ∉ schedule st →
     add_time time true (OpenFails e) st =
       (Ok (), set_stdout (stdout st ++ [save_failed e]) (added time st))) ∧
  (∀ i,
     i < length (schedule st) →
     remove_time (Z.of_nat i) (OpenFails e) st =
       (Ok (), set_stdout (stdout st ++ [save_failed e]) (removed i st))).
Proof.
  intros He. split.
  - intros time Htime Hparse Hnew. rewrite add_time_cases, Hparse.
    rewrite (bool_decide_eq_false_2 _ Htime), (bool_decide_eq_false_2 _ Hnew).
    cbn [andb negb]. unfold save_schedule, write_text. unfold_m. cbn.
    by rewrite He.
  - intros i Hi. rewrite remove_time_cases, Nat2Z.id.
    rewrite (proj2 (Z.leb_le 0 _)) by lia.
    rewrite (proj2 (Nat.ltb_lt _ _)) by done.
    unfold save_schedule, write_text. unfold_m. cbn. by rewrite He.
Qed.

Lemma unwritable_disk_witness :
  schedule_file
    (add_time "09:30" true (OpenFails (mk_exc OSError "read-only"))
       first_start).2 = NoFile ∧
  schedule
    (remove_time (Z.of_nat 0) (OpenFails (mk_exc OSError "read-only"))
       first_start).2 = ["12:00"; "16:02"].
Proof.
  destruct (unwritable_disk first_start (mk_exc OSError "read-only") eq_refl)
    as [Hadd Hremove].
  split.
  - rewrite (Hadd "09:30"); [reflexivity|discriminate|reflexivity|].
    apply (bool_decide_unpack _). by vm_compute.
  - rewrite (Hremove 0); [reflexivity|]. vm_compute. lia.
Defined.

(** ** Loading and start-up *)

Lemma load_schedule_frame (st : State) :
  but_stdout (load_schedule st).2 = but_stdout st.
Proof.
  unfold load_schedule. unfold_m. cbn.
  destruct (schedule_file st) as [|msg|msg|t]; cbn; try done.
  destruct (Json.loads t) as [v|e] eqn:Hloads; cbn.
  - by destruct v.
  - by rewrite (loads_raises_exception t e Hloads).
Qed.

(** X18: what [load_schedule] reports.  It prints one line, which starts
    with "[SCHEDULE] Failed to load schedule: ", when the file is there
    and opening, reading or decoding it raises: the text of the error
    follows for a file that cannot be opened or read, some text follows
    for a text that is not JSON.  It prints nothing when there is no
    file, and nothing when the file holds JSON made of constants and
    strings, also when that is not a list, for which it falls back to the
    default without a word.  In every case nothing but the printed lines
    changes: the file is not rewritten. *)
Theorem load_schedule_report (st : State) :
  (schedule_file st = NoFile ∨
   (∃ t v, schedule_file st = Text t ∧ Json.loads t = Ok v ∧
           plain v = true) →
     (load_schedule st).2 = st) ∧
  (∀ t e, schedule_file st = Text t → Json.loads t = Raise e →
     ∃ e', (load_schedule st).2
             = set_stdout (stdout st ++ [load_failed e']) st) ∧
  (∀ msg, schedule_file st = Unreadable msg →
     (load_schedule st).2
       = set_stdout (stdout st ++ [load_failed (mk_exc OSError msg)]) st) ∧
  (∀ msg, schedule_file st = Undecodable msg →
     (load_schedule st).2
       = set_stdout (stdout st ++ [load_failed (mk_exc ValueError msg)])
           st) ∧
  but_stdout (load_schedule st).2 = but_stdout st.
Proof.
  split; [|split; [|split; [|split]]]; [| | | |apply load_schedule_frame];
    unfold load_schedule; unfold_m; cbn.
  - intros [Hf | (t & v & Hf & Hloads & _)]; rewrite Hf; cbn; [done|].
    rewrite Hloads. by destruct v.
  - intros t e Hf Hloads. exists e. rewrite Hf. cbn. rewrite Hloads.
    by rewrite (loads_raises_exception t e Hloads).
  - intros msg Hf. by rewrite Hf.
  - intros msg Hf. by rewrite Hf.
Qed.

Lemma load_schedule_report_witness :
  (load_schedule (set_schedule_file (Text "true") first_start)).2
    = set_schedule_file (Text "true") first_start ∧
  (load_schedule
     (set_schedule_file (Undecodable "invalid start byte") first_start)).2
    = set_stdout
        [load_failed (mk_exc ValueError "invalid start byte")]
        (set_schedule_file (Undecodable "invalid start byte") first_start) ∧
  ∃ e', (load_schedule (set_schedule_file (Text "[") first_start)).2
          = set_stdout [load_failed e']
              (set_schedule_file (Text "[") first_start).
Proof.
  split; [|split].
  - apply (proj1 (load_schedule_report
                    (set_schedule_file (Text "true") first_start))).
    right. exists "true", (PyBool true). split; [|split]; reflexivity.
  - apply (proj1 (proj2 (proj2 (proj2 (load_schedule_report
             (set_schedule_file (Undecodable "invalid start byte")
                first_start))))) "invalid start byte").
    reflexivity.
  - refine (proj1 (proj2 (load_schedule_report
              (set_schedule_file (Text "[") first_start)))
              "[" (Json.decode_error "Expecting value") _ _);
      reflexivity.
Defined.

(** X19: how the application starts.  With a schedule file that is
    absent, cannot be opened or read, is not JSON, or holds JSON that is
    not a list, [__init__] ends with the default schedule; with a file
    that holds a JSON list of strings of characters up to U+00FF it ends
    with that list.  In each of these cases the application is not
    connected and not ready to feed, nothing was sent to the motor, no
    task and no dialog exists, the marker of the last feed is empty, the
    Feed Now and Refresh Camera buttons are disabled, the file is what it
    was, and the list widget shows the schedule.  (A list with other
    items is outside this statement.) *)
Theorem init_state (f : file) :
  ((f = NoFile ∨ (∃ msg, f = Unreadable msg) ∨
    (∃ msg, f = Undecodable msg) ∨
    (∃ t e, f = Text t ∧ Json.loads t = Raise e) ∨
    (∃ t v, f = Text t ∧ Json.loads t = Ok v ∧ is_list v = None)) →
     ∃ out, init f = Some (started f DEFAULT_SCHEDULE out)) ∧
  (∀ t l sch,
     f = Text t → Json.loads t = Ok (PyList l) → schedule_of l = Some sch →
     init f = Some (started f sch [])) ∧
  (∀ sch out, not_ready (started f sch out) = true).
Proof.
  split; [|split]; [| |done].
  - unfold init, load_schedule. unfold_m.
    intros [-> | [[msg ->] | [[msg ->] | [(t & e & -> & Hloads) |
             (t & v & -> & Hloads & Hv)]]]]; cbn.
    + by eexists.
    + by eexists.
    + by eexists.
    + rewrite Hloads, (loads_raises_exception t e Hloads). by eexists.
    + rewrite Hloads. cbn. rewrite Hv. by eexists.
  - intros t l sch -> Hloads Hsch.
    unfold init, load_schedule. unfold_m. cbn. rewrite Hloads. cbn.
    by rewrite Hsch.
Qed.

Lemma init_state_witness :
  (∃ out,
     init (Undecodable "invalid start byte")
       = Some (started (Undecodable "invalid start byte")
                 DEFAULT_SCHEDULE out)) ∧
  (∃ out,
     init (Text "not json")
       = Some (started (Text "not json") DEFAULT_SCHEDULE out)) ∧
  init (Text (json_list3 "12:00" "06:00" "06:00"))
    = Some (started (Text (json_list3 "12:00" "06:00" "06:00"))
              ["12:00"; "06:00"; "06:00"] []).
Proof.
  split; [|split].
  - apply (proj1 (init_state (Undecodable "invalid start byte"))).
    right. right. left. by eexists.
  - apply (proj1 (init_state (Text "not json"))).
    right. right. right. left. eexists _, _. split; reflexivity.
  - apply (proj1 (proj2 (init_state
             (Text (json_list3 "12:00" "06:00" "06:00"))))
             (json_list3 "12:00" "06:00" "06:00")
             (py_schedule ["12:00"; "06:00"; "06:00"]));
      reflexivity.
Defined.

(** ** The camera *)

Ltac unfold_mw :=
  unfold on_refresh_camera, refresh_camera_auto, _refresh_camera;
  unfold mbind, MW_bind, mret, MW_ret, in_app, MW_try_except, MW_try_finally,
    get_image, set_pixmap, create_refresh_task, gets, modify, show_dialog;
  cbn.

(** X20: the camera functions keep to themselves.  [_refresh_camera]
    leaves the Refresh Camera button enabled on every path: the early
    return when there is no connection, the normal end, the handled
    error, and an error that is not an [Exception] and leaves through the
    [finally] clause.  Apart from that button, the status line and the
    dialogs, no attribute of the application changes: the schedule, the
    marker, the file and the motor are not touched. *)
Theorem refresh_camera_button (auto : bool) (reply : res image)
    (w : Window) :
  let st' := core (_refresh_camera auto reply w).2 in
  refresh_cam_btn st' = true ∧
  st' = set_refresh_cam_btn true
          (set_status_label (status_label st')
             (set_dialogs (dialogs st') (core w))).
Proof.
  cbn zeta. unfold_mw.
  destruct (connected (core w)), (camera (core w)), auto; cbn; try done;
    destruct reply as [img|e]; cbn; try done;
    by destruct (isinstance e Exception).
Qed.

(** X21: the automatic refresh is silent.  With [auto=True],
    [_refresh_camera] shows no dialog and leaves the status line alone,
    whether the camera is connected or not and whether the fetch works or
    raises: the attributes of the application are what they were, up to
    the Refresh Camera button, which is enabled.  An [Exception] of the
    camera is swallowed without a trace.  The timer slot
    [refresh_camera_auto] itself changes nothing: it hands one such
    refresh to the event loop when the camera is connected, and does
    nothing at all when it is not. *)
Theorem auto_refresh_silent (reply : res image) (w : Window) :
  core (_refresh_camera true reply w).2
    = set_refresh_cam_btn true (core w) ∧
  ((∀ e, reply = Raise e → isinstance e Exception = true) →
     (_refresh_camera true reply w).1 = Ok ()) ∧
  refresh_camera_auto w =
    (Ok (),
     if camera_ready w
     then mk_Window (core w) (camera_label w) (S (refreshes w)) else w).
Proof.
  unfold camera_ready. split; [|split].
  - unfold_mw.
    destruct (connected (core w)), (camera (core w)); cbn; try done;
      destruct reply as [img|e]; cbn; try done.
    by destruct (isinstance e Exception).
  - intros Hreply. unfold_mw.
    destruct (connected (core w)), (camera (core w)); cbn; try done;
      destruct reply as [img|e]; cbn; try done.
    by rewrite (Hreply e eq_refl).
  - destruct w as [st label queued]. unfold_mw.
    by destruct (connected st), (camera st).
Qed.

Lemma auto_refresh_silent_witness :
  camera_ready
    (mk_Window (set_camera true (ready_state motor_ok DEFAULT_SCHEDULE None))
       (Some "old picture") 0) = true ∧
  (_refresh_camera true (Raise (mk_exc RuntimeError "camera offline"))
     (mk_Window (set_camera true (ready_state motor_ok DEFAULT_SCHEDULE None))
        (Some "old picture") 0)).1
  = Ok ().
Proof.
  split; [reflexivity|].
  apply (proj1 (proj2 (auto_refresh_silent
           (Raise (mk_exc RuntimeError "camera offline"))
           (mk_Window
              (set_camera true (ready_state motor_ok DEFAULT_SCHEDULE None))
              (Some "old picture") 0)))).
  intros e [= <-]. reflexivity.
Defined.

(** X22: the picture.  [_refresh_camera] puts a new picture in the label
    exactly when the application is connected, holds a camera, and the
    camera returned an image; the label then shows the bytes of that
    image, taken from its [data] attribute if it has one.  In every other
    case, a failed fetch among them, the picture shown before stays.  A
    manual refresh that fails with an [Exception] returns, shows the
    dialog "Camera Error" with the text of the error and sets the status
    to "Status: Camera failed!". *)
Theorem camera_picture (auto : bool) (reply : res image) (w : Window) :
  camera_label (_refresh_camera auto reply w).2 =
    (if camera_ready w then
       match reply with
       | Ok img => Some (image_data img)
       | Raise _ => camera_label w
       end
     else camera_label w) ∧
  (∀ e, camera_ready w = true → reply = Raise e →
        isinstance e Exception = true →
        let w' := (on_refresh_camera reply w).2 in
        (on_refresh_camera reply w).1 = Ok () ∧
        dialogs (core w')
          = dialogs (core w) ++ [Critical "Camera Error" (str e)] ∧
        status_label (core w') = "Status: Camera failed!").
Proof.
  unfold camera_ready. split.
  - unfold_mw.
    destruct (connected (core w)), (camera (core w)), auto; cbn; try done;
      destruct reply as [[data|data]|e]; cbn; try done;
      by destruct (isinstance e Exception).
  - intros e Hready -> He. apply andb_prop in Hready as [Hc Hcam].
    unfold_mw. by rewrite Hc, Hcam, He.
Qed.

Lemma camera_picture_witness :
  dialogs
    (core
       (on_refresh_camera (Raise (mk_exc RuntimeError "camera offline"))
          (mk_Window
             (set_camera true (ready_state motor_ok DEFAULT_SCHEDULE None))
             (Some "old picture") 0)).2)
  = [Critical "Camera Error" "camera offline"].
Proof.
  refine (proj1 (proj2 (proj2 (camera_picture false
    (Raise (mk_exc RuntimeError "camera offline"))
    (mk_Window (set_camera true (ready_state motor_ok DEFAULT_SCHEDULE None))
       (Some "old picture") 0))
    (mk_exc RuntimeError "camera offline") _ _ _))); reflexivity.
Defined.

(** ** The texts [add_time] takes *)

(** The characters fall into seven kinds: 0 and 1, 2, 3, 4 and 5, the
    other digits, the colon, and the rest. *)
Lemma tests_cases (c : ascii) :
  kind_is c true false true true true false ∨
  kind_is c true true false true true false ∨
  kind_is c true false false true true false ∨
  kind_is c true false false false true false ∨
  kind_is c true false false false false false ∨
  kind_is c false false false false false true ∨
  kind_is c false false false false false false.
Proof.
  unfold kind_is.
  destruct c as [[] [] [] [] [] [] [] []]; vm_compute; tauto.
Qed.

Lemma not_digit (c : ascii) :
  is_digit c = false →
  bool_decide (c = "2"%char) = false ∧ char_in "0" "1" c = false ∧
  char_in "0" "3" c = false ∧ char_in "0" "5" c = false.
Proof.
  intros Hc.
  destruct (tests_cases c) as [K|[K|[K|[K|[K|[K|K]]]]]];
    destruct K as (? & ? & ? & ? & ? & ?); repeat split; congruence.
Qed.

Lemma two_digits_checked :
  forallb (λ a, forallb (two_digits_ok a) digits) digits = true.
Proof. by vm_compute. Qed.

Lemma two_digits_below (a b : ascii) :
  is_digit a && is_digit b && (10 * digit_val a + digit_val b <? 24)
    = bool_decide (a = "2"%char) && char_in "0" "3" b
      || char_in "0" "1" a && is_digit b ∧
  is_digit a && is_digit b && (10 * digit_val a + digit_val b <? 60)
    = char_in "0" "5" a && is_digit b.
Proof.
  destruct (is_digit a) eqn:Da.
  2: { by destruct (not_digit a Da) as (-> & -> & _ & ->). }
  destruct (is_digit b) eqn:Db.
  2: { destruct (not_digit b Db) as (_ & _ & -> & _).
       by rewrite !andb_false_r. }
  pose proof two_digits_checked as Hall.
  apply (forallb_elem _ _ a) in Hall; [|by apply is_digit_cases].
  apply (forallb_elem _ _ b) in Hall; [|by apply is_digit_cases].
  unfold two_digits_ok in Hall. apply andb_prop in Hall as [H24 H60].
  apply bool_decide_eq_true_1 in H24, H60. cbn [andb].
  by rewrite H24, H60, !andb_true_r.
Qed.

Ltac tests_simpl :=
  repeat (progress
    (cbn -[is_digit char_in bool_decide digit_val Nat.mul Nat.add];
     repeat match goal with
       | H : is_digit ?c = _ |- context [is_digit ?c] => rewrite H
       | H : bool_decide (?c = ?x) = _
         |- context [bool_decide (?c = ?x)] => rewrite H
       | H : char_in ?l ?h ?c = _ |- context [char_in ?l ?h ?c] =>
           rewrite H
       end)).

(** Case analysis on the kind of the character [c], with what the regular
    expression asks of it replaced by the answers. *)
Ltac kind c :=
  let K := fresh "K" in
  destruct (tests_cases c) as [K|[K|[K|[K|[K|[K|K]]]]]];
  destruct K as (?&?&?&?&?&?);
  tests_simpl; try reflexivity.

(** [strptime] accepts exactly the texts spelled out by [accepted_text]. *)
Lemma strptime_accepted_text (s : string) :
  is_ok (strptime_HM s) = accepted_text s.
Proof.
  unfold strptime_HM, accepted_text, regex_match_HM, hour_text, minute_text.
  destruct (list_ascii_of_string s) as [|a [|b [|c [|d [|e [|f r]]]]]];
    rewrite ?(proj1 (two_digits_below _ _)), ?(proj2 (two_digits_below _ _));
    cbn -[is_digit char_in bool_decide digit_val Nat.mul Nat.add]; try done.
  - kind a.
  - kind a; kind b.
  - kind a; kind b; kind c.
  - kind a; kind b; kind c; kind d.
  - kind a; kind b; kind c; kind d; kind e.
  - kind a; kind b; kind c; kind d; kind e.
Qed.

(** X23: which texts [add_time] takes, among the texts of characters up
    to U+00FF.  For such a text the schedule changes exactly when the
    dialog was confirmed, the schedule does not hold the text, and the
    text is an hour, a colon and a minute in the digits 0 to 9, the hour
    written with one digit or with two that make a number below 24, the
    minute with one digit or with two that make a number below 60.  So
    "6:00" and "06:5" are taken beside "06:00", and "24:00", "06:60",
    "0600", the empty text and a text with a blank are not.  (The decimal
    digits of other scripts, which [strptime] reads as digits too, lie
    beyond U+00FF and outside this statement.) *)
Theorem add_time_takes (st : State) (time : string) (ok : bool)
    (w : write_outcome) :
  schedule (add_time time ok w st).2 ≠ schedule st ↔
  ok = true ∧ accepted_text time = true ∧ time ∉ schedule st.
Proof.
  rewrite add_time_schedule, strptime_accepted_text.
  destruct ok; cbn [andb]; [|by intuition].
  destruct (accepted_text time) eqn:Htext;
    [|rewrite andb_false_r; by intuition].
  rewrite andb_true_r.
  case_bool_decide as Hempty; [by subst|]. cbn [negb andb].
  case_bool_decide as Hin; cbn [negb]; [by intuition|].
  split; [done|]. intros _ Heq. apply (f_equal length) in Heq.
  rewrite (Permutation_length (sort_perm _)), length_app in Heq.
  cbn in Heq. lia.
Qed.

(** ** A write that breaks off *)

Section json_torn.
Import Json.

Lemma string_length_list (s : string) :
  String.length s = length (list_ascii_of_string s).
Proof. induction s as [|c s IH]; [done|]. cbn. by rewrite IH. Qed.

Lemma escapes_torn : forallb escape_torn all_chars = true.
Proof. by vm_compute. Qed.

(** A piece of an escape is not an escape. *)
Lemma scanstring_escape_torn (c : ascii) (n : nat) :
  n < length (escape_char c) →
  is_ok (scanstring (take n (escape_char c))) = false.
Proof.
  intros Hn. pose proof escapes_torn as Hall.
  apply (forallb_elem _ _ c) in Hall.
  - unfold escape_torn in Hall.
    apply (forallb_elem _ _ n) in Hall; [|apply elem_of_seq; lia].
    by apply negb_true_iff in Hall.
  - unfold all_chars. apply list_elem_of_fmap.
    exists (nat_of_ascii c). split; [by rewrite ascii_nat_embedding|].
    apply elem_of_seq. pose proof (nat_ascii_bounded c). lia.
Qed.

Lemma is_ok_cons_char {A} u (r : res (pystr * A)) :
  is_ok (cons_char u r) = is_ok r.
Proof. by destruct r as [[]|]. Qed.

(** A string that breaks off before its closing quote is refused. *)
Lemma scanstring_torn (body : list ascii) (n : nat) :
  n < length ((body ≫= escape_char) ++ [dquote]) →
  is_ok (scanstring (take n ((body ≫= escape_char) ++ [dquote]))) = false.
Proof.
  revert n. induction body as [|c body IH]; intros n Hn.
  { cbn in Hn. by replace n with 0 by lia. }
  rewrite bind_cons, <- app_assoc in *. rewrite length_app in Hn.
  rewrite take_app.
  destruct (decide (n < length (escape_char c))) as [Hc|Hc].
  - replace (n - length (escape_char c)) with 0 by lia.
    rewrite take_0, app_nil_r. by apply scanstring_escape_torn.
  - rewrite take_ge by lia.
    rewrite scanstring_escape_char, is_ok_cons_char. apply IH. lia.
Qed.

Lemma scan_once_nil (fuel : nat) : is_ok (scan_once fuel []) = false.
Proof. by destruct fuel. Qed.

Lemma parse_array_nil (fuel : nat) : is_ok (parse_array fuel []) = false.
Proof. destruct fuel as [|[|fuel]]; done. Qed.

Lemma scan_once_str_torn (fuel : nat) (s : string) (n : nat) :
  n < length (encode_str s) →
  is_ok (scan_once fuel (take n (encode_str s))) = false.
Proof.
  unfold encode_str. intros Hn.
  destruct n as [|n]; [apply scan_once_nil|].
  destruct fuel as [|fuel]; [done|].
  cbn [take scan_once]. rewrite bool_decide_eq_true_2 by done.
  pose proof (scanstring_torn (list_ascii_of_string s) n) as Htorn.
  destruct (scanstring _) as [[str rest]|e]; [|done].
  apply Htorn. cbn [length] in Hn. lia.
Qed.

(** A piece of a list of items starts with a quote, if it has a start. *)
Lemma skip_ws_items_torn (s : string) (l : list string) (tail : list ascii)
    (n : nat) :
  skip_ws (take n (encode_items (s :: l) ++ tail))
    = take n (encode_items (s :: l) ++ tail).
Proof.
  destruct (encode_items_head s l) as [r ->].
  destruct n as [|n]; [done|]. by rewrite <- app_comm_cons.
Qed.

(** A list of items that breaks off before the closing bracket is
    refused. *)
Lemma parse_array_torn (fuel : nat) (l : list string) (n : nat) :
  l ≠ [] →
  n < length (encode_items l ++ ["]"%char]) →
  is_ok (parse_array fuel (take n (encode_items l ++ ["]"%char]))) = false.
Proof.
  revert fuel n. induction l as [|s l IH]; intros fuel n Hne Hn; [done|].
  destruct fuel as [|fuel]; [done|]. rewrite parse_array_step.
  assert (encode_items (s :: l) ++ ["]"%char] =
            encode_str s ++
              match l with
              | [] => ["]"%char]
              | _ => [","; " "]%char ++ encode_items l ++ ["]"%char]
              end) as Hitems.
  { destruct l; [done|]. cbn [encode_items]. by rewrite <- !app_assoc. }
  rewrite Hitems in *. clear Hitems. rewrite length_app in Hn.
  destruct (decide (n < length (encode_str s))) as [Hlt|Hge].
  { rewrite take_app_le by lia.
    pose proof (scan_once_str_torn fuel s n Hlt) as Htorn.
    by destruct (scan_once fuel _) as [[v r]|e]. }
  rewrite take_app_ge by lia.
  remember (n - length (encode_str s)) as k eqn:Hk.
  destruct fuel as [|fuel]; [done|]. rewrite scan_once_encoded_str.
  destruct l as [|s' l].
  { replace k with 0 by (cbn [length] in Hn; lia). done. }
  destruct k as [|[|k]]; [done| |].
  { cbn [take app]. rewrite skip_ws_stop by done.
    rewrite bool_decide_eq_false_2, bool_decide_eq_true_2 by done.
    pose proof (parse_array_nil (S fuel)) as Hnil. cbn [skip_ws].
    by destruct (parse_array (S fuel) []) as [[vs rest]|e]. }
  cbn [take app]. rewrite skip_ws_stop by done.
  rewrite bool_decide_eq_false_2, bool_decide_eq_true_2 by done.
  rewrite skip_ws_skip by done. rewrite skip_ws_items_torn.
  pose proof (IH (S fuel) k) as Htorn.
  destruct (parse_array (S fuel) _) as [[vs rest]|e]; [|done].
  apply Htorn; [done|]. cbn [length app] in Hn. lia.
Qed.

(** A text of [json.dump] that breaks off is not JSON. *)
Lemma loads_torn (l : list string) (n : nat) :
  n < String.length (dumps l) →
  is_ok (loads (string_of_list_ascii
                  (take n (list_ascii_of_string (dumps l))))) = false.
Proof.
  rewrite string_length_list. unfold loads, dumps.
  rewrite !list_ascii_of_string_of_list_ascii. intros Hn.
  destruct n as [|n]; [done|]. cbn [take]. rewrite skip_ws_stop by done.
  remember (2 * _) as fuel eqn:Hfuel. clear Hfuel.
  cbn [scan_once]. rewrite !bool_decide_eq_false_2 by done.
  rewrite bool_decide_eq_true_2 by done. cbn [length] in Hn.
  destruct l as [|s l].
  { replace n with 0 by (cbn in Hn; lia). cbn.
    pose proof (parse_array_nil fuel) as Hnil.
    by destruct (parse_array fuel []) as [[vs rest]|e]. }
  rewrite skip_ws_items_torn.
  assert (after_char "]" (take n (encode_items (s :: l) ++ ["]"%char]))
            = None) as ->.
  { destruct (encode_items_head s l) as [r ->].
    destruct n as [|n]; [done|]. by rewrite <- app_comm_cons. }
  pose proof (parse_array_torn fuel (s :: l) n) as Htorn.
  destruct (parse_array fuel _) as [[vs rest]|e]; [|done].
  assert (n < length (encode_items (s :: l) ++ ["]"%char])) as Hn' by lia.
  by specialize (Htorn ltac:(done) Hn').
Qed.
End json_torn.

Lemma init_not_json (t : string) :
  is_ok (Json.loads t) = false →
  schedule <$> init (Text t) = Some DEFAULT_SCHEDULE.
Proof.
  intros Hloads. unfold init.
  destruct (load_schedule_text (boot (Text t)) t eq_refl) as [st' ->].
  destruct (Json.loads t) as [v|e]; [done|].
  change default_data with (py_schedule DEFAULT_SCHEDULE).
  by rewrite schedule_of_py_schedule.
Qed.

(** X24: a write that breaks off costs the schedule at the next start.
    When [json.dump] fails with an [Exception] after only a part of the
    text was written, [save_schedule] returns and the schedule in memory
    is untouched, but the file is left with a proper prefix of the text,
    and no such prefix is JSON: the next [load_schedule] prints the
    decoding error and returns the default schedule, and the application
    starts with the default schedule instead of the one the user had. *)
Theorem torn_write_loses_schedule (st : State) (n : nat) (e : exc) :
  n < String.length (Json.dumps (schedule st)) →
  isinstance e Exception = true →
  let st' := (save_schedule (WriteFails n e) st).2 in
  (save_schedule (WriteFails n e) st).1 = Ok () ∧
  schedule st' = schedule st ∧
  (load_schedule st').1 = Ok default_data ∧
  schedule <$> init (schedule_file st') = Some DEFAULT_SCHEDULE.
Proof.
  intros Hn He. cbn zeta.
  pose proof (loads_torn (schedule st) n Hn) as Htorn.
  unfold save_schedule, write_text. unfold_m. cbn. rewrite He. cbn.
  split; [done|]. split; [done|]. split.
  - match goal with
    | |- (load_schedule ?s).1 = _ =>
        destruct (load_schedule_text s _ eq_refl) as [st' ->]
    end.
    cbn. by destruct (Json.loads _).
  - by apply init_not_json.
Qed.

Lemma torn_write_loses_schedule_witness :
  schedule <$>
    init (schedule_file
            (save_schedule (WriteFails 10 (mk_exc OSError "disk full"))
               (ready_state motor_ok ["07:30"; "19:00"] None)).2)
  = Some DEFAULT_SCHEDULE.
Proof.
  refine (proj2 (proj2 (proj2 (torn_write_loses_schedule
    (ready_state motor_ok ["07:30"; "19:00"] None) 10
    (mk_exc OSError "disk full") _ _)))).
  - vm_compute. lia.
  - reflexivity.
Defined.

(** ** Feeds that overlap *)

(** A feed that nothing interrupts is the feed as [on_feed] and
    [scheduled_feed] describe it. *)
Lemma straight_feed_on_feed (st : State) (m : Motor) :
  stepper st = Some m → straight_feed Manual m st = on_feed st.
Proof.
  intros Hm.
  unfold straight_feed, begin_feed, resume_feed, on_feed, in_try, send,
    except_clause, finally_clause.
  unfold_m. cbn. destruct (not_ready st); [done|]. cbn.
  rewrite Hm. cbn. rewrite !(stepper_call_unfold _ m) by done. cbn.
  fold run_cmd.
  destruct (motor_reply m (motor_calls st) run_cmd) as [e|]; cbn.
  { by destruct (isinstance e Exception). }
  rewrite Hm. cbn.
  destruct (motor_reply m (motor_calls st ++ [run_cmd]) Stop) as [e|];
    cbn; [|done].
  by destruct (isinstance e Exception).
Qed.

Lemma straight_feed_scheduled_feed (st : State) (m : Motor) :
  stepper st = Some m → straight_feed Scheduled m st = scheduled_feed st.
Proof.
  intros Hm.
  unfold straight_feed, begin_feed, resume_feed, scheduled_feed, in_try, send,
    except_clause, finally_clause.
  unfold_m. cbn. destruct (not_ready st); [done|]. cbn.
  rewrite Hm. cbn. rewrite !(stepper_call_unfold _ m) by done. cbn.
  fold run_cmd.
  destruct (motor_reply m (motor_calls st) run_cmd) as [e|]; cbn.
  { by destruct (isinstance e Exception). }
  rewrite Hm. cbn.
  destruct (motor_reply m (motor_calls st ++ [run_cmd]) Stop) as [e|];
    cbn; [|done].
  by destruct (isinstance e Exception).
Qed.

Lemma runs_app (l1 l2 : list motor_call) : runs (l1 ++ l2) = runs l1 + runs l2.
Proof. unfold runs. by rewrite filter_app, length_app. Qed.

Lemma awaiting_run_app (l1 l2 : list (feed_kind * await_point)) :
  awaiting_run (l1 ++ l2) = awaiting_run l1 + awaiting_run l2.
Proof. unfold awaiting_run. by rewrite filter_app, length_app. Qed.

Lemma awaiting_run_delete (l : list (feed_kind * await_point)) (i : nat)
    (k : feed_kind) (p : await_point) :
  l !! i = Some (k, p) →
  awaiting_run l = awaiting_run [(k, p)] + awaiting_run (delete i l).
Proof.
  intros Hi. rewrite <- awaiting_run_app. unfold awaiting_run.
  apply Permutation_length. cbn [app].
  by rewrite <- (delete_Permutation l i (k, p) Hi).
Qed.

Lemma motor_calls_save_schedule w : keeps motor_calls (save_schedule w).
Proof.
  unfold save_schedule, write_text. keeps_auto. destruct w; keeps_auto.
Qed.

#[local] Hint Resolve motor_calls_save_schedule : keeps.

(** The callbacks that are not feeds send nothing to the motor. *)
Lemma motor_calls_handle (ev : event) (st : State) :
  ev ≠ FeedClicked → ev ≠ TaskRuns →
  motor_calls (handle ev st).2 = motor_calls st.
Proof.
  intros Hfeed Htask. destruct ev; cbn [handle]; [| | | |done..].
  - rewrite check_schedule_unfold.
    by repeat match goal with |- context [if ?b then _ else _] => destruct b end.
  - revert st. change (keeps motor_calls (on_connect o)).
    unfold on_connect. keeps_auto. destruct o; keeps_auto.
  - revert st. change (keeps motor_calls (add_time time ok w)).
    unfold add_time. keeps_auto.
  - revert st. change (keeps motor_calls (remove_time selected w)).
    unfold remove_time. keeps_auto.
Qed.

(** A feed that begins sends the run command and waits for its answer,
    or it sends nothing and is over. *)
Lemma begin_feed_sends (k : feed_kind) (st : State) :
  (begin_feed k st).1 = Ok (Some AwaitRun) ∧
  motor_calls (begin_feed k st).2 = motor_calls st ++ [run_cmd] ∨
  still_awaiting k (begin_feed k st).1 = [] ∧
  motor_calls (begin_feed k st).2 = motor_calls st.
Proof.
  unfold begin_feed, in_try, send, except_clause, finally_clause.
  unfold_m. cbn. destruct (not_ready st) eqn:Hready.
  { right. by destruct k. }
  destruct (not_ready_stepper st Hready) as [m Hm].
  left. destruct k; cbn; by rewrite Hm.
Qed.

(** A feed that is resumed sends the stop command, when it waited for the
    answer to the run command and the answer is not an error, and waits
    for its answer; or it sends nothing and is over. *)
Lemma resume_feed_sends (k : feed_kind) (p : await_point)
    (reply : option exc) (st : State) :
  p = AwaitRun ∧ reply = None ∧
  (resume_feed k p reply st).1 = Ok (Some AwaitStop) ∧
  motor_calls (resume_feed k p reply st).2 = motor_calls st ++ [Stop] ∨
  still_awaiting k (resume_feed k p reply st).1 = [] ∧
  motor_calls (resume_feed k p reply st).2 = motor_calls st.
Proof.
  unfold resume_feed, in_try, send, except_clause, finally_clause.
  unfold_m. cbn.
  destruct reply as [e|]; cbn.
  { right. by destruct (isinstance e Exception), k. }
  destruct p; cbn.
  - destruct (stepper st) as [m|]; cbn; [by left|].
    right. by destruct k.
  - right. by destruct k.
Qed.

Lemma begin_turn_sends (k : feed_kind) (l : Running) :
  let l' :=
    mk_Running (begin_feed k (app_state l)).2
      (awaiting l ++ still_awaiting k (begin_feed k (app_state l)).1) in
  ∃ b,
    motor_calls (app_state l') = motor_calls (app_state l) ++ b ∧
    Forall (λ c, c = run_cmd ∨ c = Stop) b ∧
    stops b + awaiting_run (awaiting l') ≤ runs b + awaiting_run (awaiting l).
Proof.
  cbn zeta. cbn [app_state awaiting]. rewrite awaiting_run_app.
  destruct (begin_feed_sends k (app_state l)) as [[-> ->]|[-> ->]].
  - exists [run_cmd]. split; [done|]. split; [by repeat constructor|].
    change (stops [run_cmd]) with 0. change (runs [run_cmd]) with 1.
    change (awaiting_run (still_awaiting k (Ok (Some AwaitRun)))) with 1.
    lia.
  - exists []. rewrite app_nil_r. split; [done|]. split; [constructor|].
    cbn. lia.
Qed.

(** One turn of the event loop: what is sent, and how the feeds that wait
    for the answer to a run command account for it. *)
Lemma take_turn_sends (t : turn) (l : Running) :
  ∃ b,
    motor_calls (app_state (take_turn t l)) = motor_calls (app_state l) ++ b ∧
    Forall (λ c, c = run_cmd ∨ c = Stop) b ∧
    stops b + awaiting_run (awaiting (take_turn t l))
      ≤ runs b + awaiting_run (awaiting l).
Proof.
  destruct t as [ev|i reply]; cbn [take_turn].
  - assert (ev = FeedClicked ∨ ev = TaskRuns ∨
            (ev ≠ FeedClicked ∧ ev ≠ TaskRuns)) as [->|[->|[Hfeed Htask]]].
    { destruct ev; auto. }
    + pose proof (begin_turn_sends Manual l) as Hturn.
      by destruct (begin_feed Manual (app_state l)).
    + pose proof (begin_turn_sends Scheduled l) as Hturn.
      by destruct (begin_feed Scheduled (app_state l)).
    + exists []. rewrite app_nil_r.
      assert (take_turn (Callback ev) l
              = mk_Running (handle ev (app_state l)).2 (awaiting l)) as Hturn.
      { by destruct ev. }
      cbn [take_turn] in Hturn. rewrite Hturn. cbn [app_state awaiting].
      split; [by apply motor_calls_handle|]. split; [constructor|].
      change (stops []) with 0. change (runs []) with 0. lia.
  - destruct (awaiting l !! i) as [[k p]|] eqn:Hi.
    2: { exists []. rewrite app_nil_r. split; [done|].
         split; [constructor|].
         change (stops []) with 0. change (runs []) with 0. lia. }
    pose proof (resume_feed_sends k p reply (app_state l)) as Hsends.
    destruct (resume_feed k p reply (app_state l)) as [r st] eqn:Hresume.
    cbn [fst snd app_state awaiting] in *.
    rewrite awaiting_run_app, (awaiting_run_delete _ i k p Hi).
    destruct Hsends as [(-> & _ & -> & ->)|[-> ->]].
    + exists [Stop]. split; [done|]. split; [by repeat constructor|].
      change (stops [Stop]) with 1. change (runs [Stop]) with 0.
      change (awaiting_run (still_awaiting k (Ok (Some AwaitStop)))) with 0.
      change (awaiting_run [(k, AwaitRun)]) with 1. lia.
    + exists []. rewrite app_nil_r. split; [done|]. split; [constructor|].
      cbn. lia.
Qed.

Lemma turns_cons (t : turn) (ts : list turn) (l : Running) :
  turns (t :: ts) l = turns ts (take_turn t l).
Proof. done. Qed.

Lemma turns_send (ts : list turn) (l : Running) :
  ∃ new,
    motor_calls (app_state (turns ts l)) = motor_calls (app_state l) ++ new ∧
    Forall (λ c, c = run_cmd ∨ c = Stop) new ∧
    stops new + awaiting_run (awaiting (turns ts l))
      ≤ runs new + awaiting_run (awaiting l).
Proof.
  revert l. induction ts as [|t ts IH]; intros l.
  { exists []. rewrite app_nil_r. split; [done|]. split; [constructor|].
    cbn. lia. }
  rewrite turns_cons.
  destruct (take_turn_sends t l) as (b & Hb & Hok & Hcount).
  destruct (IH (take_turn t l)) as (new & Hnew & Hoks & Hcounts).
  exists (b ++ new). rewrite Hnew, Hb, <- app_assoc.
  split; [done|]. split; [by apply Forall_app|].
  rewrite stops_app, runs_app. lia.
Qed.

(** X9: the motor under feeds that overlap.  A feed is suspended at each
    [await] while the event loop runs other callbacks and other feeds, in
    any order.  Whatever that order, and whatever the motor answers, the
    only commands sent are [go_for(rpm=500, revolutions=-3)] and [stop()],
    and the stop commands sent never outnumber the run commands sent
    (counting, at the start, the feeds that wait for the answer to a run
    command): a feed sends its stop only when its own run has returned.
    Feeds do overlap: a scheduled feed that begins while a manual feed
    waits for the motor gives run, run, stop, stop.  A feed that nothing
    interrupts is the feed as [on_feed] and [scheduled_feed] describe
    it. *)
Theorem stops_follow_runs (ts : list turn) (l : Running) (m : Motor) :
  (∃ new,
     motor_calls (app_state (turns ts l))
       = motor_calls (app_state l) ++ new ∧
     Forall (λ c, c = run_cmd ∨ c = Stop) new ∧
     stops new + awaiting_run (awaiting (turns ts l))
       ≤ runs new + awaiting_run (awaiting l)) ∧
  (not_ready (app_state l) = false →
     motor_calls
       (app_state
          (turns [Callback FeedClicked; Callback TaskRuns;
                  Answer 0 None; Answer 0 None]
             (mk_Running (app_state l) [])))
       = motor_calls (app_state l) ++ [run_cmd; run_cmd; Stop; Stop]) ∧
  (stepper (app_state l) = Some m →
     straight_feed Manual m (app_state l) = on_feed (app_state l) ∧
     straight_feed Scheduled m (app_state l)
       = scheduled_feed (app_state l)).
Proof.
  split; [apply turns_send|]. split.
  - destruct l as [st waiting]. cbn [app_state]. intros Hready.
    destruct (not_ready_stepper st Hready) as [m' Hm].
    unfold not_ready in Hready. destruct st. cbn in Hready, Hm. subst.
    destruct connected0; [|done].
    transitivity
      ((((motor_calls0 ++ [run_cmd]) ++ [run_cmd]) ++ [Stop]) ++ [Stop]);
      [by vm_compute|].
    cbn [motor_calls]. by rewrite <- !app_assoc.
  - intros Hm. split.
    + by apply straight_feed_on_feed.
    + by apply straight_feed_scheduled_feed.
Qed.

Lemma stops_follow_runs_witness :
  motor_calls
    (app_state
       (turns [Callback FeedClicked; Callback TaskRuns;
               Answer 0 None; Answer 0 None]
          (mk_Running (ready_state motor_ok DEFAULT_SCHEDULE None) [])))
    = [run_cmd; run_cmd; Stop; Stop] ∧
  straight_feed Scheduled motor_stalls
    (ready_state motor_stalls DEFAULT_SCHEDULE None)
    = scheduled_feed (ready_state motor_stalls DEFAULT_SCHEDULE None).
Proof.
  split.
  - apply (proj1 (proj2 (stops_follow_runs []
             (mk_Running (ready_state motor_ok DEFAULT_SCHEDULE None) [])
             motor_ok))).
    reflexivity.
  - apply (proj2 (proj2 (stops_follow_runs []
             (mk_Running (ready_state motor_stalls DEFAULT_SCHEDULE None) [])
             motor_stalls))).
    reflexivity.
Defined.
